(** * tankwar: relay, replication and rate-limit core

    A shallow embedding of the Host network role
    ([src/game/network/ServerNetwork.ts]), the tank model
    ([src/game/models/Tank.ts], [TankPlayer]), the tank manager and the
    replication loops of the [Game] scene, and the chat submit path of
    [ChatUi].

    Conventions.
    - A method that mutates [this] and talks to the outside world is a
      computation in a small writer-state monad: it takes the object,
      returns its result, the object after the call and the chronological
      list of effects it performed (sends, local notifications, ...).
    - JS [number]s that are times in milliseconds, health points and
      damages are modelled by [Z]; the code only adds, subtracts and
      compares them, which is exact on integers below 2^53. Angles,
      steering and forces are carried as values of [Z] too; where the code
      computes them in floating point (the steering rule and the aim of
      [PlayerController]) the results are inputs of the model.
    - A JS [Set] or [Map] is a list in insertion order without repeated
      element (resp. key). *)

From stdpp Require Import base list strings sorting.
From Stdlib Require Import ZArith Lia.

#[local] Open Scope Z_scope.

(** ** Generic helpers *)

(** [Set.prototype.add]: the element goes to the end unless present. *)
Definition set_add `{EqDecision A} (x : A) (l : list A) : list A :=
  if decide (x ∈ l) then l else l ++ [x].

(** [Set.prototype.delete]. *)
Definition set_delete `{EqDecision A} (x : A) (l : list A) : list A :=
  filter (λ y, y ≠ x) l.

Lemma set_add_NoDup `{EqDecision A} (x : A) l : NoDup l → NoDup (set_add x l).
Proof.
  intros Hl. unfold set_add. case_decide; [done|].
  apply NoDup_app. split_and!; [done| |apply NoDup_singleton].
  intros y Hy ->%list_elem_of_singleton. done.
Qed.

Lemma set_delete_NoDup `{EqDecision A} (x : A) l :
  NoDup l → NoDup (set_delete x l).
Proof. apply NoDup_filter. Qed.

Lemma set_add_fresh `{EqDecision A} (x : A) l :
  x ∉ l → set_add x l = l ++ [x].
Proof. intros. unfold set_add. by case_decide. Qed.

Lemma elem_of_set_delete `{EqDecision A} (x y : A) l :
  y ∈ set_delete x l ↔ y ∈ l ∧ y ≠ x.
Proof. unfold set_delete. rewrite list_elem_of_filter. tauto. Qed.

(** ** Methods as programs

    A method of an object of type [S] whose effects on the outside are of
    type [E]: from the object before the call to the result, the object
    after the call and the effects performed, oldest first. *)
Definition Prog (S E A : Type) : Type := S → A * S * list E.

#[global] Instance Prog_ret {S E} : MRet (Prog S E) := λ A a s, (a, s, []).
#[global] Instance Prog_bind {S E} : MBind (Prog S E) := λ A B f m s,
  let '(a, s1, o1) := m s in
  let '(b, s2, o2) := f a s1 in
  (b, s2, o1 ++ o2).

Definition this {S E} : Prog S E S := λ s, (s, s, []).
Definition modify {S E} (f : S → S) : Prog S E unit := λ s, ((), f s, []).
Definition tell {S E} (e : E) : Prog S E unit := λ s, ((), s, [e]).
Definition skip {S E} : Prog S E unit := mret ().

(** [list.forEach(f)]. *)
Fixpoint forEach {S E A} (l : list A) (f : A → Prog S E unit)
    : Prog S E unit :=
  match l with
  | [] => skip
  | x :: l' => f x;; forEach l' f
  end.

Definition state_of {S E A} (r : A * S * list E) : S := r.1.2.
Definition effects_of {S E A} (r : A * S * list E) : list E := r.2.

Lemma bind_eq {S E A B} (m : Prog S E A) (f : A → Prog S E B) s :
  (m ≫= f) s =
  let '(a, s1, o1) := m s in let '(b, s2, o2) := f a s1 in (b, s2, o1 ++ o2).
Proof. reflexivity. Qed.

Lemma state_bind {S E A B} (m : Prog S E A) (f : A → Prog S E B) s :
  state_of ((m ≫= f) s) = state_of (f (m s).1.1 (state_of (m s))).
Proof.
  rewrite bind_eq. destruct (m s) as [[a s1] o1]. unfold state_of. cbn.
  by destruct (f a s1) as [[b s2] o2].
Qed.

Lemma effects_bind {S E A B} (m : Prog S E A) (f : A → Prog S E B) s :
  effects_of ((m ≫= f) s)
  = effects_of (m s) ++ effects_of (f (m s).1.1 (state_of (m s))).
Proof.
  rewrite bind_eq. destruct (m s) as [[a s1] o1].
  unfold state_of, effects_of. cbn. by destruct (f a s1) as [[b s2] o2].
Qed.

Lemma state_forEach_cons {S E A} (x : A) l (f : A → Prog S E unit) s :
  state_of (forEach (x :: l) f s) = state_of (forEach l f (state_of (f x s))).
Proof. cbn [forEach]. by rewrite state_bind. Qed.

Lemma effects_forEach_cons {S E A} (x : A) l (f : A → Prog S E unit) s :
  effects_of (forEach (x :: l) f s)
  = effects_of (f x s) ++ effects_of (forEach l f (state_of (f x s))).
Proof. cbn [forEach]. by rewrite effects_bind. Qed.

Lemma forEach_tell {S E A} (g : A → E) (l : list A) (s : S) :
  forEach l (λ x, tell (g x)) s = ((), s, g <$> l).
Proof.
  induction l as [|x l IH]; [done|].
  cbn [forEach]. rewrite bind_eq. cbn. by rewrite IH.
Qed.

Lemma prog_ext {S E} (r r' : unit * S * list E) :
  state_of r = state_of r' → effects_of r = effects_of r' → r = r'.
Proof. destruct r as [[[] s] o], r' as [[[] s'] o']. cbn. by intros -> ->. Qed.

(** Runs the binds of a method body down to the calls kept folded. *)
Ltac run_binds := unfold mbind, Prog_bind, mret, Prog_ret, skip.

Lemma filter_all {A} (P : A → Prop) `{!∀ x, Decision (P x)} (l : list A) :
  (∀ x, x ∈ l → P x) → filter P l = l.
Proof.
  induction l as [|c l IH]; intros HP; [done|].
  rewrite filter_cons, decide_True by (apply HP; left).
  rewrite IH; [done|]. intros x Hx. apply HP. by right.
Qed.

Lemma set_delete_Permutation `{EqDecision A} (x : A) l :
  NoDup l → x ∈ l → l ≡ₚ x :: set_delete x l.
Proof.
  unfold set_delete. induction 1 as [|y l Hy Hl IH]; [by intros ?%elem_of_nil|].
  rewrite filter_cons. intros [->|Hx]%elem_of_cons.
  - rewrite decide_False by (by intros H; apply H).
    rewrite filter_all; [done|]. by intros z Hz ->.
  - rewrite decide_True by (by intros ->).
    rewrite (IH Hx) at 1. apply Permutation_swap.
Qed.

(** * The Host network role *)
Module ServerNetwork.

(** [Metadata] of [NetworkEvents]: the code reads [metadata.name] here and
    [name]/[tank] in [Game.respawn]. *)
Module Metadata.
Record t := mk { name : string; tank : string }.
#[global] Instance eq_dec : EqDecision t.
Proof. solve_decision. Defined.
End Metadata.

(** [PeerData]. The [uuid] of the Host's own entry is [this.peer.id], which
    PeerJS sets to [null] when it disconnects the peer: [None] here. *)
Module PeerData.
Record t := mk { uuid : option string; metadata : Metadata.t }.
#[global] Instance eq_dec : EqDecision t.
Proof. solve_decision. Defined.
End PeerData.

(** A PeerJS [DataConnection] object. [oid] is the identity of the object
    (what [!==] and [Set] membership compare); [peer] is the id of the
    remote peer and [metadata] what it supplied when connecting. *)
Module DataConnection.
Record t := mk { oid : nat; peer : string; metadata : Metadata.t }.
#[global] Instance eq_dec : EqDecision t.
Proof. solve_decision. Defined.
End DataConnection.

(** The [data: unknown] of an envelope: either an application payload the
    network layer never looks into, or the [{peer, peers}] object that
    [addConnection] and [removeConnection] build. *)
Inductive Payload :=
  | Opaque (json : string)
  | Roster (peer : PeerData.t) (peers : list PeerData.t).

#[global] Instance Payload_eq_dec : EqDecision Payload.
Proof. solve_decision. Defined.

(** The wire envelope [Message] = [{channel, data, peer}]; [peer] is [None]
    for the [null] id of a disconnected peer. *)
Module Message.
Record t := mk { channel : string; data : Payload; peer : option string }.
#[global] Instance eq_dec : EqDecision t.
Proof. solve_decision. Defined.
End Message.

Inductive NetworkStatus := Disconnected | Connecting | Connected.

#[global] Instance NetworkStatus_eq_dec : EqDecision NetworkStatus.
Proof. solve_decision. Defined.

(** What [this.emit] can carry in this class. *)
Inductive LocalEvent :=
  | EvStatus (status : NetworkStatus)
  | EvPeers (peers : list PeerData.t)
  | EvJoin (name : string)
  | EvLeave (name : string).

#[global] Instance LocalEvent_eq_dec : EqDecision LocalEvent.
Proof. solve_decision. Defined.

(** What the class can observe of a PeerJS [Peer] object: its [id], which
    is the id given to the constructor until PeerJS disconnects the peer
    from the server and [null] from then on, and [destroyed]. *)
Module Peer.
Record t := mk { id : option string; destroyed : bool }.
#[global] Instance eq_dec : EqDecision t.
Proof. solve_decision. Defined.
End Peer.

(** Effects of the class on its collaborators, in the order performed:
    [connection.send(data)], [connection.close()],
    [connection.removeAllListeners()], [peer.destroy()] (on the peer made
    by the [connect] call of that number), [this.emit(...)],
    [super.handleMessage(connection, data)] and [console.log/error]. *)
Inductive Effect :=
  | Sent (connection : DataConnection.t) (data : Message.t)
  | Closed (connection : DataConnection.t)
  | ListenersRemoved (connection : DataConnection.t)
  | Destroyed (peer : nat)
  | Emitted (event : LocalEvent)
  | Dispatched (connection : DataConnection.t) (data : Message.t)
  | Logged (line : string).

#[global] Instance Effect_eq_dec : EqDecision Effect.
Proof. solve_decision. Defined.

(** The promise returned by [connect]. *)
Inductive Promise := Pending | Fulfilled | Rejected (error : string).

#[global] Instance Promise_eq_dec : EqDecision Promise.
Proof. solve_decision. Defined.

(** The closure of one [connect] call: the [Peer] it created, which of the
    listeners registered on that peer can still fire, and the promise.
    Every call makes a new one; the earlier ones stay as they are. *)
Record Attempt := mkAttempt {
  a_peer : Peer.t;
  once_open : bool;
  once_disconnected : bool;
  once_error : bool;
  on_connection : bool;
  promise : Promise
}.

(** The object, and the peers made so far: [peer] is the number of the
    [connect] call whose peer is stored in [this.peer]. *)
Record t := mk {
  id : string;
  peer : option nat;
  connections : list DataConnection.t;
  handleConnection : option (DataConnection.t → bool);
  metadata : option Metadata.t;
  attempts : list Attempt
}.

Definition new (id : string) : t :=
  {| id := id; peer := None; connections := []; handleConnection := None;
     metadata := None; attempts := [] |}.

Definition with_peer (p : option nat) (s : t) : t :=
  {| id := id s; peer := p; connections := connections s;
     handleConnection := handleConnection s; metadata := metadata s;
     attempts := attempts s |}.

Definition with_connections (l : list DataConnection.t) (s : t) : t :=
  {| id := id s; peer := peer s; connections := l;
     handleConnection := handleConnection s; metadata := metadata s;
     attempts := attempts s |}.

Definition with_handleConnection (f : option (DataConnection.t → bool))
    (s : t) : t :=
  {| id := id s; peer := peer s; connections := connections s;
     handleConnection := f; metadata := metadata s; attempts := attempts s |}.

Definition with_metadata (m : option Metadata.t) (s : t) : t :=
  {| id := id s; peer := peer s; connections := connections s;
     handleConnection := handleConnection s; metadata := m;
     attempts := attempts s |}.

Definition with_attempts (l : list Attempt) (s : t) : t :=
  {| id := id s; peer := peer s; connections := connections s;
     handleConnection := handleConnection s; metadata := metadata s;
     attempts := l |}.

(** Methods of the class: programs over the object and its effects. *)
Abbreviation M := (Prog t Effect).

(** A change to the peer or the closure of [connect] call [k]. *)
Definition update_attempt (k : nat) (f : Attempt → Attempt) : M unit :=
  modify (λ s, with_attempts (alter f k (attempts s)) s).

(** [this.peer.id] when [this.peer] is the peer of call [k]. *)
Definition peer_id (k : nat) (s : t) : option string :=
  attempts s !! k ≫= λ a, Peer.id (a_peer a).

(** *** Methods that do not call back *)

Definition emit (e : LocalEvent) : M unit := tell (Emitted e).

Definition getPeerData (s : t) : option PeerData.t :=
  match metadata s, peer s with
  | Some m, Some k => Some (PeerData.mk (peer_id k s) m)
  | _, _ => None
  end.

Definition peerDataOf (c : DataConnection.t) : PeerData.t :=
  PeerData.mk (Some (DataConnection.peer c)) (DataConnection.metadata c).

Definition connectedPeers (s : t) : list PeerData.t :=
  let peers := peerDataOf <$> connections s in
  match getPeerData s with
  | Some peerData => peers ++ [peerData]
  | None => peers
  end.

Definition broadcast (data : Message.t) (exclude : option DataConnection.t)
    : M unit :=
  s ← this;
  forEach (connections s) (λ connection,
    if decide (Some connection ≠ exclude) then tell (Sent connection data)
    else skip).

Definition send (channel : string) (data : Payload) : M unit :=
  s ← this;
  match peer s with
  | Some k => broadcast (Message.mk channel data (peer_id k s)) None
  | None => skip
  end.

(** Modelled from the spec: [Network.channel] (the base class [Network] is
    not among the sources). Section 4.2: the handle's [send(data)] "wraps
    payload as an Envelope tagged with the channel name and transmits via
    the Role's [send]". *)
Definition channel_send (name : string) (data : Payload) : M unit :=
  send name data.

(** Modelled from the spec: [Network.handleMessage] of the base class, the
    channel bus dispatch of an incoming envelope to the local handlers. It
    does not touch the fields of [ServerNetwork]. *)
Definition super_handleMessage (connection : DataConnection.t)
    (data : Message.t) : M unit :=
  tell (Dispatched connection data).

Definition handleMessage (connection : DataConnection.t) (data : Message.t)
    : M unit :=
  super_handleMessage connection data;;
  broadcast (Message.mk (Message.channel data) (Message.data data)
               (Some (DataConnection.peer connection))) (Some connection).

(** *** Closing a connection

    PeerJS: [connection.close()] on an open connection clears
    [connection.open] and emits [close] on it at once; on a connection
    that is not open it emits nothing. The class attaches its [data],
    [close] and [error] listeners to a connection in the statement that
    adds it to the set, and [removeConnection] detaches them in the
    statement before the one that deletes it: the connections that are
    open with the class listening are those of the set. *)

(** [removeConnection] after its first statement, [connection.close()]. *)
Definition removeConnection_rest (connection : DataConnection.t) : M unit :=
  tell (ListenersRemoved connection);;
  modify (λ s, with_connections (set_delete connection (connections s)) s);;
  s ← this;
  let peers := connectedPeers s in
  emit (EvPeers peers);;
  emit (EvLeave (Metadata.name (DataConnection.metadata connection)));;
  channel_send "leave" (Roster (peerDataOf connection) peers).

(** [removeConnection(connection)] as the [close] listener runs it: PeerJS
    has cleared [connection.open] before emitting [close], so the
    [connection.close()] of the method emits nothing. *)
Definition removeConnection_closed (connection : DataConnection.t)
    : M unit :=
  tell (Closed connection);;
  removeConnection_rest connection.

(** PeerJS closes an open connection: [close] is emitted, and the
    listener of the class runs if it is attached. *)
Definition connection_closes (connection : DataConnection.t) : M unit :=
  s ← this;
  if decide (connection ∈ connections s)
  then removeConnection_closed connection
  else skip.

(** [removeConnection(connection)] on a connection that PeerJS has not
    closed, as the [error] listener runs it: [connection.close()] comes
    before [connection.removeAllListeners()], so the [close] it emits
    reaches the [close] listener of the class, which runs
    [removeConnection] a first time inside the call. *)
Definition removeConnection (connection : DataConnection.t) : M unit :=
  tell (Closed connection);;
  connection_closes connection;;
  removeConnection_rest connection.

(** The callback that [addConnection] registers with
    [connection.once('open', ...)]. The [data], [close] and [error]
    listeners it installs are the entry points [handleMessage],
    [removeConnection_closed] and [removeConnection] of the event loop
    below. *)
Definition addConnection_open (connection : DataConnection.t) : M unit :=
  modify (λ s, with_connections (set_add connection (connections s)) s);;
  s ← this;
  let peers := connectedPeers s in
  emit (EvPeers peers);;
  emit (EvJoin (Metadata.name (DataConnection.metadata connection)));;
  channel_send "join" (Roster (peerDataOf connection) peers).

(** [addConnection] itself only registers the callback above on the
    connection: the object is unchanged until the connection opens. *)
Definition addConnection (connection : DataConnection.t) : M unit := skip.

(** The listener of [peer.on('connection', ...)]:
    [await this.handleConnection?.(conn) ?? true]. *)
Definition peer_connection (conn : DataConnection.t) : M unit :=
  s ← this;
  if default true ((λ f, f conn) <$> handleConnection s)
  then addConnection conn
  else tell (Closed conn);; connection_closes conn.

(** *** Destroying the peer

    PeerJS: [peer.destroy()] does nothing on a destroyed peer. Otherwise
    it first disconnects the peer from the server, which, unless that was
    done before, sets [peer.id] to [null] and emits [disconnected]; then
    it closes the connections of the peer; then it marks the peer
    destroyed. All of it happens inside the call, before
    [peer.removeAllListeners()], so the listeners of the class run nested
    in [disconnect]. *)

Definition disarm (a : Attempt) : Attempt :=
  {| a_peer := a_peer a; once_open := false; once_disconnected := false;
     once_error := false; on_connection := false; promise := promise a |}.

Definition fired_open (a : Attempt) : Attempt :=
  {| a_peer := a_peer a; once_open := false;
     once_disconnected := once_disconnected a; once_error := once_error a;
     on_connection := true; promise := promise a |}.

Definition fired_disconnected (a : Attempt) : Attempt :=
  {| a_peer := a_peer a; once_open := once_open a;
     once_disconnected := false; once_error := once_error a;
     on_connection := on_connection a; promise := promise a |}.

Definition fired_error (a : Attempt) : Attempt :=
  {| a_peer := a_peer a; once_open := once_open a;
     once_disconnected := once_disconnected a; once_error := false;
     on_connection := on_connection a; promise := promise a |}.

Definition with_a_peer (p : Peer.t) (a : Attempt) : Attempt :=
  {| a_peer := p; once_open := once_open a;
     once_disconnected := once_disconnected a; once_error := once_error a;
     on_connection := on_connection a; promise := promise a |}.

(** PeerJS has disconnected, resp. destroyed, the peer. *)
Definition lost (a : Attempt) : Attempt :=
  with_a_peer (Peer.mk None (Peer.destroyed (a_peer a))) a.

Definition gone (a : Attempt) : Attempt :=
  with_a_peer (Peer.mk (Peer.id (a_peer a)) true) a.

(** PeerJS disconnects peer [k] from the server, in [peer.destroy()] or on
    its own; [listener] is what the [disconnected] listener of [connect]
    does. A peer is disconnected once. *)
Definition peer_disconnects (listener : M unit) (k : nat) : M unit :=
  s ← this;
  match attempts s !! k with
  | Some a =>
      match Peer.id (a_peer a) with
      | Some _ =>
          update_attempt k lost;;
          if once_disconnected a
          then update_attempt k fired_disconnected;; listener
          else skip
      | None => skip
      end
  | None => skip
  end.

(** PeerJS closes the connections of the peer; [closes] lists them in the
    order in which it does. *)
Definition cleanup (closes : list DataConnection.t) : M unit :=
  forEach closes connection_closes.

Definition destroy (listener : M unit) (k : nat)
    (closes : list DataConnection.t) : M unit :=
  tell (Destroyed k);;
  s ← this;
  match attempts s !! k with
  | Some a =>
      if Peer.destroyed (a_peer a) then skip
      else
        peer_disconnects listener k;;
        cleanup closes;;
        update_attempt k gone
  | None => skip
  end.

(** [disconnect()], given what the [disconnected] listener does when
    [peer.destroy()] makes it run. [this.peer?.removeAllListeners()] reads
    [this.peer] again after [destroy()] has returned. *)
Definition disconnect_with (listener : M unit)
    (closes : list DataConnection.t) : M unit :=
  s ← this;
  match peer s with
  | Some k =>
      destroy listener k closes;;
      s ← this;
      match peer s with
      | Some k' => update_attempt k' disarm
      | None => skip
      end
  | None => skip
  end;;
  modify (with_connections []);;
  modify (with_peer None);;
  emit (EvStatus Disconnected).

(** [disconnect()] as the [disconnected] listener runs it, inside
    [this.peer.destroy()]: the listener is a [once] listener and the peer
    is disconnected by then, so this inner [destroy()] emits no
    [disconnected] again. *)
Definition disconnect_nested (closes : list DataConnection.t) : M unit :=
  disconnect_with skip closes.

(** [disconnect()]. *)
Definition disconnect (closes : list DataConnection.t) : M unit :=
  disconnect_with (disconnect_nested closes) closes.

(** *** Connecting *)

Definition settle (p : Promise) (a : Attempt) : Attempt :=
  {| a_peer := a_peer a; once_open := once_open a;
     once_disconnected := once_disconnected a; once_error := once_error a;
     on_connection := on_connection a;
     promise := match promise a with Pending => p | q => q end |}.

Definition resolve (k : nat) : M unit := update_attempt k (settle Fulfilled).
Definition reject (k : nat) (error : string) : M unit :=
  update_attempt k (settle (Rejected error)).

(** [connect(options)]: the new peer and its listeners are the next entry
    of [attempts]. *)
Definition connect (options_metadata : Metadata.t)
    (closes : list DataConnection.t) : M unit :=
  modify (with_metadata (Some options_metadata));;
  disconnect closes;;
  emit (EvStatus Connecting);;
  modify (λ s, with_attempts (attempts s ++
    [{| a_peer := Peer.mk (Some (id s)) false; once_open := true;
        once_disconnected := true; once_error := true;
        on_connection := false; promise := Pending |}]) s).

(** The [once('open')] listener of call [k]. PeerJS emits [open], with the
    id of the peer, on a peer that is connected to the server. A listener
    that already fired, or that [removeAllListeners] took away, does
    nothing. *)
Definition peer_open (k : nat) : M unit :=
  s ← this;
  match attempts s !! k with
  | Some a =>
      match Peer.id (a_peer a) with
      | Some i =>
          if once_open a then
            update_attempt k fired_open;;
            emit (EvStatus Connected);;
            tell (Logged ("My peer ID is: " +:+ i));;
            modify (with_peer (Some k));;
            s ← this;
            emit (EvPeers (connectedPeers s));;
            resolve k
          else skip
      | None => skip
      end
  | None => skip
  end.

(** The [once('error')] listener of call [k]. *)
Definition peer_error (k : nat) (error : string)
    (closes : list DataConnection.t) : M unit :=
  s ← this;
  match attempts s !! k with
  | Some a =>
      if once_error a then
        update_attempt k fired_error;;
        disconnect closes;;
        reject k error
      else skip
  | None => skip
  end.

Definition setHandleConnection (f : DataConnection.t → bool) : M unit :=
  modify (with_handleConnection (Some f)).

(** *** The event loop

    Everything that can happen to the object: calls of its public methods
    and events of the PeerJS objects it listens to. Which connection
    events occur, and in which order PeerJS closes the connections of a
    peer it destroys ([closes]), is decided by PeerJS, not by this class:
    the model lets any of them occur at any time, so the properties below
    hold for every behaviour the real class has. *)
Inductive Event :=
  | CallConnect (metadata : Metadata.t) (closes : list DataConnection.t)
  | CallDisconnect (closes : list DataConnection.t)
  | CallSend (channel : string) (data : Payload)
  | CallSetHandleConnection (f : DataConnection.t → bool)
  | PeerOpen (k : nat)
  | PeerDisconnected (k : nat) (closes : list DataConnection.t)
  | PeerError (k : nat) (error : string) (closes : list DataConnection.t)
  | PeerConnection (k : nat) (conn : DataConnection.t)
  | ConnOpen (connection : DataConnection.t)
  | ConnData (connection : DataConnection.t) (data : Message.t)
  | ConnClose (connection : DataConnection.t)
  | ConnError (connection : DataConnection.t) (error : string).

Definition handle (e : Event) : M unit :=
  match e with
  | CallConnect md closes => connect md closes
  | CallDisconnect closes => disconnect closes
  | CallSend channel data => send channel data
  | CallSetHandleConnection f => setHandleConnection f
  | PeerOpen k => peer_open k
  | PeerDisconnected k closes => peer_disconnects (disconnect closes) k
  | PeerError k error closes => peer_error k error closes
  | PeerConnection k conn =>
      s ← this;
      if default false (on_connection <$> attempts s !! k)
      then peer_connection conn
      else skip
  | ConnOpen connection => addConnection_open connection
  | ConnData connection data => handleMessage connection data
  | ConnClose connection => removeConnection_closed connection
  | ConnError connection error =>
      tell (Logged error);; removeConnection connection
  end.

Definition run (events : list Event) : M unit := forEach events handle.

(** The states the object can be in: some run from a fresh object. *)
Definition reachable (s : t) : Prop :=
  ∃ id events, s = state_of (run events (new id)).

(** The envelopes sent over one connection, in order. *)
Definition sent_to (c : DataConnection.t) (out : list Effect)
    : list Message.t :=
  omap (λ e, match e with
             | Sent c' m => if decide (c' = c) then Some m else None
             | _ => None
             end) out.

(** The status notifications, in order. *)
Definition statuses (out : list Effect) : list NetworkStatus :=
  omap (λ e, match e with
             | Emitted (EvStatus st) => Some st
             | _ => None
             end) out.

(** The envelope [{...data, peer: connection.peer}] that [handleMessage]
    builds from an incoming [data]. *)
Definition relayed (connection : DataConnection.t) (data : Message.t)
    : Message.t :=
  Message.mk (Message.channel data) (Message.data data)
    (Some (DataConnection.peer connection)).

(** The set invariant of [connections]. *)
Definition wf (s : t) : Prop := NoDup (connections s).


(** The connection an event opens. *)
Definition opened (e : Event) : list DataConnection.t :=
  match e with ConnOpen c => [c] | _ => [] end.

(** The promise of [connect] call [k]. *)
Definition promise_of (k : nat) (s : t) : option Promise :=
  promise <$> attempts s !! k.

(** A small session used to exercise the statements: a host and three
    clients, and a second connection from Alice's peer. *)
Definition host_md : Metadata.t := Metadata.mk "Hugo" "heig".
Definition alice : DataConnection.t :=
  DataConnection.mk 1 "alice-id" (Metadata.mk "Alice" "heig").
Definition bob : DataConnection.t :=
  DataConnection.mk 2 "bob-id" (Metadata.mk "Bob" "military").
Definition carol : DataConnection.t :=
  DataConnection.mk 3 "carol-id" (Metadata.mk "Carol" "heig").
Definition alice2 : DataConnection.t :=
  DataConnection.mk 4 "alice-id" (Metadata.mk "Alice" "heig").
Definition hosting : list Event := [CallConnect host_md []; PeerOpen 0].
Definition one_client : t :=
  state_of (run (hosting ++ [ConnOpen alice]) (new "host-id")).
Definition two_clients : t :=
  state_of (run (hosting ++ [ConnOpen alice; ConnOpen bob]) (new "host-id")).
Definition alice_twice : t :=
  state_of (run (hosting ++ [ConnOpen alice; ConnOpen alice2])
              (new "host-id")).

(** *** Equations of the methods *)

Lemma state_ext (s s' : t) :
  id s = id s' → peer s = peer s' → connections s = connections s' →
  handleConnection s = handleConnection s' → metadata s = metadata s' →
  attempts s = attempts s' → s = s'.
Proof. destruct s, s'. cbn. by intros -> -> -> -> -> ->. Qed.

Lemma with_connections_same s : with_connections (connections s) s = s.
Proof. by destruct s. Qed.

Lemma connections_with_connections l s :
  connections (with_connections l s) = l.
Proof. done. Qed.

Lemma with_connections_twice l l' s :
  with_connections l (with_connections l' s) = with_connections l s.
Proof. done. Qed.

Lemma elem_of_set_add `{EqDecision A} (x y : A) l :
  y ∈ set_add x l ↔ y = x ∨ y ∈ l.
Proof.
  unfold set_add. case_decide.
  - split; [auto|]. by intros [->|?].
  - rewrite elem_of_app, list_elem_of_singleton. tauto.
Qed.

Lemma set_delete_absent `{EqDecision A} (x : A) l :
  x ∉ l → set_delete x l = l.
Proof.
  intros Hx. unfold set_delete. apply filter_all. by intros y Hy ->.
Qed.

Lemma set_delete_add `{EqDecision A} (x : A) l :
  x ∉ l → set_delete x (set_add x l) = l.
Proof.
  intros Hx. rewrite set_add_fresh by done. unfold set_delete.
  rewrite filter_app, filter_cons, decide_False by (by intros H; apply H).
  rewrite filter_nil, app_nil_r. apply filter_all. by intros y Hy ->.
Qed.

Lemma set_delete_twice `{EqDecision A} (x : A) l :
  set_delete x (set_delete x l) = set_delete x l.
Proof.
  apply set_delete_absent. rewrite elem_of_set_delete. by intros [_ ?].
Qed.

Lemma set_delete_subseteq `{EqDecision A} (x : A) l : set_delete x l ⊆ l.
Proof. intros y. rewrite elem_of_set_delete. by intros [? _]. Qed.

Lemma forEach_sends data (P : DataConnection.t → Prop)
    `{!∀ c, Decision (P c)} l (s : t) :
  forEach l (λ connection,
    if decide (P connection) then tell (Sent connection data) else skip) s
  = ((), s, (λ c, Sent c data) <$> filter P l).
Proof.
  induction l as [|c l IH]; [done|].
  cbn [forEach]. rewrite bind_eq, filter_cons.
  destruct (decide (P c)); cbn; by rewrite IH.
Qed.

Lemma broadcast_eq data exclude s :
  broadcast data exclude s
  = ((), s, (λ c, Sent c data)
              <$> filter (λ c, Some c ≠ exclude) (connections s)).
Proof.
  unfold broadcast. rewrite bind_eq. cbn [this].
  by rewrite (forEach_sends data (λ c, Some c ≠ exclude)).
Qed.

Lemma send_eq channel data s :
  send channel data s
  = ((), s, match peer s with
            | Some k =>
                (λ c, Sent c (Message.mk channel data (peer_id k s)))
                  <$> connections s
            | None => []
            end).
Proof.
  unfold send. rewrite bind_eq. cbn [this].
  destruct (peer s) as [p|]; [|done].
  rewrite broadcast_eq, filter_all by done. done.
Qed.

Lemma handleMessage_eq connection data s :
  handleMessage connection data s
  = ((), s, Dispatched connection data
            :: ((λ c, Sent c (relayed connection data))
                 <$> set_delete connection (connections s))).
Proof.
  unfold handleMessage. rewrite bind_eq. cbn [super_handleMessage tell].
  rewrite broadcast_eq. cbn. do 3 f_equal.
  apply list_filter_iff. intros c. split; [by intros H ->|].
  by intros H [= ->].
Qed.

Lemma removeConnection_rest_eq connection s :
  removeConnection_rest connection s
  = let s' := with_connections (set_delete connection (connections s)) s in
    let peers := connectedPeers s' in
    ((), s',
     [ListenersRemoved connection; Emitted (EvPeers peers);
      Emitted (EvLeave (Metadata.name (DataConnection.metadata connection)))]
     ++ effects_of (send "leave" (Roster (peerDataOf connection) peers) s')).
Proof.
  unfold removeConnection_rest, channel_send. run_binds.
  cbn -[send set_delete connectedPeers]. rewrite send_eq. reflexivity.
Qed.

Lemma removeConnection_closed_eq connection s :
  removeConnection_closed connection s
  = let s' := with_connections (set_delete connection (connections s)) s in
    let peers := connectedPeers s' in
    ((), s',
     [Closed connection; ListenersRemoved connection; Emitted (EvPeers peers);
      Emitted (EvLeave (Metadata.name (DataConnection.metadata connection)))]
     ++ effects_of (send "leave" (Roster (peerDataOf connection) peers) s')).
Proof.
  unfold removeConnection_closed. rewrite bind_eq. cbn [tell].
  by rewrite removeConnection_rest_eq.
Qed.

Lemma connection_closes_eq connection s :
  connection_closes connection s
  = if decide (connection ∈ connections s)
    then removeConnection_closed connection s
    else ((), s, []).
Proof.
  unfold connection_closes. rewrite bind_eq. cbn [this].
  destruct (decide (connection ∈ connections s)); [|done].
  destruct (removeConnection_closed connection s) as [[[] s'] out].
  by rewrite app_nil_l.
Qed.

Lemma connection_closes_state connection s :
  state_of (connection_closes connection s)
  = with_connections (set_delete connection (connections s)) s.
Proof.
  rewrite connection_closes_eq.
  destruct (decide (connection ∈ connections s)) as [Hin|Hout].
  - by rewrite removeConnection_closed_eq.
  - cbn. by rewrite set_delete_absent, with_connections_same.
Qed.

Lemma removeConnection_eq connection s :
  removeConnection connection s
  = let s' := with_connections (set_delete connection (connections s)) s in
    ((), s',
     Closed connection :: effects_of (connection_closes connection s)
     ++ effects_of (removeConnection_rest connection s')).
Proof.
  cbn zeta. unfold removeConnection. apply prog_ext.
  - rewrite !state_bind. cbn [tell state_of fst snd].
    rewrite connection_closes_state, removeConnection_rest_eq.
    cbn [state_of fst snd connections with_connections].
    by rewrite set_delete_twice.
  - rewrite !effects_bind. cbn [tell state_of effects_of fst snd].
    by rewrite connection_closes_state.
Qed.

Lemma addConnection_open_eq connection s :
  addConnection_open connection s
  = let s' := with_connections (set_add connection (connections s)) s in
    let peers := connectedPeers s' in
    ((), s',
     [Emitted (EvPeers peers);
      Emitted (EvJoin (Metadata.name (DataConnection.metadata connection)))]
     ++ effects_of (send "join" (Roster (peerDataOf connection) peers) s')).
Proof.
  unfold addConnection_open, channel_send. run_binds.
  cbn -[send set_add connectedPeers]. rewrite send_eq. reflexivity.
Qed.

(** *** Reading a trace *)

Lemma sent_to_app c o1 o2 : sent_to c (o1 ++ o2) = sent_to c o1 ++ sent_to c o2.
Proof. apply omap_app. Qed.

Lemma sent_to_sends c m (l : list DataConnection.t) :
  NoDup l →
  sent_to c ((λ c', Sent c' m) <$> l) = if decide (c ∈ l) then [m] else [].
Proof.
  induction 1 as [|x l Hx Hl IH]; [done|].
  unfold sent_to in *. cbn. rewrite IH.
  destruct (decide (x = c)) as [->|Hne].
  - rewrite decide_False by done. by rewrite decide_True by left.
  - destruct (decide (c ∈ l)).
    + by rewrite decide_True by (by right).
    + rewrite decide_False; [done|].
      rewrite not_elem_of_cons. split; [congruence|done].
Qed.

Lemma elem_of_sent_to c m out : m ∈ sent_to c out ↔ Sent c m ∈ out.
Proof.
  unfold sent_to. rewrite list_elem_of_omap. split.
  - intros (e & He & Hm). destruct e as [c' m'| | | | | |]; try done.
    destruct (decide (c' = c)) as [->|]; [|done]. by injection Hm as ->.
  - intros H. exists (Sent c m). split; [done|]. by rewrite decide_True.
Qed.

Lemma statuses_app o1 o2 : statuses (o1 ++ o2) = statuses o1 ++ statuses o2.
Proof. apply omap_app. Qed.

Lemma statuses_sends (m : Message.t) (l : list DataConnection.t) :
  statuses ((λ c, Sent c m) <$> l) = [].
Proof. by induction l. Qed.

Lemma statuses_send channel data s :
  statuses (effects_of (send channel data s)) = [].
Proof.
  rewrite send_eq. cbn. destruct (peer s); [|done]. apply statuses_sends.
Qed.

(** *** Tearing the peer down *)

(** What is left of a set after PeerJS has closed [closes]. *)
Definition closed_out (closes l : list DataConnection.t)
    : list DataConnection.t :=
  foldl (λ l c, set_delete c l) l closes.

Lemma closed_out_subseteq closes l : closed_out closes l ⊆ l.
Proof.
  revert l. induction closes as [|c closes IH]; intros l; [done|]. cbn.
  etrans; [apply IH|apply set_delete_subseteq].
Qed.

Lemma closed_out_nil closes : closed_out closes [] = [].
Proof. induction closes as [|c closes IH]; [done|]. cbn. exact IH. Qed.

Lemma cleanup_state closes s :
  state_of (cleanup closes s)
  = with_connections (closed_out closes (connections s)) s.
Proof.
  revert s. induction closes as [|c closes IH]; intros s.
  - cbn. by rewrite with_connections_same.
  - unfold cleanup in *. rewrite state_forEach_cons, connection_closes_state.
    by rewrite IH.
Qed.

Lemma cleanup_empty closes s :
  connections s = [] → effects_of (cleanup closes s) = [].
Proof.
  revert s. induction closes as [|c closes IH]; intros s Hs; [done|].
  unfold cleanup in *. rewrite effects_forEach_cons.
  rewrite connection_closes_state, IH by (cbn; by rewrite Hs).
  rewrite connection_closes_eq, Hs.
  by rewrite decide_False by apply not_elem_of_nil.
Qed.

(** Every effect of a cleanup is an effect of the [close] listener of a
    connection of the set, run on the object with some of its connections
    already removed. *)
Lemma cleanup_Forall (Q : Effect → Prop) closes s :
  (∀ c l, c ∈ l → l ⊆ connections s →
     Forall Q (effects_of (removeConnection_closed c (with_connections l s))))
  → Forall Q (effects_of (cleanup closes s)).
Proof.
  intros HQ.
  assert (H : ∀ l, l ⊆ connections s →
    Forall Q (effects_of (cleanup closes (with_connections l s)))).
  { induction closes as [|c closes IH]; intros l Hl; [by constructor|].
    unfold cleanup in *. rewrite effects_forEach_cons, Forall_app. split.
    - rewrite connection_closes_eq. cbn [connections with_connections].
      destruct (decide (c ∈ l)); [by apply HQ|by constructor].
    - rewrite connection_closes_state. cbn [connections with_connections].
      rewrite with_connections_twice. apply IH.
      etrans; [apply set_delete_subseteq|done]. }
  rewrite <-(with_connections_same s). by apply H.
Qed.

Lemma alter_absent {A} (f : A → A) k (l : list A) :
  l !! k = None → alter f k l = l.
Proof.
  revert k. induction l as [|x l IH]; intros [|k]; cbn; try done.
  intros H. f_equal. by apply IH.
Qed.

Lemma with_attempts_same s : with_attempts (attempts s) s = s.
Proof. by destruct s. Qed.

(** The [disconnected] listener of peer [k] can run: PeerJS has not
    disconnected the peer yet and the listener is attached. *)
Definition armed (k : nat) (s : t) : bool :=
  match attempts s !! k with
  | Some a =>
      bool_decide (is_Some (Peer.id (a_peer a))) && once_disconnected a
  | None => false
  end.

(** The peer [k] exists and is not destroyed. *)
Definition live (k : nat) (s : t) : bool :=
  match attempts s !! k with
  | Some a => negb (Peer.destroyed (a_peer a))
  | None => false
  end.

Lemma peer_disconnects_eq listener k s :
  peer_disconnects listener k s
  = if armed k s
    then listener
           (with_attempts (alter (fired_disconnected ∘ lost) k (attempts s)) s)
    else ((), with_attempts (alter lost k (attempts s)) s, []).
Proof.
  unfold peer_disconnects, armed, update_attempt. rewrite bind_eq. cbn [this].
  destruct (attempts s !! k) as [a|] eqn:Ha; cycle 1.
  { by rewrite alter_absent, with_attempts_same. }
  destruct (Peer.id (a_peer a)) as [i|] eqn:Hi; cycle 1.
  { cbn. rewrite (list_alter_ext lost (λ a, a) _ (attempts s) k).
    - by rewrite list_alter_id, with_attempts_same.
    - intros x Hx. assert (x = a) as -> by congruence.
      destruct a as [[??] ?????]. cbn in Hi. by subst.
    - done. }
  rewrite bool_decide_true by done. cbn [andb].
  destruct (once_disconnected a).
  - run_binds. unfold modify. cbn -[alter]. rewrite list_alter_alter_eq.
    by destruct (listener _) as [[[] s'] out].
  - by run_binds.
Qed.

Lemma destroy_eq listener k closes s :
  destroy listener k closes s
  = if live k s then
      let r1 := peer_disconnects listener k s in
      let s1 := state_of r1 in
      let s2 := with_connections (closed_out closes (connections s1)) s1 in
      ((), with_attempts (alter gone k (attempts s2)) s2,
       Destroyed k :: effects_of r1 ++ effects_of (cleanup closes s1))
    else ((), s, [Destroyed k]).
Proof.
  unfold destroy, live. apply prog_ext.
  - rewrite !state_bind. cbn [tell this state_of fst snd].
    destruct (attempts s !! k) as [a|]; [|done].
    destruct (Peer.destroyed (a_peer a)); [done|]. cbn [negb].
    rewrite !state_bind, cleanup_state. done.
  - rewrite !effects_bind. cbn [tell this state_of effects_of fst snd].
    destruct (attempts s !! k) as [a|]; [|done].
    destruct (Peer.destroyed (a_peer a)); [done|]. cbn [negb].
    rewrite !effects_bind. cbn -[cleanup peer_disconnects].
    by rewrite app_nil_r.
Qed.

Lemma disconnect_with_eq listener closes s :
  disconnect_with listener closes s
  = match peer s with
    | Some k =>
        let r1 := destroy listener k closes s in
        let s1 := state_of r1 in
        ((), with_peer None (with_connections []
               match peer s1 with
               | Some k' => with_attempts (alter disarm k' (attempts s1)) s1
               | None => s1
               end),
         effects_of r1 ++ [Emitted (EvStatus Disconnected)])
    | None =>
        ((), with_peer None (with_connections [] s),
         [Emitted (EvStatus Disconnected)])
    end.
Proof.
  unfold disconnect_with. apply prog_ext.
  - rewrite !state_bind. cbn [this state_of fst snd].
    destruct (peer s) as [k|]; [|done].
    rewrite !state_bind. cbn -[destroy].
    by destruct (peer (state_of (destroy listener k closes s))).
  - rewrite !effects_bind. cbn [this state_of effects_of fst snd].
    destruct (peer s) as [k|]; [|done].
    rewrite !effects_bind. cbn -[destroy].
    destruct (peer (state_of (destroy listener k closes s))); cbn;
      by rewrite ?app_nil_r.
Qed.

(** The peer and the listeners of call [k] once [disconnect] is through
    with them. *)
Definition retire (a : Attempt) : Attempt :=
  disarm (if Peer.destroyed (a_peer a) then a else gone (lost a)).

(** The object after [disconnect()]. *)
Definition torn_down (s : t) : t :=
  with_peer None (with_connections []
    (with_attempts
       match peer s with
       | Some k => alter retire k (attempts s)
       | None => attempts s
       end s)).

Lemma retire_alive a :
  Peer.destroyed (a_peer a) = false → retire a = disarm (gone (lost a)).
Proof. unfold retire. by intros ->. Qed.

Lemma torn_down_ext s s' :
  id s' = id s → handleConnection s' = handleConnection s →
  metadata s' = metadata s → peer s' = None → connections s' = [] →
  attempts s'
  = match peer s with
    | Some k => alter retire k (attempts s)
    | None => attempts s
    end →
  s' = torn_down s.
Proof. intros. by apply state_ext. Qed.

Ltac torn_down_fields :=
  apply torn_down_ext;
  cbn [state_of effects_of fst snd id peer connections handleConnection
       metadata attempts with_peer with_attempts with_connections];
  try done.

Lemma disconnect_nested_state closes s :
  state_of (disconnect_nested closes s) = torn_down s.
Proof.
  unfold disconnect_nested. rewrite disconnect_with_eq.
  destruct (peer s) as [k|] eqn:Hp; cycle 1.
  { torn_down_fields. by rewrite Hp. }
  cbn zeta. rewrite destroy_eq. unfold live.
  destruct (attempts s !! k) as [a|] eqn:Ha; cycle 1.
  { cbn [state_of fst snd]. rewrite Hp. torn_down_fields.
    rewrite Hp. by rewrite !alter_absent. }
  destruct (Peer.destroyed (a_peer a)) eqn:Hd; cbn [negb].
  { cbn [state_of fst snd]. rewrite Hp. torn_down_fields. rewrite Hp.
    apply list_alter_ext; [|done]. intros x Hx.
    assert (x = a) as -> by congruence. unfold retire. by rewrite Hd. }
  rewrite peer_disconnects_eq.
  destruct (armed k s); cbn [skip mret Prog_ret state_of effects_of fst snd
                             peer with_attempts with_connections attempts];
    rewrite Hp; torn_down_fields; rewrite Hp; rewrite !list_alter_alter_eq;
    (apply list_alter_ext; [|done]); intros x Hx;
    assert (x = a) as -> by congruence;
    rewrite (retire_alive a Hd); by destruct a as [[??] ?????].
Qed.

Lemma disconnect_state closes s :
  state_of (disconnect closes s) = torn_down s.
Proof.
  unfold disconnect. rewrite disconnect_with_eq.
  destruct (peer s) as [k|] eqn:Hp; cycle 1.
  { torn_down_fields. by rewrite Hp. }
  cbn zeta. rewrite destroy_eq. unfold live.
  destruct (attempts s !! k) as [a|] eqn:Ha; cycle 1.
  { cbn [state_of fst snd]. rewrite Hp. torn_down_fields.
    rewrite Hp. by rewrite !alter_absent. }
  destruct (Peer.destroyed (a_peer a)) eqn:Hd; cbn [negb].
  { cbn [state_of fst snd]. rewrite Hp. torn_down_fields. rewrite Hp.
    apply list_alter_ext; [|done]. intros x Hx.
    assert (x = a) as -> by congruence. unfold retire. by rewrite Hd. }
  rewrite peer_disconnects_eq.
  destruct (armed k s).
  - rewrite disconnect_nested_state.
    apply torn_down_ext; unfold torn_down;
      cbn [state_of effects_of fst snd id peer connections handleConnection
           metadata attempts with_peer with_attempts with_connections];
      try done.
    rewrite Hp.
    rewrite !list_alter_alter_eq. apply list_alter_ext; [|done].
    intros x Hx. assert (x = a) as -> by congruence.
    rewrite (retire_alive a Hd). unfold retire.
    destruct a as [[??] ?????]. cbn in Hd. by subst.
  - cbn [state_of effects_of fst snd peer with_attempts with_connections
         attempts].
    rewrite Hp. torn_down_fields. rewrite Hp. rewrite !list_alter_alter_eq.
    apply list_alter_ext; [|done]. intros x Hx.
    assert (x = a) as -> by congruence.
    rewrite (retire_alive a Hd). by destruct a as [[??] ?????].
Qed.

(** What the [close] listeners do while PeerJS destroys the peer stored in
    [this.peer], on an object with connections [L] and metadata [md]: by
    then the peer is disconnected, so the Host's own roster entry and the
    envelopes it sends carry a [null] id. *)
Definition teardown_effect (L : list DataConnection.t)
    (md : option Metadata.t) (p : option nat) (e : Effect) : Prop :=
  match e with
  | Sent c m =>
      c ∈ L ∧ Message.channel m = "leave" ∧ Message.peer m = None
  | Closed c | ListenersRemoved c => c ∈ L
  | Destroyed k => p = Some k
  | Emitted (EvPeers l) =>
      ∃ cs, cs ⊆ L
            ∧ l = (peerDataOf <$> cs) ++ (PeerData.mk None <$> option_list md)
  | Emitted (EvLeave name) =>
      ∃ c, c ∈ L ∧ name = Metadata.name (DataConnection.metadata c)
  | _ => False
  end.

Lemma teardown_statuses L md p out :
  Forall (teardown_effect L md p) out → statuses out = [].
Proof.
  induction 1 as [|e out He _ IH]; [done|].
  destruct e as [| | | |[]| |]; try done.
Qed.

Lemma close_listener_teardown s k c l :
  peer s = Some k → peer_id k s = None → c ∈ l → l ⊆ connections s →
  Forall (teardown_effect (connections s) (metadata s) (peer s))
    (effects_of (removeConnection_closed c (with_connections l s))).
Proof.
  intros Hp Hid Hc Hl. rewrite removeConnection_closed_eq. cbn zeta.
  rewrite send_eq.
  cbn [effects_of state_of fst snd peer with_connections connections].
  rewrite Hp.
  assert (Hsub : set_delete c l ⊆ connections s)
    by (etrans; [apply set_delete_subseteq|done]).
  repeat apply Forall_cons_2.
  - cbn. by apply Hl.
  - cbn. by apply Hl.
  - cbn. exists (set_delete c l). split; [done|].
    unfold connectedPeers, getPeerData.
    cbn [metadata peer with_connections connections]. rewrite Hp.
    change (peer_id k (with_connections ?x (with_connections ?y s)))
      with (peer_id k s).
    rewrite Hid. destruct (metadata s); cbn; [done|by rewrite app_nil_r].
  - cbn. exists c. split; [by apply Hl|done].
  - apply Forall_fmap, Forall_forall. intros c' Hc'. cbn.
    split; [by apply Hsub|]. split; [done|]. exact Hid.
Qed.

Lemma cleanup_teardown closes s k :
  peer s = Some k → peer_id k s = None →
  Forall (teardown_effect (connections s) (metadata s) (peer s))
    (effects_of (cleanup closes s)).
Proof.
  intros Hp Hid. apply cleanup_Forall. intros c l Hc Hl.
  by apply close_listener_teardown with k.
Qed.

Lemma peer_id_lost f k l s :
  (∀ a, Peer.id (a_peer (f a)) = None) →
  peer_id k (with_attempts (alter f k l) s) = None.
Proof.
  intros Hf. unfold peer_id. cbn. rewrite list_lookup_alter_eq.
  destruct (l !! k); cbn; [apply Hf|done].
Qed.

Lemma peer_id_live k s :
  live k s = true → armed k s = false →
  peer_id k (with_attempts (alter lost k (attempts s)) s) = None.
Proof. intros _ _. by apply peer_id_lost. Qed.

(** The call nests a second [disconnect()]: a peer is stored, PeerJS has
    neither destroyed nor disconnected it, and its [disconnected] listener
    is attached. *)
Definition nests (s : t) : bool :=
  match peer s with
  | Some k => live k s && armed k s
  | None => false
  end.

Lemma disconnect_nested_effects closes s :
  ∃ out,
    effects_of (disconnect_nested closes s)
    = out ++ [Emitted (EvStatus Disconnected)]
    ∧ Forall (teardown_effect (connections s) (metadata s) (peer s)) out.
Proof.
  unfold disconnect_nested. rewrite disconnect_with_eq.
  destruct (peer s) as [k|] eqn:Hp; cycle 1.
  { exists []. by split. }
  cbn zeta. rewrite destroy_eq.
  destruct (live k s) eqn:Hlive; cycle 1.
  { exists [Destroyed k]. split; [done|]. by repeat constructor. }
  rewrite peer_disconnects_eq.
  destruct (armed k s); cbn [skip mret Prog_ret effects_of state_of fst snd];
    (eexists; split; [reflexivity|]);
    (apply Forall_cons_2; [done|]); cbn [app];
    match goal with
    | |- Forall _ (effects_of (cleanup closes ?s1)) =>
        pose proof (cleanup_teardown closes s1 k Hp
                      ltac:(by apply peer_id_lost)) as H;
        cbn [connections metadata peer with_attempts] in H;
        rewrite Hp in H; exact H
    end.
Qed.

Lemma disconnect_effects closes s :
  ∃ out,
    effects_of (disconnect closes s)
    = out ++ (if nests s then [Emitted (EvStatus Disconnected)] else [])
          ++ [Emitted (EvStatus Disconnected)]
    ∧ Forall (teardown_effect (connections s) (metadata s) (peer s)) out.
Proof.
  unfold disconnect, nests. rewrite disconnect_with_eq.
  destruct (peer s) as [k|] eqn:Hp; cycle 1.
  { exists []. by split. }
  cbn zeta. rewrite destroy_eq.
  destruct (live k s) eqn:Hlive; cycle 1.
  { exists [Destroyed k]. split; [done|]. by repeat constructor. }
  rewrite peer_disconnects_eq. cbn [andb].
  destruct (armed k s) eqn:Harmed.
  - set (s1 := with_attempts _ s).
    destruct (disconnect_nested_effects closes s1) as (out & Hout & HF).
    rewrite cleanup_empty by (by rewrite disconnect_nested_state).
    exists (Destroyed k :: out). cbn [effects_of state_of fst snd].
    rewrite Hout, app_nil_r.
    split; [cbn [app]; by rewrite <-(assoc_L (++))|].
    apply Forall_cons_2; [done|].
    subst s1. cbn [connections metadata peer with_attempts] in HF.
    rewrite Hp in HF. exact HF.
  - set (s1 := with_attempts _ s).
    exists (Destroyed k :: effects_of (cleanup closes s1)).
    cbn [effects_of state_of fst snd]. split; [done|].
    apply Forall_cons_2; [done|].
    pose proof (cleanup_teardown closes s1 k Hp
                  ltac:(by apply peer_id_lost)) as H.
    subst s1. cbn [connections metadata peer with_attempts] in H.
    rewrite Hp in H. exact H.
Qed.

Lemma disconnect_statuses closes s :
  statuses (effects_of (disconnect closes s))
  = if nests s then [Disconnected; Disconnected] else [Disconnected].
Proof.
  destruct (disconnect_effects closes s) as (out & -> & HF).
  rewrite !statuses_app, (teardown_statuses _ _ _ _ HF).
  by destruct (nests s).
Qed.

(** *** Connecting, equations *)

(** The peer and the listeners a [connect] call makes. *)
Definition fresh (i : string) : Attempt :=
  {| a_peer := Peer.mk (Some i) false; once_open := true;
     once_disconnected := true; once_error := true;
     on_connection := false; promise := Pending |}.

Lemma connect_eq md closes s :
  connect md closes s
  = let s0 := with_metadata (Some md) s in
    ((), with_attempts (attempts (torn_down s0) ++ [fresh (id s)])
           (torn_down s0),
     effects_of (disconnect closes s0) ++ [Emitted (EvStatus Connecting)]).
Proof.
  cbn zeta. unfold connect. apply prog_ext.
  - rewrite !state_bind. cbn -[disconnect]. by rewrite disconnect_state.
  - rewrite !effects_bind. cbn -[disconnect]. by rewrite ?app_nil_r.
Qed.

Lemma peer_open_eq k s :
  peer_open k s
  = match attempts s !! k with
    | Some a =>
        match Peer.id (a_peer a) with
        | Some i =>
            if once_open a then
              let s1 :=
                with_peer (Some k)
                  (with_attempts (alter fired_open k (attempts s)) s) in
              ((), with_attempts
                     (alter (settle Fulfilled) k (attempts s1)) s1,
               [Emitted (EvStatus Connected);
                Logged ("My peer ID is: " +:+ i);
                Emitted (EvPeers (connectedPeers s1))])
            else ((), s, [])
        | None => ((), s, [])
        end
    | None => ((), s, [])
    end.
Proof.
  unfold peer_open, resolve, update_attempt. run_binds. unfold modify.
  cbn -[alter connectedPeers].
  destruct (attempts s !! k) as [a|]; [|done].
  destruct (Peer.id (a_peer a)); [|done].
  by destruct (once_open a).
Qed.

Lemma peer_error_eq k error closes s :
  peer_error k error closes s
  = match attempts s !! k with
    | Some a =>
        if once_error a then
          let s1 := with_attempts (alter fired_error k (attempts s)) s in
          ((), with_attempts
                 (alter (settle (Rejected error)) k (attempts (torn_down s1)))
                 (torn_down s1),
           effects_of (disconnect closes s1))
        else ((), s, [])
    | None => ((), s, [])
    end.
Proof.
  unfold peer_error. apply prog_ext.
  - rewrite state_bind. cbn [this state_of fst snd].
    destruct (attempts s !! k) as [a|]; [|done].
    destruct (once_error a); [|done].
    rewrite !state_bind. cbn -[disconnect alter].
    by rewrite disconnect_state.
  - rewrite effects_bind. cbn [this state_of effects_of fst snd app].
    destruct (attempts s !! k) as [a|]; [|done].
    destruct (once_error a); [|done].
    rewrite !effects_bind. cbn -[disconnect alter]. by rewrite ?app_nil_r.
Qed.

Lemma peer_connection_eq conn s :
  peer_connection conn s
  = if default true ((λ f, f conn) <$> handleConnection s)
    then ((), s, [])
    else ((), with_connections (set_delete conn (connections s)) s,
          Closed conn :: effects_of (connection_closes conn s)).
Proof.
  unfold peer_connection, addConnection. apply prog_ext.
  - rewrite state_bind. cbn [this state_of fst snd].
    destruct (default true _); [done|].
    rewrite state_bind. cbn [tell state_of fst snd].
    by rewrite connection_closes_state.
  - rewrite effects_bind. cbn [this state_of effects_of fst snd app].
    destruct (default true _); [done|].
    by rewrite effects_bind.
Qed.

(** *** Runs *)

Lemma run_cons e events s :
  run (e :: events) s
  = let '(_, s1, o1) := handle e s in
    let '(_, s2, o2) := run events s1 in ((), s2, o1 ++ o2).
Proof.
  unfold run. cbn [forEach]. rewrite bind_eq.
  destruct (handle e s) as [[[] s1] o1].
  by destruct (forEach events handle s1) as [[[] s2] o2].
Qed.

Lemma state_run_cons e events s :
  state_of (run (e :: events) s)
  = state_of (run events (state_of (handle e s))).
Proof. apply state_forEach_cons. Qed.

Lemma effects_run_cons e events s :
  effects_of (run (e :: events) s)
  = effects_of (handle e s)
    ++ effects_of (run events (state_of (handle e s))).
Proof. apply effects_forEach_cons. Qed.

Lemma state_run_app l1 l2 s :
  state_of (run (l1 ++ l2) s) = state_of (run l2 (state_of (run l1 s))).
Proof.
  revert s. induction l1 as [|e l1 IH]; intros s; [done|].
  cbn [app]. by rewrite !state_run_cons, IH.
Qed.

Lemma effects_run_app l1 l2 s :
  effects_of (run (l1 ++ l2) s)
  = effects_of (run l1 s) ++ effects_of (run l2 (state_of (run l1 s))).
Proof.
  revert s. induction l1 as [|e l1 IH]; intros s; [done|].
  cbn [app]. rewrite !effects_run_cons, state_run_cons, IH.
  by rewrite (assoc_L (++)).
Qed.

Lemma state_run_one e s : state_of (run [e] s) = state_of (handle e s).
Proof. by rewrite state_run_cons. Qed.

Lemma effects_run_one e s : effects_of (run [e] s) = effects_of (handle e s).
Proof. rewrite effects_run_cons. cbn. by rewrite app_nil_r. Qed.

(** *** The set invariant holds in every reachable state *)

Lemma handle_connections e s :
  let l' := connections (state_of (handle e s)) in
  l' = connections s ∨ l' = [] ∨
  ∃ c, l' = set_add c (connections s) ∨ l' = set_delete c (connections s).
Proof.
  destruct e; cbn [handle].
  - rewrite connect_eq. cbn. auto.
  - rewrite disconnect_state. cbn. auto.
  - rewrite send_eq. auto.
  - cbn. auto.
  - rewrite peer_open_eq. destruct (attempts s !! k) as [a|]; [|auto].
    destruct (Peer.id (a_peer a)); [|auto]. destruct (once_open a); auto.
  - rewrite peer_disconnects_eq. destruct (armed k s); [|auto].
    rewrite disconnect_state. cbn. auto.
  - rewrite peer_error_eq. destruct (attempts s !! k) as [a|]; [|auto].
    destruct (once_error a); cbn; auto.
  - rewrite bind_eq. cbn [this].
    destruct (default false _); [|auto]. rewrite peer_connection_eq.
    destruct (default true _); cbn; eauto.
  - rewrite addConnection_open_eq. cbn. eauto.
  - rewrite handleMessage_eq. auto.
  - rewrite removeConnection_closed_eq. cbn. eauto.
  - rewrite bind_eq. cbn [tell]. rewrite removeConnection_eq. cbn. eauto.
Qed.

Lemma handle_wf e s : wf s → wf (state_of (handle e s)).
Proof.
  unfold wf. intros Hs.
  destruct (handle_connections e s) as [->|[->|[c [->| ->]]]];
    auto using set_add_NoDup, set_delete_NoDup, NoDup_nil_2.
Qed.

Lemma run_wf events s : wf s → wf (state_of (run events s)).
Proof.
  revert s. induction events as [|e events IH]; intros s Hs; [done|].
  rewrite state_run_cons. by apply IH, handle_wf.
Qed.

Lemma reachable_wf s : reachable s → wf s.
Proof. intros (i & events & ->). apply run_wf, NoDup_nil_2. Qed.

(** *** The roster *)

Lemma connectedPeers_eq s :
  connectedPeers s
  = (peerDataOf <$> connections s) ++ option_list (getPeerData s).
Proof.
  unfold connectedPeers. destruct (getPeerData s); cbn; [done|].
  by rewrite app_nil_r.
Qed.

(** The uuids of a roster. *)
Lemma uuids_connectedPeers s :
  PeerData.uuid <$> connectedPeers s
  = (Some ∘ DataConnection.peer <$> connections s)
    ++ (PeerData.uuid <$> option_list (getPeerData s)).
Proof.
  rewrite connectedPeers_eq, fmap_app, <-list_fmap_compose. done.
Qed.

(** *** Relay fan-out *)

(** C1. An envelope [data] received from connection [A] is forwarded to
    every other connection of the set exactly once, as
    [{channel: data.channel, data: data.data, peer: A.peer}]: the channel and
    the payload are the sender's, the origin is the identity of [A] whatever
    [data.peer] said; nothing is sent over [A] itself, nothing else is put
    on the wire, and the connection set is unchanged. *)
Theorem relay_fan_out (s : t) (A : DataConnection.t) (data : Message.t) :
  reachable s →
  let r := handleMessage A data s in
  let forwarded :=
    Message.mk (Message.channel data) (Message.data data)
      (Some (DataConnection.peer A)) in
  state_of r = s
  ∧ (∀ B, B ∈ connections s → B ≠ A → sent_to B (effects_of r) = [forwarded])
  ∧ sent_to A (effects_of r) = []
  ∧ (∀ c m, Sent c m ∈ effects_of r →
       c ∈ connections s ∧ c ≠ A ∧ m = forwarded).
Proof.
  intros Hs%reachable_wf r forwarded. subst r.
  rewrite handleMessage_eq. fold forwarded. cbn [state_of effects_of fst snd].
  assert (Hd : NoDup (set_delete A (connections s)))
    by by apply set_delete_NoDup.
  split_and!.
  - done.
  - intros B HB HBA. change (?x :: ?l) with ([x] ++ l).
    rewrite sent_to_app, (sent_to_sends _ _ _ Hd). cbn.
    rewrite decide_True; [done|]. by apply elem_of_set_delete.
  - change (?x :: ?l) with ([x] ++ l).
    rewrite sent_to_app, (sent_to_sends _ _ _ Hd). cbn.
    rewrite decide_False; [done|]. rewrite elem_of_set_delete.
    by intros [_ ?].
  - intros c m [Hc|Hc]%elem_of_cons; [done|].
    apply list_elem_of_fmap in Hc as (c' & [= -> ->] & Hc').
    by apply elem_of_set_delete in Hc' as [? ?].
Qed.

Lemma relay_fan_out_witness :
  reachable two_clients
  ∧ sent_to bob
      (effects_of
         (handleMessage alice (Message.mk "chat" (Opaque "hi") (Some "bob-id"))
            two_clients))
    = [Message.mk "chat" (Opaque "hi") (Some "alice-id")].
Proof.
  assert (H : reachable two_clients) by (by eexists _, _).
  split; [exact H|].
  destruct (relay_fan_out two_clients alice
              (Message.mk "chat" (Opaque "hi") (Some "bob-id")) H)
    as (_ & Hb & _).
  apply Hb; [|done]. apply list_elem_of_In. vm_compute. tauto.
Defined.

(** *** Join *)

(** C2 as the specification states it, at one joining connection: the
    [join] envelope goes to the new connection only. *)
Definition join_is_unicast (s : t) (c : DataConnection.t) : Prop :=
  ∀ c' m, Sent c' m ∈ effects_of (addConnection_open c s) →
    Message.channel m = "join" → c' = c.

(** C2, counterexample. With Alice already connected, the opening of
    Bob's connection sends the [join] envelope over Alice's connection
    too: [channel('join').send] goes through [send], which broadcasts. *)
Lemma join_reaches_existing_connections : ¬ join_is_unicast one_client bob.
Proof.
  intros H.
  specialize (H alice
    (Message.mk "join"
       (Roster (peerDataOf bob)
          [peerDataOf alice; peerDataOf bob;
           PeerData.mk (Some "host-id") host_md])
       (Some "host-id"))).
  discriminate H; [|done]. apply list_elem_of_In. vm_compute. tauto.
Qed.

(** C2, amended. When connection [c], not yet in the set, opens on a
    connected Host, the [join] envelope [{peer: c, peers}] is sent exactly
    once over every connection of the set, the new one included, and
    nothing else is put on the wire. Its [peers] list is the roster after
    the join: one entry more than the roster before (connections and the
    Host itself), the entry of [c] among them; its uuids are pairwise
    distinct provided those of the roster before were and the peer id of
    [c] is new. *)
Theorem join_broadcast (s : t) (c : DataConnection.t) (k : nat) :
  reachable s → peer s = Some k → c ∉ connections s →
  let r := addConnection_open c s in
  let peers := connectedPeers (state_of r) in
  let join :=
    Message.mk "join" (Roster (peerDataOf c) peers) (peer_id k s) in
  connections (state_of r) = connections s ++ [c]
  ∧ (∀ c', c' ∈ connections s ++ [c] → sent_to c' (effects_of r) = [join])
  ∧ (∀ c' m, Sent c' m ∈ effects_of r →
       c' ∈ connections s ++ [c] ∧ m = join)
  ∧ length peers = S (length (connectedPeers s))
  ∧ peerDataOf c ∈ peers
  ∧ (NoDup (PeerData.uuid <$> connectedPeers s) →
     Some (DataConnection.peer c) ∉ PeerData.uuid <$> connectedPeers s →
     NoDup (PeerData.uuid <$> peers)).
Proof.
  intros Hs%reachable_wf Hp Hc r peers join. subst r peers join.
  rewrite addConnection_open_eq. cbn zeta.
  rewrite set_add_fresh by done.
  set (s' := with_connections (connections s ++ [c]) s).
  assert (Hs' : NoDup (connections s ++ [c])).
  { rewrite <-(set_add_fresh c) by done. by apply set_add_NoDup. }
  rewrite send_eq. cbn [state_of effects_of fst snd].
  change (peer s') with (peer s). rewrite Hp.
  change (peer_id k s') with (peer_id k s).
  change (connections s') with (connections s ++ [c]).
  split_and!.
  - done.
  - intros c' Hc'.
    change ([?a; ?b] ++ ?l) with ([a; b] ++ l).
    rewrite sent_to_app, (sent_to_sends _ _ _ Hs'). cbn.
    by rewrite decide_True.
  - intros c' m [Hm|[Hm|Hm]%elem_of_cons]%elem_of_cons; [done..|].
    by apply list_elem_of_fmap in Hm as (c'' & [= -> ->] & Hc'').
  - rewrite !connectedPeers_eq. change (getPeerData s') with (getPeerData s).
    change (connections s') with (connections s ++ [c]).
    rewrite !length_app, !length_fmap, length_app. cbn. lia.
  - rewrite connectedPeers_eq.
    change (connections s') with (connections s ++ [c]).
    rewrite fmap_app, !elem_of_app. left; right. cbn. left.
  - rewrite !uuids_connectedPeers.
    change (getPeerData s') with (getPeerData s).
    change (connections s') with (connections s ++ [c]).
    intros Hnd Hfresh. rewrite fmap_app. cbn.
    rewrite <-(assoc_L (++)). cbn.
    rewrite <-Permutation_middle. by apply NoDup_cons.
Qed.

Lemma join_broadcast_witness :
  (reachable one_client ∧ peer one_client = Some 0%nat
   ∧ bob ∉ connections one_client)
  ∧ sent_to alice (effects_of (addConnection_open bob one_client))
    = [Message.mk "join"
         (Roster (peerDataOf bob)
            [peerDataOf alice; peerDataOf bob;
             PeerData.mk (Some "host-id") host_md])
         (Some "host-id")].
Proof.
  assert (H : reachable one_client) by (by eexists _, _).
  assert (Hb : bob ∉ connections one_client).
  { rewrite list_elem_of_In. vm_compute. intros [[=]|[]]. }
  split; [done|].
  destruct (join_broadcast one_client bob 0%nat H eq_refl Hb)
    as (_ & Hsent & _).
  apply Hsent. apply list_elem_of_In. vm_compute. tauto.
Defined.

(** *** Leave *)

(** C3 as the specification states it, when the connection [B] closes:
    every remaining connection gets exactly one [leave] envelope, and the
    [peers] list in it has no entry for the peer of [B]. *)
Definition leave_without (s : t) (B : DataConnection.t) : Prop :=
  ∀ c, c ∈ connections s → c ≠ B →
    ∃ data peers origin,
      sent_to c (effects_of (handle (ConnClose B) s))
      = [Message.mk "leave" (Roster data peers) origin]
      ∧ Some (DataConnection.peer B) ∉ PeerData.uuid <$> peers.

(** C3, counterexample. Alice's peer has two connections to the Host. When
    the second one closes, the roster sent to the first still has the
    entry of Alice: rosters are per connection, and the class has no
    notion of a participant with several connections. *)
Lemma leave_keeps_other_connection : ¬ leave_without alice_twice alice2.
Proof.
  intros H. destruct (H alice) as (data & peers & origin & Hsent & Hout).
  - apply list_elem_of_In. vm_compute. tauto.
  - done.
  - vm_compute in Hsent. injection Hsent as <- <- <-.
    apply Hout. apply list_elem_of_In. vm_compute. tauto.
Qed.

(** C3, amended. When the connection [B] of a connected Host closes, the
    [close] listener takes [B] out of the set, recomputes the roster, emits
    [peers] and [leave] locally and sends one [leave] envelope, with that
    roster, over every remaining connection and none over [B]. The roster
    is that of the remaining connections and the Host: it has an entry
    with the peer id of [B] exactly when another connection, or the Host,
    carries that id. *)
Theorem leave_broadcast (s : t) (B : DataConnection.t) (k : nat) :
  reachable s → peer s = Some k → B ∈ connections s →
  let r := handle (ConnClose B) s in
  let peers := connectedPeers (state_of r) in
  let leave :=
    Message.mk "leave" (Roster (peerDataOf B) peers) (peer_id k s) in
  (∀ c, c ∈ connections (state_of r) ↔ c ∈ connections s ∧ c ≠ B)
  ∧ effects_of r
    = [Closed B; ListenersRemoved B; Emitted (EvPeers peers);
       Emitted (EvLeave (Metadata.name (DataConnection.metadata B)))]
      ++ ((λ c, Sent c leave) <$> connections (state_of r))
  ∧ (∀ c, c ∈ connections s → c ≠ B → sent_to c (effects_of r) = [leave])
  ∧ sent_to B (effects_of r) = []
  ∧ peers
    = (peerDataOf <$> connections (state_of r))
      ++ option_list (getPeerData s)
  ∧ (Some (DataConnection.peer B) ∈ PeerData.uuid <$> peers
     ↔ (∃ c, c ∈ connections s ∧ c ≠ B
             ∧ DataConnection.peer c = DataConnection.peer B)
       ∨ PeerData.uuid <$> getPeerData s
         = Some (Some (DataConnection.peer B))).
Proof.
  intros Hs%reachable_wf Hp HB r peers leave. subst r peers leave.
  cbn [handle]. rewrite removeConnection_closed_eq. cbn zeta.
  set (s' := with_connections (set_delete B (connections s)) s).
  assert (Hs' : NoDup (set_delete B (connections s)))
    by by apply set_delete_NoDup.
  rewrite send_eq. cbn [state_of effects_of fst snd].
  change (peer s') with (peer s). rewrite Hp.
  change (peer_id k s') with (peer_id k s).
  change (connections s') with (set_delete B (connections s)).
  split_and!.
  - intros c. apply elem_of_set_delete.
  - done.
  - intros c Hc HcB. rewrite sent_to_app, (sent_to_sends _ _ _ Hs'). cbn.
    rewrite decide_True; [done|]. by apply elem_of_set_delete.
  - rewrite sent_to_app, (sent_to_sends _ _ _ Hs'). cbn.
    rewrite decide_False; [done|]. rewrite elem_of_set_delete.
    by intros [_ ?].
  - by rewrite connectedPeers_eq.
  - rewrite uuids_connectedPeers.
    change (getPeerData s') with (getPeerData s).
    change (connections s') with (set_delete B (connections s)).
    rewrite elem_of_app, list_elem_of_fmap. split.
    + intros [(c & [= Hc] & Hin%elem_of_set_delete)|Hhost].
      * left. exists c. by destruct Hin.
      * right. destruct (getPeerData s) as [pd|]; cbn in *.
        -- apply list_elem_of_singleton in Hhost. by rewrite Hhost.
        -- by apply elem_of_nil in Hhost.
    + intros [(c & Hc & Hne & Heq)|Hhost].
      * left. exists c. split; [cbn; by rewrite Heq|].
        by apply elem_of_set_delete.
      * right. destruct (getPeerData s) as [pd|]; cbn in *; [|done].
        injection Hhost as ->. left.
Qed.

Lemma leave_broadcast_witness :
  (reachable two_clients ∧ peer two_clients = Some 0%nat
   ∧ bob ∈ connections two_clients)
  ∧ sent_to alice (effects_of (handle (ConnClose bob) two_clients))
    = [Message.mk "leave"
         (Roster (peerDataOf bob)
            [peerDataOf alice; PeerData.mk (Some "host-id") host_md])
         (Some "host-id")].
Proof.
  assert (H : reachable two_clients) by (by eexists _, _).
  assert (Hb : bob ∈ connections two_clients).
  { apply list_elem_of_In. vm_compute. tauto. }
  split; [done|].
  destruct (leave_broadcast two_clients bob 0%nat H eq_refl Hb)
    as (_ & _ & Hsent & _).
  apply Hsent; [|done]. apply list_elem_of_In. vm_compute. tauto.
Defined.

(** *** Connecting *)

(** The events that settle the promise of [connect] call [k]: the [open]
    and the [error] of its peer. *)
Definition settles (k : nat) (e : Event) : bool :=
  match e with
  | PeerOpen k' | PeerError k' _ _ => bool_decide (k' = k)
  | _ => false
  end.

(** PeerJS disconnects the peer of call [k] from the server. *)
Definition cuts (k : nat) (e : Event) : bool :=
  match e with
  | PeerDisconnected k' _ => bool_decide (k' = k)
  | _ => false
  end.

(** Neither a [connect] call nor the [open] of a peer. *)
Definition quiet (e : Event) : bool :=
  match e with
  | CallConnect _ _ | PeerOpen _ => false
  | _ => true
  end.

(** Call [k] is pending: its peer is not the stored one, its [open] and
    [error] listeners are attached and its promise is not settled; with
    [online], the peer is connected to the server. *)
Definition awaiting (k : nat) (online : bool) (s : t) : Prop :=
  peer s ≠ Some k
  ∧ ∃ a, attempts s !! k = Some a ∧ once_open a = true
         ∧ once_error a = true ∧ promise a = Pending
         ∧ (online = true → is_Some (Peer.id (a_peer a))).

(** What the events before the settlement may do to the attempt. *)
Definition harmless (online : bool) (f : Attempt → Attempt) : Prop :=
  ∀ a, once_open (f a) = once_open a ∧ once_error (f a) = once_error a
       ∧ promise (f a) = promise a
       ∧ (online = true → Peer.id (a_peer (f a)) = Peer.id (a_peer a)).

Lemma awaiting_step f k online s s' :
  harmless online f →
  peer s' ≠ Some k →
  attempts s' !! k = f <$> attempts s !! k →
  awaiting k online s → awaiting k online s'.
Proof.
  intros Hf Hp Hl (_ & a & Ha & Ho & He & Hq & Hid).
  split; [done|]. exists (f a). rewrite Hl, Ha.
  destruct (Hf a) as (-> & -> & -> & Hi). split_and!; [done..|].
  intros Hon. rewrite (Hi Hon). by apply Hid.
Qed.

Lemma harmless_same online : harmless online (λ a, a).
Proof. by intros a. Qed.

Lemma awaiting_same k online s s' :
  peer s' ≠ Some k →
  attempts s' !! k = attempts s !! k →
  awaiting k online s → awaiting k online s'.
Proof.
  intros Hp Hl. apply (awaiting_step (λ a, a)); [apply harmless_same|done|].
  rewrite Hl. by destruct (attempts s !! k).
Qed.

Lemma torn_down_lookup k s :
  peer s ≠ Some k → attempts (torn_down s) !! k = attempts s !! k.
Proof.
  intros Hp. unfold torn_down. cbn.
  destruct (peer s) as [k'|]; [|done].
  apply list_lookup_alter_ne. congruence.
Qed.

Lemma awaiting_torn_down k online s :
  awaiting k online s → awaiting k online (torn_down s).
Proof.
  intros H. apply (awaiting_same k online s); [done| |done].
  apply torn_down_lookup, H.
Qed.

Lemma awaiting_alter f k' k online s :
  k' ≠ k → awaiting k online s →
  awaiting k online (with_attempts (alter f k' (attempts s)) s).
Proof.
  intros Hk H. apply (awaiting_same k online s); [apply H| |done].
  by apply list_lookup_alter_ne.
Qed.

Lemma awaiting_lt k online s :
  awaiting k online s → (k < length (attempts s))%nat.
Proof. intros (_ & a & Ha & _). by apply lookup_lt_Some in Ha. Qed.

Lemma length_torn_down s :
  length (attempts (torn_down s)) = length (attempts s).
Proof.
  unfold torn_down. cbn. destruct (peer s); by rewrite ?length_alter.
Qed.

Lemma handle_awaiting k online e s :
  settles k e = false → (online = true → cuts k e = false) →
  awaiting k online s → awaiting k online (state_of (handle e s)).
Proof.
  intros Hset Hcut Hs. pose proof Hs as [Hp _].
  destruct e; cbn [handle settles cuts] in *.
  - rewrite connect_eq. cbn [state_of fst snd].
    apply (awaiting_same k online s); [done| |done].
    cbn [attempts with_attempts]. rewrite lookup_app_l.
    + by rewrite (torn_down_lookup k (with_metadata _ s)).
    + rewrite length_torn_down. by eapply awaiting_lt.
  - rewrite disconnect_state. by apply awaiting_torn_down.
  - by rewrite send_eq.
  - by apply (awaiting_same k online s).
  - apply bool_decide_eq_false in Hset.
    rewrite peer_open_eq. destruct (attempts s !! k0) as [a|]; [|done].
    destruct (Peer.id (a_peer a)); [|done].
    destruct (once_open a); [|done]. cbn [state_of fst snd].
    apply (awaiting_same k online s); [cbn; congruence| |done].
    cbn. by rewrite !list_lookup_alter_ne.
  - rewrite peer_disconnects_eq.
    destruct (decide (k0 = k)) as [->|Hne].
    + destruct online.
      { specialize (Hcut eq_refl). by apply bool_decide_eq_false in Hcut. }
      destruct (armed k s).
      * rewrite disconnect_state.
        apply (awaiting_step (fired_disconnected ∘ lost) k false s);
          [done|done| |done].
        rewrite torn_down_lookup by done. cbn.
        apply list_lookup_alter_eq.
      * apply (awaiting_step lost k false s); [done|done| |done].
        cbn. apply list_lookup_alter_eq.
    + destruct (armed k0 s).
      * rewrite disconnect_state.
        by apply awaiting_torn_down, awaiting_alter.
      * by apply awaiting_alter.
  - apply bool_decide_eq_false in Hset.
    rewrite peer_error_eq. destruct (attempts s !! k0) as [a|]; [|done].
    destruct (once_error a); [|done]. cbn [state_of fst snd].
    apply awaiting_alter; [done|].
    by apply awaiting_torn_down, awaiting_alter.
  - rewrite bind_eq. cbn [this].
    destruct (default false _); [|done]. rewrite peer_connection_eq.
    destruct (default true _); [done|]. by apply (awaiting_same k online s).
  - rewrite addConnection_open_eq. by apply (awaiting_same k online s).
  - by rewrite handleMessage_eq.
  - rewrite removeConnection_closed_eq. by apply (awaiting_same k online s).
  - rewrite bind_eq. cbn [tell]. rewrite removeConnection_eq.
    by apply (awaiting_same k online s).
Qed.

Lemma run_awaiting k online events s :
  (∀ e, e ∈ events → settles k e = false) →
  (online = true → ∀ e, e ∈ events → cuts k e = false) →
  awaiting k online s → awaiting k online (state_of (run events s)).
Proof.
  revert s. induction events as [|e events IH]; intros s Hset Hcut Hs; [done|].
  rewrite state_run_cons. apply IH.
  - intros e' He'. apply Hset. by right.
  - intros Hon e' He'. apply Hcut; [done|by right].
  - apply handle_awaiting;
      [apply Hset; left|intros Hon; apply Hcut; [done|left]|done].
Qed.

Lemma connect_awaiting md closes s :
  awaiting (length (attempts s)) true (state_of (connect md closes s)).
Proof.
  rewrite connect_eq. cbn [state_of fst snd]. split; [done|].
  exists (fresh (id s)). cbn [attempts with_attempts].
  split_and!; [|done..|by eexists].
  rewrite lookup_app_r by (by rewrite length_torn_down).
  rewrite length_torn_down. cbn. by rewrite Nat.sub_diag.
Qed.

Lemma awaiting_offline k online s : awaiting k online s → awaiting k false s.
Proof.
  intros (Hp & a & Ha & Ho & He & Hq & _). split; [done|].
  exists a. by split_and!.
Qed.

(** A settled promise keeps its value. *)
Definition settled_in (s s' : t) : Prop :=
  ∀ k q, q ≠ Pending → promise_of k s = Some q → promise_of k s' = Some q.

Definition keeps (f : Attempt → Attempt) : Prop :=
  ∀ a, promise a ≠ Pending → promise (f a) = promise a.

Lemma settled_in_refl s : settled_in s s.
Proof. by intros k q. Qed.

Lemma settled_in_trans s1 s2 s3 :
  settled_in s1 s2 → settled_in s2 s3 → settled_in s1 s3.
Proof. intros H12 H23 k q Hq H. by apply H23, H12. Qed.

Lemma settled_in_same s s' : attempts s' = attempts s → settled_in s s'.
Proof. intros H k q _. unfold promise_of. by rewrite H. Qed.

Lemma settled_in_alter f k' s :
  keeps f → settled_in s (with_attempts (alter f k' (attempts s)) s).
Proof.
  intros Hf k q Hq. unfold promise_of. cbn [attempts with_attempts].
  destruct (decide (k' = k)) as [->|Hne].
  - rewrite list_lookup_alter_eq.
    destruct (attempts s !! k) as [a|]; [|done]. cbn. intros [= Ha].
    rewrite Hf; [by rewrite Ha|]. by rewrite Ha.
  - by rewrite list_lookup_alter_ne.
Qed.

Lemma settled_in_torn_down s : settled_in s (torn_down s).
Proof.
  unfold torn_down. destruct (peer s) as [k|].
  - eapply settled_in_trans;
      [apply (settled_in_alter retire k)|by apply settled_in_same].
    intros a _. unfold retire. by destruct (Peer.destroyed _).
  - by apply settled_in_same.
Qed.

Lemma keeps_settle q : keeps (settle q).
Proof. intros a Ha. cbn. by destruct (promise a). Qed.

Lemma handle_settled e s : settled_in s (state_of (handle e s)).
Proof.
  destruct e; cbn [handle].
  - rewrite connect_eq. cbn [state_of fst snd].
    eapply settled_in_trans; [apply settled_in_torn_down|].
    intros k q _. unfold promise_of. cbn.
    destruct (_ !! k) as [a|] eqn:Ha; [|done].
    by rewrite (lookup_app_l_Some _ _ _ _ Ha).
  - rewrite disconnect_state. apply settled_in_torn_down.
  - rewrite send_eq. apply settled_in_refl.
  - by apply settled_in_same.
  - rewrite peer_open_eq. destruct (attempts s !! k) as [a|];
      [|apply settled_in_refl].
    destruct (Peer.id (a_peer a)); [|apply settled_in_refl].
    destruct (once_open a); [|apply settled_in_refl]. cbn [state_of fst snd].
    eapply settled_in_trans; [apply (settled_in_alter fired_open k); by intros ?|].
    eapply settled_in_trans; [|apply settled_in_alter, keeps_settle].
    by apply settled_in_same.
  - rewrite peer_disconnects_eq. destruct (armed k s).
    + rewrite disconnect_state.
      eapply settled_in_trans; [|apply settled_in_torn_down].
      apply settled_in_alter. by intros ?.
    + apply settled_in_alter. by intros ?.
  - rewrite peer_error_eq. destruct (attempts s !! k) as [a|];
      [|apply settled_in_refl].
    destruct (once_error a); [|apply settled_in_refl]. cbn [state_of fst snd].
    eapply settled_in_trans; [apply (settled_in_alter fired_error k); by intros ?|].
    eapply settled_in_trans; [apply settled_in_torn_down|].
    apply settled_in_alter, keeps_settle.
  - rewrite bind_eq. cbn [this].
    destruct (default false _); [|apply settled_in_refl].
    rewrite peer_connection_eq.
    destruct (default true _); [apply settled_in_refl|].
    by apply settled_in_same.
  - rewrite addConnection_open_eq. by apply settled_in_same.
  - rewrite handleMessage_eq. apply settled_in_refl.
  - rewrite removeConnection_closed_eq. by apply settled_in_same.
  - rewrite bind_eq. cbn [tell]. rewrite removeConnection_eq.
    by apply settled_in_same.
Qed.

Lemma run_settled events s : settled_in s (state_of (run events s)).
Proof.
  revert s. induction events as [|e events IH]; intros s;
    [apply settled_in_refl|].
  rewrite state_run_cons.
  eapply settled_in_trans; [apply handle_settled|apply IH].
Qed.

(** The status notifications of the events that are neither a [connect]
    call nor an [open]. *)
Lemma handle_quiet e s :
  quiet e = true →
  Forall (λ st, st = Disconnected) (statuses (effects_of (handle e s))).
Proof.
  assert (Hd : ∀ closes s',
    Forall (λ st, st = Disconnected)
      (statuses (effects_of (disconnect closes s')))).
  { intros closes s'. rewrite disconnect_statuses.
    destruct (nests s'); by repeat constructor. }
  assert (Hc : ∀ c s', statuses (effects_of (removeConnection_closed c s')) = []).
  { intros c s'. rewrite removeConnection_closed_eq. cbn zeta.
    cbn [effects_of snd]. by rewrite statuses_app, statuses_send. }
  assert (Hcc : ∀ c s', statuses (effects_of (connection_closes c s')) = []).
  { intros c s'. rewrite connection_closes_eq. by destruct (decide _). }
  intros Hq. destruct e; cbn [handle quiet] in *.
  - discriminate.
  - apply Hd.
  - rewrite statuses_send. constructor.
  - constructor.
  - discriminate.
  - rewrite peer_disconnects_eq. destruct (armed k s); [apply Hd|constructor].
  - rewrite peer_error_eq. destruct (attempts s !! k) as [a|]; [|constructor].
    destruct (once_error a); [apply Hd|constructor].
  - rewrite bind_eq. cbn [this].
    destruct (default false _); [|constructor]. rewrite peer_connection_eq.
    destruct (default true _); [constructor|]. cbn [effects_of snd app].
    change (statuses (Closed conn :: ?l)) with (statuses l).
    rewrite Hcc. constructor.
  - rewrite addConnection_open_eq. cbn zeta. cbn [effects_of snd].
    rewrite statuses_app, statuses_send. constructor.
  - rewrite handleMessage_eq. cbn [effects_of snd].
    change (statuses (Dispatched connection data :: ?l)) with (statuses l).
    rewrite statuses_sends. constructor.
  - rewrite Hc. constructor.
  - rewrite bind_eq. cbn [tell]. rewrite removeConnection_eq. cbn zeta.
    cbn [effects_of snd app].
    change (statuses (Logged error :: Closed connection :: ?l))
      with (statuses l).
    rewrite statuses_app, Hcc, removeConnection_rest_eq. cbn zeta.
    cbn [effects_of snd]. rewrite statuses_app, statuses_send. constructor.
Qed.

Lemma run_quiet events s :
  (∀ e, e ∈ events → quiet e = true) →
  Forall (λ st, st = Disconnected) (statuses (effects_of (run events s))).
Proof.
  revert s. induction events as [|e events IH]; intros s Hq; [constructor|].
  rewrite effects_run_cons, statuses_app. apply Forall_app. split.
  - apply handle_quiet, Hq. left.
  - apply IH. intros e' He'. apply Hq. by right.
Qed.

Lemma nests_alter f k s :
  peer s ≠ Some k → nests (with_attempts (alter f k (attempts s)) s) = nests s.
Proof.
  intros Hp. unfold nests, live, armed. cbn [peer attempts with_attempts].
  destruct (peer s) as [k'|]; [|done].
  rewrite list_lookup_alter_ne; [done|congruence].
Qed.

(** The status notifications of one [disconnect()]: the second
    [Disconnected] is that of the call nested in [peer.destroy()]. *)
Definition teardown_notifications (s : t) : list NetworkStatus :=
  if nests s then [Disconnected; Disconnected] else [Disconnected].

Lemma peer_error_awaiting k online error closes s :
  awaiting k online s →
  let r := peer_error k error closes s in
  promise_of k (state_of r) = Some (Rejected error)
  ∧ peer (state_of r) = None
  ∧ statuses (effects_of r) = teardown_notifications s.
Proof.
  intros (Hp & a & Ha & Ho & He & Hq & _) r. subst r.
  rewrite peer_error_eq, Ha, He. cbn [state_of effects_of fst snd].
  split_and!.
  - unfold promise_of. cbn [attempts with_attempts].
    rewrite list_lookup_alter_eq, torn_down_lookup by done. cbn.
    rewrite list_lookup_alter_eq, Ha. cbn. by rewrite Hq.
  - done.
  - rewrite disconnect_statuses. unfold teardown_notifications.
    by rewrite nests_alter.
Qed.

Lemma peer_open_awaiting k s :
  awaiting k true s →
  let r := peer_open k s in
  promise_of k (state_of r) = Some Fulfilled
  ∧ peer (state_of r) = Some k
  ∧ statuses (effects_of r) = [Connected].
Proof.
  intros (Hp & a & Ha & Ho & He & Hq & Hid) r. subst r.
  destruct (Hid eq_refl) as [i Hi].
  rewrite peer_open_eq, Ha, Hi, Ho. cbn [state_of effects_of fst snd].
  split_and!; [|done..].
  unfold promise_of. cbn [attempts with_attempts with_peer].
  rewrite !list_lookup_alter_eq, Ha. cbn. by rewrite Hq.
Qed.

(** C6. Call [k] of [connect] first emits the notifications of
    [disconnect()] ([Disconnected], twice when the previous peer was still
    connected to the server) and then [Connecting]. Whatever happens before
    its peer opens or errors ([events]: anything but these two, other
    [connect] calls and their peers included) leaves its promise pending.
    If the peer then errors, the promise is rejected with that error,
    [this.peer] is unset and the last notifications are the [Disconnected]
    of the listener's [disconnect()]. If the peer, still connected to the
    server, opens, the promise is fulfilled, [this.peer] is that peer and
    the last notification is [Connected]. In between, the notifications are
    all [Disconnected] when no other [connect] call or [open] occurs.
    Once settled the promise keeps its value: the error is not surfaced a
    second time. *)
Theorem connect_outcome (s : t) (md : Metadata.t)
    (closes : list DataConnection.t) (events : list Event) :
  let k := length (attempts s) in
  let s1 := state_of (connect md closes s) in
  let s2 := state_of (run events s1) in
  let mid := statuses (effects_of (run events s1)) in
  (∀ e, e ∈ events → settles k e = false) →
  statuses (effects_of (connect md closes s))
  = teardown_notifications s ++ [Connecting]
  ∧ promise_of k s2 = Some Pending
  ∧ ((∀ e, e ∈ events → quiet e = true) →
     Forall (λ st, st = Disconnected) mid)
  ∧ (∀ error closes',
       let r :=
         run (CallConnect md closes :: events
                ++ [PeerError k error closes']) s in
       promise_of k (state_of r) = Some (Rejected error)
       ∧ peer (state_of r) = None
       ∧ statuses (effects_of r)
         = teardown_notifications s ++ [Connecting] ++ mid
           ++ teardown_notifications s2
       ∧ last (statuses (effects_of r)) = Some Disconnected
       ∧ ∀ later,
           promise_of k (state_of (run later (state_of r)))
           = Some (Rejected error))
  ∧ ((∀ e, e ∈ events → cuts k e = false) →
     let r := run (CallConnect md closes :: events ++ [PeerOpen k]) s in
     promise_of k (state_of r) = Some Fulfilled
     ∧ peer (state_of r) = Some k
     ∧ statuses (effects_of r)
       = teardown_notifications s ++ [Connecting] ++ mid ++ [Connected]
     ∧ ∀ later,
         promise_of k (state_of (run later (state_of r)))
         = Some Fulfilled).
Proof.
  intros k s1 s2 mid Hev.
  assert (Hst : statuses (effects_of (connect md closes s))
                = teardown_notifications s ++ [Connecting]).
  { rewrite connect_eq. cbn [effects_of snd].
    rewrite statuses_app, disconnect_statuses. done. }
  pose proof (connect_awaiting md closes s) as Hc. fold k s1 in Hc.
  assert (Hoff : awaiting k false s2).
  { apply run_awaiting; [done|done|]. by eapply awaiting_offline. }
  split_and!.
  - done.
  - destruct Hoff as (_ & a & Ha & _ & _ & Hq & _).
    unfold promise_of. by rewrite Ha, <-Hq.
  - apply run_quiet.
  - intros error closes' r. subst r.
    destruct (peer_error_awaiting k false error closes' s2 Hoff)
      as (Hpr & Hpeer & Hlast).
    rewrite state_run_cons, effects_run_cons, state_run_app, effects_run_app.
    rewrite state_run_one, effects_run_one.
    cbn [handle]. fold s1 s2.
    assert (Hall : statuses
              (effects_of (connect md closes s)
               ++ effects_of (run events s1)
               ++ effects_of (peer_error k error closes' s2))
            = teardown_notifications s ++ [Connecting] ++ mid
              ++ teardown_notifications s2).
    { rewrite !statuses_app, Hst, Hlast. by rewrite <-(assoc_L (++)). }
    split_and!; [done|done|done| |].
    + rewrite Hall, !(assoc_L (++)). unfold teardown_notifications at 2.
      destruct (nests s2).
      * change [Disconnected; Disconnected]
          with ([Disconnected] ++ [Disconnected]).
        by rewrite (assoc_L (++)), last_snoc.
      * by rewrite last_snoc.
    + intros later. by apply run_settled.
  - intros Hcut r. subst r.
    assert (Hon : awaiting k true s2) by by apply run_awaiting.
    destruct (peer_open_awaiting k s2 Hon) as (Hpr & Hpeer & Hlast).
    rewrite state_run_cons, effects_run_cons, state_run_app, effects_run_app.
    rewrite state_run_one, effects_run_one.
    cbn [handle]. fold s1 s2. split_and!; [done|done| |].
    + rewrite !statuses_app, Hst, Hlast. by rewrite <-(assoc_L (++)).
    + intros later. by apply run_settled.
Qed.

Lemma connect_outcome_witness :
  (∀ e, e ∈ [CallConnect host_md []; PeerOpen 1; ConnOpen alice] →
     settles 0 e = false)
  ∧ promise_of 0
      (state_of
         (run (CallConnect host_md []
                 :: [CallConnect host_md []; PeerOpen 1; ConnOpen alice]
                 ++ [PeerError 0 "unavailable-id" [alice]])
            (new "host-id")))
    = Some (Rejected "unavailable-id")
  ∧ promise_of 0
      (state_of
         (run (CallConnect host_md []
                 :: [CallConnect host_md []; PeerOpen 1; ConnOpen alice]
                 ++ [PeerOpen 0])
            (new "host-id")))
    = Some Fulfilled.
Proof.
  assert (H : ∀ e,
    e ∈ [CallConnect host_md []; PeerOpen 1; ConnOpen alice] →
    settles 0 e = false).
  { intros e He. apply list_elem_of_In in He. cbn in He.
    destruct He as [<-|[<-|[<-|[]]]]; reflexivity. }
  assert (H' : ∀ e,
    e ∈ [CallConnect host_md []; PeerOpen 1; ConnOpen alice] →
    cuts 0 e = false).
  { intros e He. apply list_elem_of_In in He. cbn in He.
    destruct He as [<-|[<-|[<-|[]]]]; reflexivity. }
  split; [exact H|].
  destruct (connect_outcome (new "host-id") host_md [] _ H)
    as (_ & _ & _ & Herr & Hopen).
  split.
  - exact (proj1 (Herr "unavailable-id" [alice])).
  - exact (proj1 (Hopen H')).
Defined.

(** *** What goes on the wire, and what the rosters are made of *)

(** Decomposes membership in an explicit list of effects. *)
Ltac effect_cases H :=
  repeat (apply elem_of_cons in H as [H|H]; [try discriminate H|]);
  try (by apply elem_of_nil in H).



Section provenance.
Variable L : list DataConnection.t.
Variable mds : list Metadata.t.
Variable ids : list (option string).
Variable chs : list string.
Hypothesis ids_null : None ∈ ids.

















End provenance.





(** *** Further properties of the Host *)

(** X1. [send(channel, data)] on the Host leaves the object as it is. When
    no peer is stored it transmits nothing; when one is, every connection of
    the set, none excluded, receives exactly one envelope
    [{channel, data, peer: this.peer.id}], and nothing else is done. *)
Theorem send_reaches_all (s : t) (channel : string) (data : Payload) :
  reachable s →
  let r := send channel data s in
  state_of r = s
  ∧ (peer s = None → effects_of r = [])
  ∧ (∀ k, peer s = Some k →
       let envelope := Message.mk channel data (peer_id k s) in
       (∀ c, c ∈ connections s → sent_to c (effects_of r) = [envelope])
       ∧ (∀ c, c ∉ connections s → sent_to c (effects_of r) = [])
       ∧ effects_of r = (λ c, Sent c envelope) <$> connections s).
Proof.
  intros Hs%reachable_wf r. subst r. rewrite send_eq.
  cbn [state_of effects_of fst snd]. split_and!; [done| |].
  - by intros ->.
  - intros k ->. split_and!; [| |done].
    + intros c Hc. rewrite (sent_to_sends _ _ _ Hs). by rewrite decide_True.
    + intros c Hc. rewrite (sent_to_sends _ _ _ Hs). by rewrite decide_False.
Qed.

Lemma send_reaches_all_witness :
  reachable two_clients
  ∧ sent_to alice (effects_of (send "sync:time" (Opaque "0.5") two_clients))
    = [Message.mk "sync:time" (Opaque "0.5") (Some "host-id")].
Proof.
  assert (H : reachable two_clients) by (by eexists _, _).
  split; [exact H|].
  destruct (send_reaches_all two_clients "sync:time" (Opaque "0.5") H)
    as (_ & _ & Hp).
  destruct (Hp 0%nat eq_refl) as (Hin & _).
  apply Hin. apply list_elem_of_In. vm_compute. tauto.
Defined.

(** X2. [disconnect()] forgets the peer and every connection, whatever the
    order in which PeerJS closes the connections: the roster is empty
    afterwards and a later [send] transmits nothing. Its last effect is the
    [Disconnected] notification, emitted twice when [peer.destroy()]
    disconnects the peer from the server, the [disconnected] listener
    calling [disconnect()] again. What comes before is the teardown:
    [destroy] on the stored peer and, for connections of the set, their
    closing, a local [peers] (with the Host's uuid [null]) and [leave], and
    [leave] envelopes with [peer: null]; nothing is sent on another
    channel. With no peer stored the notification is the only effect, so
    calling [disconnect()] again changes nothing and emits it once more. *)
Theorem disconnect_resets (s : t) (closes : list DataConnection.t) :
  let r := disconnect closes s in
  peer (state_of r) = None ∧ connections (state_of r) = []
  ∧ getPeerData (state_of r) = None ∧ connectedPeers (state_of r) = []
  ∧ statuses (effects_of r)
    = (if nests s then [Disconnected; Disconnected] else [Disconnected])
  ∧ (∃ out,
       effects_of r
       = out ++ (if nests s then [Emitted (EvStatus Disconnected)] else [])
             ++ [Emitted (EvStatus Disconnected)]
       ∧ Forall (teardown_effect (connections s) (metadata s) (peer s)) out)
  ∧ (peer s = None → effects_of r = [Emitted (EvStatus Disconnected)])
  ∧ (∀ channel data, effects_of (send channel data (state_of r)) = [])
  ∧ ∀ closes',
      disconnect closes' (state_of r)
      = ((), state_of r, [Emitted (EvStatus Disconnected)]).
Proof.
  intros r. subst r. rewrite disconnect_state. split_and!.
  - done.
  - done.
  - unfold getPeerData. cbn. by destruct (metadata _).
  - unfold connectedPeers, getPeerData. cbn. by destruct (metadata _).
  - apply disconnect_statuses.
  - apply disconnect_effects.
  - intros Hp. unfold disconnect. rewrite disconnect_with_eq. by rewrite Hp.
  - intros channel data. by rewrite send_eq.
  - intros closes'. unfold disconnect. rewrite disconnect_with_eq. done.
Qed.

(** The teardown of a Host with Alice and Bob connected, PeerJS closing
    Alice's connection first: Bob is sent the [leave] of Alice, with
    [peer: null]. *)
Example disconnect_trace :
  effects_of (disconnect [alice; bob] two_clients)
  = [Destroyed 0; Destroyed 0;
     Closed alice; ListenersRemoved alice;
     Emitted (EvPeers [peerDataOf bob; PeerData.mk None host_md]);
     Emitted (EvLeave "Alice");
     Sent bob
       (Message.mk "leave"
          (Roster (peerDataOf alice)
             [peerDataOf bob; PeerData.mk None host_md]) None);
     Closed bob; ListenersRemoved bob;
     Emitted (EvPeers [PeerData.mk None host_md]);
     Emitted (EvLeave "Bob");
     Emitted (EvStatus Disconnected); Emitted (EvStatus Disconnected)].
Proof. reflexivity. Qed.

(** Between two events, an attempt whose peer still has an id has the id
    of the object, is not destroyed, and has its [disconnected] listener. *)
Definition sound_attempt (i : string) (a : Attempt) : Prop :=
  Peer.id (a_peer a) = None
  ∨ (Peer.id (a_peer a) = Some i ∧ once_disconnected a = true
     ∧ Peer.destroyed (a_peer a) = false).

Definition sound_attempts (s : t) : Prop :=
  Forall (sound_attempt (id s)) (attempts s)
  ∧ (attempts s ≠ [] → is_Some (metadata s)).

(** The peer stored by the object is connected to the server under the
    id of the object. *)
Definition own_peer (s : t) : Prop :=
  sound_attempts s ∧ ∀ k, peer s = Some k → peer_id k s = Some (id s).

Lemma alter_nil {A} (f : A → A) k (l : list A) : alter f k l = [] ↔ l = [].
Proof.
  split; [|by intros ->].
  intros H. apply (f_equal length) in H. rewrite length_alter in H.
  by destruct l.
Qed.

Lemma sound_attempts_alter f k s :
  (∀ a, sound_attempt (id s) a → sound_attempt (id s) (f a)) →
  sound_attempts s →
  sound_attempts (with_attempts (alter f k (attempts s)) s).
Proof.
  intros Hf [Ha Hmd]. split; cbn.
  - apply Forall_alter; [done|]. intros a _. apply Hf.
  - rewrite alter_nil. exact Hmd.
Qed.

Lemma sound_retire i a : sound_attempt i a → sound_attempt i (retire a).
Proof.
  intros [H|(_ & _ & H)]; unfold retire.
  - left. by destruct (Peer.destroyed (a_peer a)).
  - left. by rewrite H.
Qed.

Lemma own_peer_torn_down s : sound_attempts s → own_peer (torn_down s).
Proof.
  intros Hs. split; [|done]. unfold torn_down.
  destruct (peer s) as [k|]; [|by destruct Hs].
  pose proof (sound_attempts_alter retire k s (sound_retire (id s)) Hs)
    as [? ?].
  by split.
Qed.

Lemma own_peer_alter f k s :
  (∀ a, sound_attempt (id s) a → sound_attempt (id s) (f a)) →
  (∀ a, Peer.id (a_peer (f a)) = Peer.id (a_peer a)) →
  own_peer s → own_peer (with_attempts (alter f k (attempts s)) s).
Proof.
  intros Hf Hid [Hs Hp]. split; [by apply sound_attempts_alter|].
  intros k' Hk'. change (peer s = Some k') in Hk'.
  change (peer_id k' (with_attempts (alter f k (attempts s)) s)
          = Some (id s)).
  rewrite <-(Hp k' Hk'). unfold peer_id. cbn.
  destruct (decide (k = k')) as [->|Hne].
  - rewrite list_lookup_alter_eq. destruct (attempts s !! k'); cbn; [|done].
    apply Hid.
  - by rewrite list_lookup_alter_ne.
Qed.

Lemma own_peer_connections l s : own_peer s → own_peer (with_connections l s).
Proof. done. Qed.

Lemma own_peer_armed k s :
  own_peer s → peer s = Some k → armed k s = true.
Proof.
  intros [[Ha _] Hp] Hk. specialize (Hp k Hk). unfold peer_id in Hp.
  unfold armed. destruct (attempts s !! k) as [a|] eqn:Hl; [|done].
  cbn in Hp. destruct (Forall_lookup_1 _ _ _ _ Ha Hl) as [H|(_ & -> & _)].
  - by rewrite H in Hp.
  - rewrite Hp. done.
Qed.

Lemma handle_own_peer e s : own_peer s → own_peer (state_of (handle e s)).
Proof.
  intros Hs. pose proof Hs as [[Ha Hmd] Hp]. destruct e; cbn [handle].
  - rewrite connect_eq. cbn zeta. cbn [state_of fst snd].
    destruct (own_peer_torn_down (with_metadata (Some metadata0) s))
      as [[Ha' _] _]; [by split|].
    split; [|done]. split; cbn.
    + apply Forall_app. split; [exact Ha'|].
      apply Forall_singleton. by right.
    + by eexists.
  - rewrite disconnect_state. by apply own_peer_torn_down.
  - by rewrite send_eq.
  - done.
  - rewrite peer_open_eq. destruct (attempts s !! k) as [a|] eqn:Hk; [|done].
    destruct (Peer.id (a_peer a)) as [i|] eqn:Hi; [|done].
    destruct (once_open a); [|done]. cbn zeta. cbn [state_of fst snd].
    apply own_peer_alter; [by intros ? [?|?]; [left|right]|done|].
    split; [by apply (sound_attempts_alter fired_open); [intros ? [?|?]; [left|right]|]|].
    intros k' [= <-]. unfold peer_id. cbn.
    rewrite list_lookup_alter_eq, Hk. cbn. rewrite Hi.
    destruct (Forall_lookup_1 _ _ _ _ Ha Hk) as [H|(H & _)]; congruence.
  - rewrite peer_disconnects_eq. destruct (armed k s) eqn:Harmed.
    + rewrite disconnect_state. apply own_peer_torn_down.
      apply sound_attempts_alter; [by left|done].
    + split; [apply sound_attempts_alter; [by left|done]|].
      intros k' Hk'. cbn in Hk'.
      destruct (decide (k = k')) as [->|Hne].
      * by rewrite (own_peer_armed k' s Hs Hk') in Harmed.
      * change (peer_id k' (with_attempts (alter lost k (attempts s)) s)
                = Some (id s)).
        rewrite <-(Hp k' Hk'). unfold peer_id. cbn.
        by rewrite list_lookup_alter_ne.
  - rewrite peer_error_eq. destruct (attempts s !! k) as [a|]; [|done].
    destruct (once_error a); [|done]. cbn zeta. cbn [state_of fst snd].
    apply own_peer_alter; [by intros ? [?|?]; [left|right]|done|].
    apply own_peer_torn_down.
    by apply sound_attempts_alter; [intros ? [?|?]; [left|right]|].
  - rewrite bind_eq. cbn [this].
    destruct (default false _); [|done]. rewrite peer_connection_eq.
    by destruct (default true _).
  - by rewrite addConnection_open_eq.
  - by rewrite handleMessage_eq.
  - by rewrite removeConnection_closed_eq.
  - rewrite bind_eq. cbn [tell]. by rewrite removeConnection_eq.
Qed.

Lemma run_own_peer events s : own_peer s → own_peer (state_of (run events s)).
Proof.
  revert s. induction events as [|e events IH]; intros s Hs; [done|].
  rewrite state_run_cons. by apply IH, handle_own_peer.
Qed.

(** X3. Between two events the identity the Host reports is its own: while
    no peer is stored, [getPeerData()] is undefined and the roster is the
    list of the connections; once one is, its id is the id given to the
    constructor, the metadata is set, [getPeerData()] is
    [{uuid: id, metadata}] and the roster is the connections followed by
    that entry. (Inside [disconnect()] the id of the peer is [null]; by the
    time the call returns the peer is no longer stored.) *)
Theorem host_identity (s : t) :
  reachable s →
  (peer s = None →
     getPeerData s = None
     ∧ connectedPeers s = peerDataOf <$> connections s)
  ∧ (∀ k, peer s = Some k →
       peer_id k s = Some (id s)
       ∧ ∃ md, metadata s = Some md
               ∧ getPeerData s = Some (PeerData.mk (Some (id s)) md)
               ∧ connectedPeers s
                 = (peerDataOf <$> connections s)
                   ++ [PeerData.mk (Some (id s)) md]).
Proof.
  intros (i & events & ->).
  assert (H : own_peer (state_of (run events (new i)))).
  { apply run_own_peer. split; [|done]. split; [constructor|done]. }
  set (s := state_of (run events (new i))) in *.
  destruct H as [[_ Hmd] Hp]. split.
  - intros Hnone. unfold connectedPeers, getPeerData. rewrite Hnone.
    by destruct (metadata s).
  - intros k Hsome. pose proof (Hp k Hsome) as Hid. split; [done|].
    destruct Hmd as [md Hmd].
    { unfold peer_id in Hid. by destruct (attempts s). }
    exists md. unfold connectedPeers, getPeerData.
    by rewrite Hmd, Hsome, Hid.
Qed.

Lemma host_identity_witness :
  reachable two_clients
  ∧ getPeerData two_clients
    = Some (PeerData.mk (Some (id two_clients)) host_md).
Proof.
  assert (H : reachable two_clients) by (by eexists _, _).
  split; [exact H|].
  destruct (host_identity two_clients H) as [_ Hp].
  destruct (Hp 0%nat eq_refl) as (_ & md & Hmd & Hpd & _).
  rewrite Hpd. by injection Hmd as <-.
Defined.

(** The events in which the class calls [disconnect()]. *)
Definition tears_down (e : Event) : bool :=
  match e with
  | CallConnect _ _ | CallDisconnect _ | PeerDisconnected _ _
  | PeerError _ _ _ => true
  | _ => false
  end.

(** X4. Whatever the event, the Host sends envelopes only over connections
    of its set: one that was in the set before the event, or the one the
    event opens. Outside [disconnect()] the connection is still in the set
    when the handler returns: a connection being removed gets no [leave],
    one that never opened gets nothing. Inside [disconnect()] the
    envelopes are the [leave] of the connections PeerJS closes, with
    [peer: null]. *)
Theorem sends_only_to_members (e : Event) (s : t) (c : DataConnection.t)
    (m : Message.t) :
  Sent c m ∈ effects_of (handle e s) →
  c ∈ connections s ++ opened e
  ∧ if tears_down e
    then Message.channel m = "leave" ∧ Message.peer m = None
    else c ∈ connections (state_of (handle e s)).
Proof.
  assert (Hsend : ∀ channel data s0,
    Sent c m ∈ effects_of (send channel data s0) → c ∈ connections s0).
  { intros channel data s0. rewrite send_eq. cbn.
    destruct (peer s0); [|by intros ?%elem_of_nil].
    by intros (c' & [= -> _] & Hc)%list_elem_of_fmap. }
  assert (Hdisc : ∀ closes s0,
    Sent c m ∈ effects_of (disconnect closes s0) →
    c ∈ connections s0 ∧ Message.channel m = "leave"
    ∧ Message.peer m = None).
  { intros closes s0 H.
    destruct (disconnect_effects closes s0) as (out & Hout & HF).
    rewrite Hout, !elem_of_app in H. destruct H as [H|[H|H]].
    - rewrite Forall_forall in HF. exact (HF _ H).
    - destruct (nests s0); [|by apply elem_of_nil in H].
      by apply list_elem_of_singleton in H.
    - by apply list_elem_of_singleton in H. }
  assert (Hrest : ∀ c' s0,
    Sent c m ∈ effects_of (removeConnection_rest c' s0) →
    c ∈ set_delete c' (connections s0)).
  { intros c' s0. rewrite removeConnection_rest_eq. cbn zeta.
    cbn [effects_of snd]. intros H. effect_cases H.
    by apply Hsend in H. }
  assert (Hclosed : ∀ c' s0,
    Sent c m ∈ effects_of (removeConnection_closed c' s0) →
    c ∈ set_delete c' (connections s0)).
  { intros c' s0. rewrite removeConnection_closed_eq. cbn zeta.
    cbn [effects_of snd]. intros H. effect_cases H.
    by apply Hsend in H. }
  assert (Hcloses : ∀ c' s0,
    Sent c m ∈ effects_of (connection_closes c' s0) →
    c ∈ set_delete c' (connections s0)).
  { intros c' s0. rewrite connection_closes_eq.
    destruct (decide _); [apply Hclosed|by intros ?%elem_of_nil]. }
  assert (Hsub : ∀ c' (l : list DataConnection.t),
    c ∈ set_delete c' l → c ∈ l ++ []).
  { intros c' l [? _]%elem_of_set_delete. by rewrite app_nil_r. }
  destruct e; cbn [handle tears_down opened].
  - rewrite connect_eq. cbn zeta. cbn [effects_of snd].
    rewrite elem_of_app. intros [H|H]; [|by apply list_elem_of_singleton in H].
    apply Hdisc in H as (Hc & ? & ?). rewrite app_nil_r. by split.
  - intros (Hc & ? & ?)%Hdisc. rewrite app_nil_r. by split.
  - intros H. rewrite send_eq at 1. cbn [state_of fst snd].
    apply Hsend in H. rewrite app_nil_r. by split.
  - by intros ?%elem_of_nil.
  - rewrite peer_open_eq. destruct (attempts s !! k) as [a|];
      [|by intros ?%elem_of_nil].
    destruct (Peer.id (a_peer a)); [|by intros ?%elem_of_nil].
    destruct (once_open a); [|by intros ?%elem_of_nil].
    cbn. intros H. effect_cases H.
  - rewrite peer_disconnects_eq. destruct (armed k s);
      [|by intros ?%elem_of_nil].
    intros (Hc & ? & ?)%Hdisc. rewrite app_nil_r. by split.
  - rewrite peer_error_eq. destruct (attempts s !! k) as [a|];
      [|by intros ?%elem_of_nil].
    destruct (once_error a); [|by intros ?%elem_of_nil].
    cbn [effects_of snd]. intros (Hc & ? & ?)%Hdisc.
    rewrite app_nil_r. by split.
  - rewrite bind_eq. cbn [this].
    destruct (default false _); [|by intros ?%elem_of_nil].
    rewrite peer_connection_eq.
    destruct (default true _); [by intros ?%elem_of_nil|].
    cbn [state_of effects_of fst snd app]. intros H.
    apply elem_of_cons in H as [H|H]; [done|]. apply Hcloses in H.
    split; [by eapply Hsub|done].
  - rewrite addConnection_open_eq. cbn zeta.
    cbn [state_of effects_of fst snd]. intros H. effect_cases H.
    apply Hsend in H. split; [|done]. cbn in H.
    apply elem_of_set_add in H as [->|H]; rewrite elem_of_app;
      [right; left|by left].
  - rewrite handleMessage_eq. cbn [state_of effects_of fst snd].
    intros H. effect_cases H.
    apply list_elem_of_fmap in H as (c' & [= -> _] & Hc).
    apply elem_of_set_delete in Hc as [? _]. by rewrite app_nil_r.
  - intros H. apply Hclosed in H. split; [by eapply Hsub|].
    by rewrite removeConnection_closed_eq.
  - rewrite bind_eq. cbn [tell]. rewrite removeConnection_eq. cbn zeta.
    cbn [state_of effects_of fst snd app]. intros H.
    apply elem_of_cons in H as [H|H]; [done|].
    apply elem_of_cons in H as [H|H]; [done|].
    apply elem_of_app in H as [H|H].
    + apply Hcloses in H. split; [by eapply Hsub|done].
    + apply Hrest in H. cbn [connections with_connections] in H.
      rewrite set_delete_twice in H. split; [by eapply Hsub|done].
Qed.

Lemma sends_only_to_members_witness :
  Sent alice (Message.mk "leave"
                (Roster (peerDataOf bob)
                   [peerDataOf alice; PeerData.mk (Some "host-id") host_md])
                (Some "host-id"))
  ∈ effects_of (handle (ConnClose bob) two_clients)
  ∧ alice ∈ connections (state_of (handle (ConnClose bob) two_clients)).
Proof.
  assert (H : Sent alice (Message.mk "leave"
                (Roster (peerDataOf bob)
                   [peerDataOf alice; PeerData.mk (Some "host-id") host_md])
                (Some "host-id"))
              ∈ effects_of (handle (ConnClose bob) two_clients)).
  { apply list_elem_of_In. vm_compute. tauto. }
  split; [exact H|].
  exact (proj2 (sends_only_to_members (ConnClose bob) two_clients alice _ H)).
Defined.

(** X5. A connection that opens and then closes leaves the Host exactly
    as it was before: the set, the peer, the metadata. The roster sent in
    the [leave] envelope is the roster from before the join. This holds
    when PeerJS reports the [close] and when the class closes the
    connection itself. *)
Theorem join_then_leave (s : t) (c : DataConnection.t) :
  c ∉ connections s →
  let joined := state_of (addConnection_open c s) in
  let r := removeConnection c joined in
  let r' := handle (ConnClose c) joined in
  c ∈ connections joined
  ∧ state_of r = s
  ∧ Emitted (EvPeers (connectedPeers s)) ∈ effects_of r
  ∧ state_of r' = s
  ∧ Emitted (EvPeers (connectedPeers s)) ∈ effects_of r'.
Proof.
  intros Hc joined r r'. subst r r' joined. cbn [handle].
  rewrite addConnection_open_eq. cbn zeta. cbn [state_of fst snd].
  set (j := with_connections (set_add c (connections s)) s).
  assert (Hs : with_connections (set_delete c (connections j)) j = s).
  { subst j. cbn [connections with_connections].
    rewrite set_delete_add by done. by destruct s. }
  rewrite removeConnection_eq, removeConnection_closed_eq. cbn zeta.
  rewrite Hs, removeConnection_rest_eq. cbn zeta.
  rewrite (set_delete_absent c (connections s) Hc), with_connections_same.
  cbn [state_of effects_of fst snd].
  split_and!; [|done| |done|].
  - subst j. cbn [connections with_connections].
    rewrite set_add_fresh by done. rewrite elem_of_app. right. left.
  - right. apply elem_of_app. right. right. left.
  - right. right. left.
Qed.

Lemma join_then_leave_witness :
  (bob ∉ connections one_client)
  ∧ state_of
      (removeConnection bob (state_of (addConnection_open bob one_client)))
    = one_client.
Proof.
  assert (Hb : bob ∉ connections one_client).
  { rewrite list_elem_of_In. vm_compute. intros [[=]|[]]. }
  split; [exact Hb|].
  exact (proj1 (proj2 (join_then_leave one_client bob Hb))).
Defined.

(** X6. [removeConnection] does not look whether the connection is in the
    set. For one that is not (a second [close], or an [error] after the
    [close]) the object is unchanged, and the call still closes the
    connection, emits [peers] and [leave] locally and sends a [leave]
    envelope with the unchanged roster over every connection. *)
Theorem remove_absent_connection (s : t) (c : DataConnection.t) :
  c ∉ connections s →
  let r := removeConnection c s in
  state_of r = s
  ∧ effects_of r
    = [Closed c; ListenersRemoved c; Emitted (EvPeers (connectedPeers s));
       Emitted (EvLeave (Metadata.name (DataConnection.metadata c)))]
      ++ effects_of
           (send "leave" (Roster (peerDataOf c) (connectedPeers s)) s).
Proof.
  intros Hc r. subst r. rewrite removeConnection_eq. cbn zeta.
  rewrite connection_closes_eq, decide_False by done.
  rewrite (set_delete_absent c (connections s) Hc), with_connections_same.
  rewrite removeConnection_rest_eq. cbn zeta.
  rewrite (set_delete_absent c (connections s) Hc), with_connections_same.
  done.
Qed.

Lemma remove_absent_connection_witness :
  (carol ∉ connections two_clients)
  ∧ sent_to alice (effects_of (removeConnection carol two_clients))
    = [Message.mk "leave"
         (Roster (peerDataOf carol)
            [peerDataOf alice; peerDataOf bob;
             PeerData.mk (Some "host-id") host_md])
         (Some "host-id")].
Proof.
  assert (Hc : carol ∉ connections two_clients).
  { rewrite list_elem_of_In. vm_compute. intros [[=]|[[=]|[]]]. }
  split; [exact Hc|].
  rewrite (proj2 (remove_absent_connection two_clients carol Hc)).
  reflexivity.
Defined.

(** X9. When a connection [B] of the set errors, [removeConnection] calls
    [connection.close()] while the [close] listener is still attached:
    the listener runs [removeConnection] first, then the call goes on.
    [B] leaves the set, [peers] and [leave] are emitted twice locally and
    every remaining connection is sent the same [leave] envelope twice;
    none is sent over [B]. *)
Theorem error_leaves_twice (s : t) (B : DataConnection.t) (k : nat)
    (error : string) :
  reachable s → peer s = Some k → B ∈ connections s →
  let r := handle (ConnError B error) s in
  let s' := with_connections (set_delete B (connections s)) s in
  let peers := connectedPeers s' in
  let leave :=
    Message.mk "leave" (Roster (peerDataOf B) peers) (peer_id k s) in
  let notified :=
    [ListenersRemoved B; Emitted (EvPeers peers);
     Emitted (EvLeave (Metadata.name (DataConnection.metadata B)))]
    ++ ((λ c, Sent c leave) <$> connections s') in
  state_of r = s'
  ∧ effects_of r = [Logged error; Closed B; Closed B] ++ notified ++ notified
  ∧ (∀ c, c ∈ connections s → c ≠ B →
       sent_to c (effects_of r) = [leave; leave])
  ∧ sent_to B (effects_of r) = [].
Proof.
  intros Hs%reachable_wf Hp HB r s' peers leave notified.
  assert (Hs' : NoDup (set_delete B (connections s)))
    by by apply set_delete_NoDup.
  assert (Heff : effects_of r
                 = [Logged error; Closed B; Closed B] ++ notified ++ notified).
  { subst r. cbn [handle]. rewrite bind_eq. cbn [tell].
    rewrite removeConnection_eq. cbn zeta.
    rewrite connection_closes_eq, decide_True by done.
    rewrite removeConnection_closed_eq, removeConnection_rest_eq. cbn zeta.
    rewrite connections_with_connections, set_delete_twice.
    rewrite with_connections_twice. fold s' peers.
    rewrite !send_eq. cbn [state_of effects_of fst snd].
    change (peer s') with (peer s). rewrite Hp.
    change (peer_id k s') with (peer_id k s). done. }
  split_and!.
  - subst r. cbn [handle]. rewrite bind_eq. cbn [tell].
    by rewrite removeConnection_eq.
  - done.
  - intros c Hc HcB. rewrite Heff. unfold notified.
    rewrite !sent_to_app, (sent_to_sends _ _ _ Hs'). cbn.
    rewrite decide_True; [done|]. by apply elem_of_set_delete.
  - rewrite Heff. unfold notified.
    rewrite !sent_to_app, (sent_to_sends _ _ _ Hs'). cbn.
    rewrite decide_False; [done|]. rewrite elem_of_set_delete.
    by intros [_ ?].
Qed.

Lemma error_leaves_twice_witness :
  (reachable two_clients ∧ peer two_clients = Some 0%nat
   ∧ bob ∈ connections two_clients)
  ∧ sent_to alice
      (effects_of (handle (ConnError bob "ice failed") two_clients))
    = let leave :=
        Message.mk "leave"
          (Roster (peerDataOf bob)
             [peerDataOf alice; PeerData.mk (Some "host-id") host_md])
          (Some "host-id") in
      [leave; leave].
Proof.
  assert (H : reachable two_clients) by (by eexists _, _).
  assert (Hb : bob ∈ connections two_clients).
  { apply list_elem_of_In. vm_compute. tauto. }
  split; [done|].
  destruct (error_leaves_twice two_clients bob 0%nat "ice failed"
              H eq_refl Hb) as (_ & _ & Hsent & _).
  apply Hsent; [|done]. apply list_elem_of_In. vm_compute. tauto.
Defined.

End ServerNetwork.

(** * Tanks *)
Module Tank.

(** The class of a tank object, what [instanceof] tests: [Tank] itself,
    [TankPlayer extends Tank] (the local player) or [TankNetwork] (the proxy
    of a remote player). *)
Inductive Kind := KTank | KTankPlayer | KTankNetwork.

#[global] Instance Kind_eq_dec : EqDecision Kind.
Proof. solve_decision. Defined.

(** What a tank does to the scene, the physics world, the audio and the
    game event bus: [die()], the calls of [shoot], [honk], the [onChange]
    handlers of the properties, [game.events.send(channel, payload)] and
    the bag-level [change] event. *)
Inductive Effect :=
  | Die
  | ShootSound
  | ExplosionMake
  | MakeBullet
  | BulletOnCollision
  | HonkSound
  | HeadlightsIntensity (on : bool)
  | SetTexture (type : string)
  | TurretLimit (angle : Z)
  | CanonLimit (angle : Z)
  | EventSend (channel : string) (payload : string)
  | Change (key : string).

#[global] Instance Effect_eq_dec : EqDecision Effect.
Proof. solve_decision. Defined.

(** Modelled from the spec: the property bag [Properties] of
    [@game/utils/Properties], which is not among the sources. Section 4.3:
    "a write first applies the definition's [set] transform if present
    (e.g., clamping), compares to the previous value, and -- only if
    changed -- commits the new value [...], then invokes the property's
    [onChange(new, old)] followed by the bag-level [change] event". *)
Module Properties.

Record PropertyDefinition (T : Type) := mkDef {
  default : T;
  set : option (T → T);
  onChange : option (T → T → list Effect)
}.
Arguments mkDef {T}.
Arguments default {T}.
Arguments set {T}.
Arguments onChange {T}.

Definition write {T} `{EqDecision T} (key : string)
    (def : PropertyDefinition T) (current x : T) : T * list Effect :=
  let value := match set def with Some f => f x | None => x end in
  if decide (value = current) then (current, [])
  else (value,
        match onChange def with Some f => f value current | None => [] end
        ++ [Change key]).

End Properties.

(** The properties of [TankState] that the bag stores as plain values.
    [position] and [rotation] are left out: they are three.js objects read
    from the physics body ([get: () => this.chassis.position]) and
    converted by [export]/[import] transforms, so a snapshot here is the
    rest of the exported object and nothing below speaks about them. *)
Record TankState := mkState {
  pseudo : string;
  type : string;
  turretAngle : Z;
  canonAngle : Z;
  steering : Z;
  engineForce : Z;
  breakingForce : Z;
  headlights : bool;
  health : Z
}.

(** A [Partial<TankState>]: the keys present in an imported object. *)
Record PartialState := mkPartial {
  p_pseudo : option string;
  p_type : option string;
  p_turretAngle : option Z;
  p_canonAngle : option Z;
  p_steering : option Z;
  p_engineForce : option Z;
  p_breakingForce : option Z;
  p_headlights : option bool;
  p_health : option Z
}.

(** A tank object. [lastShot] is the private field of [Tank]; [lastUpdate]
    is what [getLastUpdate()] of a [TankNetwork] returns (the spec's
    [lastSnapshotTimestamp]) and is not used by the other classes. *)
Record t := mk {
  uuid : string;
  kind : Kind;
  properties : TankState;
  lastShot : Z;
  lastUpdate : Z
}.

Definition with_properties (p : TankState) (tank : t) : t :=
  {| uuid := uuid tank; kind := kind tank; properties := p;
     lastShot := lastShot tank; lastUpdate := lastUpdate tank |}.

Definition with_lastShot (z : Z) (tank : t) : t :=
  {| uuid := uuid tank; kind := kind tank; properties := properties tank;
     lastShot := z; lastUpdate := lastUpdate tank |}.

Definition with_lastUpdate (z : Z) (tank : t) : t :=
  {| uuid := uuid tank; kind := kind tank; properties := properties tank;
     lastShot := lastShot tank; lastUpdate := z |}.

Definition with_health (h : Z) (p : TankState) : TankState :=
  {| pseudo := pseudo p; type := type p; turretAngle := turretAngle p;
     canonAngle := canonAngle p; steering := steering p;
     engineForce := engineForce p; breakingForce := breakingForce p;
     headlights := headlights p; health := h |}.

Definition with_turretAngle (z : Z) (p : TankState) : TankState :=
  {| pseudo := pseudo p; type := type p; turretAngle := z;
     canonAngle := canonAngle p; steering := steering p;
     engineForce := engineForce p; breakingForce := breakingForce p;
     headlights := headlights p; health := health p |}.

Definition with_steering (z : Z) (p : TankState) : TankState :=
  {| pseudo := pseudo p; type := type p; turretAngle := turretAngle p;
     canonAngle := canonAngle p; steering := z;
     engineForce := engineForce p; breakingForce := breakingForce p;
     headlights := headlights p; health := health p |}.

Definition with_engineForce (z : Z) (p : TankState) : TankState :=
  {| pseudo := pseudo p; type := type p; turretAngle := turretAngle p;
     canonAngle := canonAngle p; steering := steering p;
     engineForce := z; breakingForce := breakingForce p;
     headlights := headlights p; health := health p |}.

(** The property definitions registered by the constructor. *)
Definition def_headlights : Properties.PropertyDefinition bool :=
  Properties.mkDef true None (Some (λ value _, [HeadlightsIntensity value])).
Definition def_type : Properties.PropertyDefinition string :=
  Properties.mkDef "heig" None (Some (λ value _, [SetTexture value])).
Definition def_turretAngle : Properties.PropertyDefinition Z :=
  Properties.mkDef 0 None (Some (λ value _, [TurretLimit value])).
Definition def_canonAngle : Properties.PropertyDefinition Z :=
  Properties.mkDef 0 None (Some (λ value _, [CanonLimit value])).
Definition def_pseudo : Properties.PropertyDefinition string :=
  Properties.mkDef "Player" None None.
Definition def_engineForce : Properties.PropertyDefinition Z :=
  Properties.mkDef 0 None None.
Definition def_breakingForce : Properties.PropertyDefinition Z :=
  Properties.mkDef 0 None None.
Definition def_steering : Properties.PropertyDefinition Z :=
  Properties.mkDef 0 None None.

(** [health]: [set: value => Math.min(Math.max(value, 0), 100)] and
    [onChange: (health, oldHealth) => { if (health <= 0 && oldHealth > 0)
    this.die() }]. *)
Definition def_health : Properties.PropertyDefinition Z :=
  Properties.mkDef 100
    (Some (λ value, Z.min (Z.max value 0) 100))
    (Some (λ health oldHealth,
       if bool_decide (health ≤ 0) && bool_decide (0 < oldHealth)
       then [Die] else [])).

(** The constructor, for an object of class [kind]. *)
Definition new (kind : Kind) (uuid : string) : t :=
  {| uuid := uuid; kind := kind;
     properties :=
       {| pseudo := Properties.default def_pseudo;
          type := Properties.default def_type;
          turretAngle := Properties.default def_turretAngle;
          canonAngle := Properties.default def_canonAngle;
          steering := Properties.default def_steering;
          engineForce := Properties.default def_engineForce;
          breakingForce := Properties.default def_breakingForce;
          headlights := Properties.default def_headlights;
          health := Properties.default def_health |};
     lastShot := 0; lastUpdate := 0 |}.

(** [get health()] and [set health(value)]. *)
Definition get_health (tank : t) : Z := health (properties tank).

Definition set_health (value : Z) (tank : t) : t * list Effect :=
  let '(h, out) :=
    Properties.write "health" def_health (get_health tank) value in
  (with_properties (with_health h (properties tank)) tank, out).

Definition isDead (tank : t) : bool := bool_decide (get_health tank ≤ 0).

(** [set turretAngle(angle)], [set steering(value)] and
    [set engineForce(force)]. *)
Definition set_turretAngle (angle : Z) (tank : t) : t * list Effect :=
  let '(v, out) :=
    Properties.write "turretAngle" def_turretAngle
      (turretAngle (properties tank)) angle in
  (with_properties (with_turretAngle v (properties tank)) tank, out).

Definition set_steering (value : Z) (tank : t) : t * list Effect :=
  let '(v, out) :=
    Properties.write "steering" def_steering
      (steering (properties tank)) value in
  (with_properties (with_steering v (properties tank)) tank, out).

Definition set_engineForce (force : Z) (tank : t) : t * list Effect :=
  let '(v, out) :=
    Properties.write "engineForce" def_engineForce
      (engineForce (properties tank)) force in
  (with_properties (with_engineForce v (properties tank)) tank, out).

(** [hit(damage)]: [this.properties.getProperty('health').value -= damage]. *)
Definition hit (damage : Z) (tank : t) : t * list Effect :=
  set_health (get_health tank - damage) tank.

(** [createBullet]: [TankPlayer] overrides it to add a collision handler
    to the bullet the base method makes. *)
Definition createBullet (tank : t) : list Effect :=
  match kind tank with
  | KTankPlayer => [MakeBullet; BulletOnCollision]
  | _ => [MakeBullet]
  end.

(** [Tank.shoot()]. [now] is what [Date.now()] returns in the guard and
    [now'] what it returns in the assignment to [lastShot]. *)
Definition shoot (now now' : Z) (tank : t) : bool * t * list Effect :=
  if bool_decide (now < lastShot tank + 750) || isDead tank then
    (false, tank, [])
  else
    (true, with_lastShot now' tank,
     [ShootSound; ExplosionMake] ++ createBullet tank).

(** [TankPlayer.shoot()]. *)
Definition TankPlayer_shoot (now now' : Z) (tank : t)
    : bool * t * list Effect :=
  let '(hadShoot, tank', out) := shoot now now' tank in
  if hadShoot then
    (hadShoot, tank', out ++ [EventSend "tank:shoot" (uuid tank)])
  else (hadShoot, tank', out).

(** What [export()] returns:
    [{uuid: this.uuid, ...this.properties.export()}]. *)
Record Snapshot := mkSnapshot { snap_uuid : string; snap_state : TankState }.

Definition export (tank : t) : Snapshot :=
  {| snap_uuid := uuid tank; snap_state := properties tank |}.

(** An object with every key of [TankState] present. *)
Definition full (p : TankState) : PartialState :=
  {| p_pseudo := Some (pseudo p); p_type := Some (type p);
     p_turretAngle := Some (turretAngle p);
     p_canonAngle := Some (canonAngle p); p_steering := Some (steering p);
     p_engineForce := Some (engineForce p);
     p_breakingForce := Some (breakingForce p);
     p_headlights := Some (headlights p); p_health := Some (health p) |}.

Definition write_key {T} `{EqDecision T} (key : string)
    (def : Properties.PropertyDefinition T) (current : T) (raw : option T)
    : T * list Effect :=
  match raw with
  | Some x => Properties.write key def current x
  | None => (current, [])
  end.

(** Modelled from the spec: [import(state)] is
    [this.properties.import(state)], and [Properties.import] is not among
    the sources. Section 4.3: every key present in the partial object is
    assigned "through the same write path as [.value = x]"; keys absent are
    left untouched. The keys are taken in registration order. *)
Definition import (state : PartialState) (tank : t) : t * list Effect :=
  let p := properties tank in
  let '(v1, o1) :=
    write_key "headlights" def_headlights (headlights p) (p_headlights state) in
  let '(v2, o2) := write_key "type" def_type (type p) (p_type state) in
  let '(v3, o3) :=
    write_key "turretAngle" def_turretAngle (turretAngle p)
      (p_turretAngle state) in
  let '(v4, o4) :=
    write_key "canonAngle" def_canonAngle (canonAngle p)
      (p_canonAngle state) in
  let '(v5, o5) := write_key "pseudo" def_pseudo (pseudo p) (p_pseudo state) in
  let '(v6, o6) :=
    write_key "engineForce" def_engineForce (engineForce p)
      (p_engineForce state) in
  let '(v7, o7) :=
    write_key "breakingForce" def_breakingForce (breakingForce p)
      (p_breakingForce state) in
  let '(v8, o8) :=
    write_key "steering" def_steering (steering p) (p_steering state) in
  let '(v9, o9) := write_key "health" def_health (health p) (p_health state) in
  (with_properties
     {| pseudo := v5; type := v2; turretAngle := v3; canonAngle := v4;
        steering := v8; engineForce := v6; breakingForce := v7;
        headlights := v1; health := v9 |} tank,
   o1 ++ o2 ++ o3 ++ o4 ++ o5 ++ o6 ++ o7 ++ o8 ++ o9).

(** Modelled from the spec: [TankNetwork.networkUpdate(data)]; the class
    [TankNetwork] is not among the sources. Section 4.4: "apply the snapshot
    (4.3 import) and refresh its last-update timestamp". [now] is the
    clock reading it stores. *)
Definition networkUpdate (data : Snapshot) (now : Z) (tank : t)
    : t * list Effect :=
  let '(tank', out) := import (full (snap_state data)) tank in
  (with_lastUpdate now tank', out).

(** The bullets made in a trace. *)
Definition bullets (out : list Effect) : nat :=
  length (filter (λ e, e = MakeBullet) out).

(** The calls of [die()] in a trace. *)
Definition deaths (out : list Effect) : nat :=
  length (filter (λ e, e = Die) out).

Lemma import_identity state tank :
  uuid (import state tank).1 = uuid tank
  ∧ kind (import state tank).1 = kind tank
  ∧ lastShot (import state tank).1 = lastShot tank
  ∧ lastUpdate (import state tank).1 = lastUpdate tank.
Proof.
  unfold import. repeat destruct (write_key _ _ _ _) as [? ?]. done.
Qed.

Lemma networkUpdate_identity data now tank :
  uuid (networkUpdate data now tank).1 = uuid tank
  ∧ kind (networkUpdate data now tank).1 = kind tank
  ∧ lastUpdate (networkUpdate data now tank).1 = now.
Proof.
  unfold networkUpdate.
  pose proof (import_identity (full (snap_state data)) tank) as H.
  destruct (import _ tank) as [tank' out]. cbn in *. tauto.
Qed.

(** *** The clamped health property *)

Lemma clamp_range (value : Z) : 0 ≤ Z.min (Z.max value 0) 100 ≤ 100.
Proof. lia. Qed.

Lemma clamp_nonpositive (value : Z) :
  value ≤ 0 → Z.min (Z.max value 0) 100 = 0.
Proof. lia. Qed.

Lemma set_health_alive_to_zero (tank : t) (x : Z) :
  0 < get_health tank → x ≤ 0 →
  set_health x tank
  = (with_properties (with_health 0 (properties tank)) tank,
     [Die; Change "health"]).
Proof.
  intros Halive Hx. unfold set_health, Properties.write. cbn.
  rewrite (clamp_nonpositive x Hx).
  rewrite decide_False by lia.
  by rewrite bool_decide_true, bool_decide_true by lia.
Qed.

Lemma set_health_zero_again (tank : t) (y : Z) :
  get_health tank = 0 → y ≤ 0 → set_health y tank = (tank, []).
Proof.
  intros Hzero Hy. unfold set_health, Properties.write. cbn.
  rewrite (clamp_nonpositive y Hy), decide_True by done.
  destruct tank as [u k [] ls lu]. cbn in *. by subst.
Qed.

(** C7. On a tank that is alive, writing a value [x <= 0] to [health]
    (such as -30) stores the clamped value 0 and calls [die()] exactly once;
    writing a second value [y <= 0] (such as -10) afterwards stores 0 again,
    changes nothing and fires nothing. The same holds when the write comes
    from [hit] with a damage of at least the current health. *)
Theorem health_reaches_zero_once (tank : t) (x y : Z) :
  0 < get_health tank → x ≤ 0 → y ≤ 0 →
  let '(tank1, out1) := set_health x tank in
  let '(tank2, out2) := set_health y tank1 in
  get_health tank1 = 0 ∧ deaths out1 = 1%nat
  ∧ get_health tank2 = 0 ∧ tank2 = tank1 ∧ out2 = [] ∧ deaths out2 = 0%nat
  ∧ hit (get_health tank - x) tank = (tank1, out1)
  ∧ hit (- y) tank1 = (tank1, []).
Proof.
  intros Halive Hx Hy.
  rewrite (set_health_alive_to_zero tank x Halive Hx).
  set (tank1 := with_properties _ tank).
  assert (H1 : get_health tank1 = 0) by done.
  rewrite (set_health_zero_again tank1 y H1 Hy).
  split_and!; try done.
  - unfold hit. replace (get_health tank - (get_health tank - x)) with x
      by lia.
    by apply set_health_alive_to_zero.
  - unfold hit. apply set_health_zero_again; [done|lia].
Qed.

Lemma health_reaches_zero_once_witness :
  (0 < get_health (new KTank "t1") ∧ -30 ≤ 0 ∧ -10 ≤ 0)
  ∧ get_health (set_health (-30) (new KTank "t1")).1 = 0
  ∧ deaths (set_health (-30) (new KTank "t1")).2 = 1%nat
  ∧ deaths (set_health (-10) (set_health (-30) (new KTank "t1")).1).2
    = 0%nat.
Proof.
  assert (H0 : 0 < get_health (new KTank "t1")) by (cbn; lia).
  assert (H1 : -30 ≤ 0) by lia.
  assert (H2 : -10 ≤ 0) by lia.
  split; [done|].
  pose proof (health_reaches_zero_once (new KTank "t1") (-30) (-10) H0 H1 H2)
    as H.
  destruct (set_health (-30) (new KTank "t1")) as [tank1 out1].
  cbn [fst snd].
  destruct (set_health (-10) tank1) as [tank2 out2].
  destruct H as (Ha & Hb & _ & _ & _ & Hc & _). done.
Defined.

(** *** Shooting *)

(** C10. [shoot] refuses (returns [false], leaves the tank as it is and
    does nothing, so makes no bullet) when fewer than 750 ms separate the
    guard's clock reading from [lastShot], or when the tank is dead;
    otherwise it returns [true], makes exactly one bullet and stores the
    second clock reading in [lastShot], changing nothing else of the tank,
    so that a call whose guard reads the clock fewer than 750 ms after it
    is refused: [lastShot] is the time of the previous successful shot
    (0 before the first). [TankPlayer.shoot] returns what [shoot] returns
    and sends [tank:shoot] with the tank's uuid exactly when that is
    [true]. *)
Theorem shoot_cooldown (tank : t) (now now' : Z) :
  (now - lastShot tank < 750 ∨ get_health tank ≤ 0 →
     shoot now now' tank = (false, tank, [])
     ∧ TankPlayer_shoot now now' tank = (false, tank, []))
  ∧ (¬ (now - lastShot tank < 750 ∨ get_health tank ≤ 0) →
     ∃ tank' out,
       shoot now now' tank = (true, tank', out)
       ∧ lastShot tank' = now'
       ∧ uuid tank' = uuid tank ∧ kind tank' = kind tank
       ∧ properties tank' = properties tank
       ∧ lastUpdate tank' = lastUpdate tank
       ∧ bullets out = 1%nat
       ∧ TankPlayer_shoot now now' tank
         = (true, tank', out ++ [EventSend "tank:shoot" (uuid tank)])
       ∧ ∀ next next', next - now' < 750 →
           shoot next next' tank' = (false, tank', [])
           ∧ TankPlayer_shoot next next' tank' = (false, tank', []))
  ∧ (let '(hadShoot, _, out) := TankPlayer_shoot now now' tank in
     EventSend "tank:shoot" (uuid tank) ∈ out ↔ hadShoot = true)
  ∧ (let '(hadShoot, _, out) := shoot now now' tank in
     bullets out = if hadShoot then 1%nat else 0%nat).
Proof.
  unfold TankPlayer_shoot, shoot, isDead.
  destruct (bool_decide (now < lastShot tank + 750)) eqn:Hcool;
    destruct (bool_decide (get_health tank ≤ 0)) eqn:Hdead;
    [apply bool_decide_eq_true in Hcool
    |apply bool_decide_eq_true in Hcool
    |apply bool_decide_eq_false in Hcool
    |apply bool_decide_eq_false in Hcool];
    [apply bool_decide_eq_true in Hdead
    |apply bool_decide_eq_false in Hdead
    |apply bool_decide_eq_true in Hdead
    |apply bool_decide_eq_false in Hdead]; cbn [orb].
  1-3: split_and!; [done|intros H; exfalso; apply H; lia
                   |split; [by intros ?%elem_of_nil|done]|done].
  split_and!.
  - intros [?|?]; [lia|done].
  - intros _. eexists _, _. split_and!; [done..| |done|].
    + unfold createBullet. by destruct (kind tank).
    + intros next next' Hnext. cbn [lastShot with_lastShot].
      rewrite (bool_decide_true (next < now' + 750)) by lia. done.
  - split; [done|]. intros _. rewrite !elem_of_app. right. left.
  - unfold createBullet. by destruct (kind tank).
Qed.

Lemma shoot_cooldown_witness :
  ∃ tank',
    TankPlayer_shoot 1000 1001 (new KTankPlayer "p1")
    = (true, tank',
       [ShootSound; ExplosionMake; MakeBullet; BulletOnCollision;
        EventSend "tank:shoot" "p1"])
    ∧ lastShot tank' = 1001
    ∧ TankPlayer_shoot 1750 1750 tank' = (false, tank', [])
    ∧ (TankPlayer_shoot 1751 1752 tank').1.1 = true.
Proof.
  destruct (shoot_cooldown (new KTankPlayer "p1") 1000 1001)
    as (_ & Hfire & _).
  destruct Hfire as (tank' & out & Hshoot & Hlast & _ & _ & _ & _ & _ & Hp
                     & Hnext).
  { cbn. lia. }
  exists tank'. injection Hshoot as <- <-. split_and!.
  - exact Hp.
  - exact Hlast.
  - apply Hnext. lia.
  - reflexivity.
Defined.

(** *** Further properties of tanks *)

(** A series of [hit(damage)] calls on one tank. *)
Fixpoint hits (damages : list Z) (tank : t) : t * list Effect :=
  match damages with
  | [] => (tank, [])
  | damage :: rest =>
      let '(tank1, out1) := hit damage tank in
      let '(tank2, out2) := hits rest tank1 in
      (tank2, out1 ++ out2)
  end.

(** A series of [shoot()] calls on one tank, each with its two clock
    readings. *)
Fixpoint shoots (clocks : list (Z * Z)) (tank : t)
    : list bool * t * list Effect :=
  match clocks with
  | [] => ([], tank, [])
  | (now, now') :: rest =>
      let '(fired, tank1, out1) := shoot now now' tank in
      let '(results, tank2, out2) := shoots rest tank1 in
      (fired :: results, tank2, out1 ++ out2)
  end.

Lemma deaths_app o1 o2 : deaths (o1 ++ o2) = (deaths o1 + deaths o2)%nat.
Proof. unfold deaths. by rewrite filter_app, length_app. Qed.

Lemma set_health_result (tank : t) (value : Z) :
  get_health (set_health value tank).1 = Z.min (Z.max value 0) 100
  ∧ deaths (set_health value tank).2
    = if bool_decide (Z.min (Z.max value 0) 100 ≤ 0 ∧ 0 < get_health tank)
      then 1%nat else 0%nat.
Proof.
  unfold set_health, Properties.write. cbn.
  destruct (decide (Z.min (Z.max value 0) 100 = get_health tank)) as [He|Hne].
  - cbn. split; [done|]. rewrite bool_decide_false; [done|]. lia.
  - cbn. split; [done|].
    destruct (bool_decide (Z.min (Z.max value 0) 100 ≤ 0)) eqn:H1;
      destruct (bool_decide (0 < get_health tank)) eqn:H2; cbn;
      [apply bool_decide_eq_true in H1, H2
      |apply bool_decide_eq_true in H1; apply bool_decide_eq_false in H2
      |apply bool_decide_eq_false in H1
      |apply bool_decide_eq_false in H1];
      first [by rewrite bool_decide_true by done
            |rewrite bool_decide_false; [done|by intros [? ?]]].
Qed.

Lemma total_damage_nonneg (damages : list Z) :
  Forall (λ d, 0 ≤ d) damages → 0 ≤ foldr Z.add 0 damages.
Proof. induction 1; cbn; lia. Qed.

(** X7. Under damage (a series of [hit] calls with non-negative damages)
    a tank with health in [0,100] ends with health
    [max(0, health - total damage)], and [die()] is called exactly once if
    the tank was alive and ends at 0, and not at all otherwise: further hits
    on a dead tank never call it again. *)
Theorem die_once_under_damage (tank : t) (damages : list Z) :
  0 ≤ get_health tank ≤ 100 → Forall (λ d, 0 ≤ d) damages →
  get_health (hits damages tank).1
  = Z.max 0 (get_health tank - foldr Z.add 0 damages)
  ∧ deaths (hits damages tank).2
    = if bool_decide (0 < get_health tank
                      ∧ get_health (hits damages tank).1 = 0)
      then 1%nat else 0%nat.
Proof.
  intros Hrange Hd. revert tank Hrange.
  induction Hd as [|d damages Hd0 Hd IH]; intros tank Hrange.
  - cbn. split; [lia|]. rewrite bool_decide_false; [done|lia].
  - cbn [hits foldr]. unfold hit.
    destruct (set_health_result tank (get_health tank - d)) as [Hh Hdie].
    destruct (set_health (get_health tank - d) tank) as [tank1 out1].
    cbn [fst snd] in Hh, Hdie.
    assert (Hh1 : get_health tank1 = Z.max 0 (get_health tank - d)) by lia.
    destruct (IH tank1) as [IHh IHd]; [lia|].
    destruct (hits damages tank1) as [tank2 out2]. cbn [fst snd] in *.
    pose proof (total_damage_nonneg damages Hd) as Hsum.
    split; [lia|]. rewrite deaths_app, Hdie, IHd.
    repeat case_bool_decide; lia.
Qed.

Lemma die_once_under_damage_witness :
  (0 ≤ get_health (new KTank "t1") ≤ 100
   ∧ Forall (λ d, 0 ≤ d) [10; 50; 60; 10])
  ∧ get_health (hits [10; 50; 60; 10] (new KTank "t1")).1 = 0
  ∧ deaths (hits [10; 50; 60; 10] (new KTank "t1")).2 = 1%nat.
Proof.
  assert (H1 : 0 ≤ get_health (new KTank "t1") ≤ 100) by (cbn; lia).
  assert (H2 : Forall (λ d, 0 ≤ d) [10; 50; 60; 10])
    by (repeat constructor; lia).
  split; [done|].
  destruct (die_once_under_damage (new KTank "t1") [10; 50; 60; 10] H1 H2)
    as [Hh Hd].
  split; [exact Hh|exact Hd].
Defined.

(** X8. While the tank is dead, or as long as the guard clock of every
    call stays below [lastShot + 750], any number of [shoot()] calls in a
    row all return [false], make nothing and leave the tank, [lastShot]
    included, as it was: a refused shot does not restart the cool-down. *)
Theorem refused_shots_change_nothing (tank : t) (clocks : list (Z * Z)) :
  get_health tank ≤ 0 ∨ Forall (λ c, c.1 < lastShot tank + 750) clocks →
  shoots clocks tank = (replicate (length clocks) false, tank, []).
Proof.
  intros H. induction clocks as [|[now now'] clocks IH]; [done|].
  cbn [shoots length replicate].
  assert (Hno : shoot now now' tank = (false, tank, [])).
  { unfold shoot, isDead. destruct H as [Hdead|Hcool].
    - rewrite (bool_decide_true (get_health tank ≤ 0)) by done.
      by rewrite orb_true_r.
    - apply Forall_cons in Hcool as [Hc _]. cbn in Hc.
      by rewrite bool_decide_true by done. }
  rewrite Hno, IH; [done|].
  destruct H as [?|Hcool]; [by left|right].
  by apply Forall_cons in Hcool as [_ ?].
Qed.

Lemma refused_shots_change_nothing_witness :
  (get_health (with_lastShot 1000 (new KTank "t1")) ≤ 0
   ∨ Forall (λ c, c.1 < lastShot (with_lastShot 1000 (new KTank "t1")) + 750)
       [(1100, 1100); (1400, 1401); (1749, 1749)])
  ∧ shoots [(1100, 1100); (1400, 1401); (1749, 1749)]
      (with_lastShot 1000 (new KTank "t1"))
    = ([false; false; false], with_lastShot 1000 (new KTank "t1"), []).
Proof.
  assert (H : get_health (with_lastShot 1000 (new KTank "t1")) ≤ 0
    ∨ Forall (λ c, c.1 < lastShot (with_lastShot 1000 (new KTank "t1")) + 750)
        [(1100, 1100); (1400, 1401); (1749, 1749)]).
  { right. repeat constructor; cbn; lia. }
  split; [exact H|].
  exact (refused_shots_change_nothing _ _ H).
Defined.

End Tank.

(** * The player's controls: [PlayerController] *)
Module PlayerController.

(** What one call of [update()] reads from outside. [moveForward] and
    [moveBackward] are [keyboard.getAction(...)]. The steering rule (steps
    of 0.04 towards +-0.5 while a turn key is held, steps of 0.02 back to 0
    otherwise) and the aim ([Math.atan2] of the camera and chassis
    directions) are floating-point computations: [steered] lists the
    values the call assigns to [tank.steering], in order, and [aim] is
    the value it assigns to [tank.turretAngle]. *)
Record Controls := mkControls {
  moveForward : bool;
  moveBackward : bool;
  steered : list Z;
  aim : Z
}.

(** The assignments to [tank.steering]. *)
Fixpoint steer (values : list Z) (tank : Tank.t)
    : Tank.t * list Tank.Effect :=
  match values with
  | [] => (tank, [])
  | value :: values' =>
      let '(tank1, out1) := Tank.set_steering value tank in
      let '(tank2, out2) := steer values' tank1 in
      (tank2, out1 ++ out2)
  end.

(** [update()] on the tank given to [setTank]. ([control.update()] moves
    the camera, which is read through [aim] only.) *)
Definition update (keys : Controls) (tank : Tank.t)
    : Tank.t * list Tank.Effect :=
  let maxEngineForce := 6000 in
  let '(tank1, out1) :=
    Tank.set_engineForce
      (if moveForward keys then maxEngineForce
       else if moveBackward keys then - maxEngineForce / 2
       else 0) tank in
  let '(tank2, out2) := steer (steered keys) tank1 in
  let '(tank3, out3) := Tank.set_turretAngle (aim keys) tank2 in
  (tank3, out1 ++ out2 ++ out3).

(** No key held, the tank at rest and the camera behind it. *)
Definition idle : Controls := mkControls false false [] 0.

(** What the controller leaves alone. *)
Record same_identity (tank tank' : Tank.t) : Prop := mk_same {
  same_uuid : Tank.uuid tank' = Tank.uuid tank;
  same_kind : Tank.kind tank' = Tank.kind tank;
  same_lastShot : Tank.lastShot tank' = Tank.lastShot tank;
  same_lastUpdate : Tank.lastUpdate tank' = Tank.lastUpdate tank;
  same_health : Tank.get_health tank' = Tank.get_health tank
}.

Lemma same_identity_refl tank : same_identity tank tank.
Proof. by split. Qed.

Lemma same_identity_trans t1 t2 t3 :
  same_identity t1 t2 → same_identity t2 t3 → same_identity t1 t3.
Proof. intros [] []. split; congruence. Qed.

Lemma set_steering_identity value tank :
  same_identity tank (Tank.set_steering value tank).1.
Proof.
  unfold Tank.set_steering.
  destruct (Tank.Properties.write _ _ _ _) as [v out]. by split.
Qed.

Lemma set_engineForce_identity value tank :
  same_identity tank (Tank.set_engineForce value tank).1.
Proof.
  unfold Tank.set_engineForce.
  destruct (Tank.Properties.write _ _ _ _) as [v out]. by split.
Qed.

Lemma set_turretAngle_identity value tank :
  same_identity tank (Tank.set_turretAngle value tank).1.
Proof.
  unfold Tank.set_turretAngle.
  destruct (Tank.Properties.write _ _ _ _) as [v out]. by split.
Qed.

Lemma steer_identity values tank : same_identity tank (steer values tank).1.
Proof.
  revert tank. induction values as [|value values IH]; intros tank; cbn.
  - apply same_identity_refl.
  - pose proof (set_steering_identity value tank) as H1.
    destruct (Tank.set_steering value tank) as [tank1 out1].
    pose proof (IH tank1) as H2.
    destruct (steer values tank1) as [tank2 out2]. cbn in *.
    by eapply same_identity_trans.
Qed.

Lemma update_identity keys tank : same_identity tank (update keys tank).1.
Proof.
  unfold update.
  pose proof (set_engineForce_identity
    (if moveForward keys then 6000
     else if moveBackward keys then - 6000 / 2 else 0) tank) as H1.
  destruct (Tank.set_engineForce _ tank) as [tank1 out1].
  pose proof (steer_identity (steered keys) tank1) as H2.
  destruct (steer (steered keys) tank1) as [tank2 out2].
  pose proof (set_turretAngle_identity (aim keys) tank2) as H3.
  destruct (Tank.set_turretAngle (aim keys) tank2) as [tank3 out3].
  cbn in *. eauto using same_identity_trans.
Qed.

End PlayerController.

(** * JavaScript maps

    [Map<string, V>]: the entries in insertion order, at most one per key.
    [set] on a present key replaces the value in place. *)
Module JsMap.
Section JsMap.
Context {V : Type}.
Implicit Types (m : list (string * V)) (k : string) (v : V).

Fixpoint get k m : option V :=
  match m with
  | [] => None
  | (k', v) :: m' => if decide (k' = k) then Some v else get k m'
  end.

Definition has k m : bool :=
  match get k m with Some _ => true | None => false end.

Fixpoint set k v m : list (string * V) :=
  match m with
  | [] => [(k, v)]
  | (k', v') :: m' =>
      if decide (k' = k) then (k, v) :: m' else (k', v') :: set k v m'
  end.

Definition delete k m : list (string * V) := filter (λ p, p.1 ≠ k) m.

Definition keys m : list string := m.*1.

Lemma get_set_eq k v m : get k (set k v m) = Some v.
Proof.
  induction m as [|[k' v'] m IH]; cbn.
  - by rewrite decide_True.
  - destruct (decide (k' = k)); cbn; [by rewrite decide_True|].
    by rewrite decide_False.
Qed.

Lemma get_set_ne k k' v m : k ≠ k' → get k' (set k v m) = get k' m.
Proof.
  intros Hne. induction m as [|[k0 v0] m IH]; cbn.
  - by rewrite decide_False.
  - destruct (decide (k0 = k)) as [->|]; cbn.
    + by rewrite !decide_False.
    + by rewrite IH.
Qed.

Lemma get_delete_eq k m : get k (delete k m) = None.
Proof.
  unfold delete. induction m as [|[k' v'] m IH]; [done|].
  rewrite filter_cons. cbn. destruct (decide (k' ≠ k)); [|done].
  cbn. by rewrite decide_False.
Qed.

Lemma get_delete_ne k k' m : k ≠ k' → get k' (delete k m) = get k' m.
Proof.
  intros Hne. unfold delete. induction m as [|[k0 v0] m IH]; [done|].
  rewrite filter_cons. cbn. destruct (decide (k0 ≠ k)) as [|Heq]; cbn.
  - by rewrite IH.
  - apply dec_stable in Heq as ->. by rewrite decide_False.
Qed.

Lemma get_None_keys k m : get k m = None ↔ k ∉ keys m.
Proof.
  unfold keys. induction m as [|[k' v'] m IH]; cbn.
  - split; [intros _; apply not_elem_of_nil|done].
  - rewrite not_elem_of_cons. destruct (decide (k' = k)) as [->|]; [|].
    + split; [done|]. by intros [? _].
    + rewrite IH. split; [by split|by intros [_ ?]].
Qed.

Lemma get_Some_elem k v m : get k m = Some v → (k, v) ∈ m.
Proof.
  induction m as [|[k' v'] m IH]; cbn; [done|].
  destruct (decide (k' = k)) as [->|].
  - intros [= ->]. left.
  - intros H. right. by apply IH.
Qed.

Lemma elem_get k v m : NoDup (keys m) → (k, v) ∈ m → get k m = Some v.
Proof.
  unfold keys. induction m as [|[k' v'] m IH]; cbn.
  - by intros _ ?%elem_of_nil.
  - intros [Hk Hm]%NoDup_cons [[= -> ->]|Hin]%elem_of_cons.
    + by rewrite decide_True.
    + rewrite decide_False; [by apply IH|].
      intros ->. apply Hk. apply list_elem_of_fmap. by exists (k, v).
Qed.

Lemma keys_set k v m :
  keys (set k v m) = if has k m then keys m else keys m ++ [k].
Proof.
  unfold has, keys. induction m as [|[k' v'] m IH]; cbn; [done|].
  destruct (decide (k' = k)) as [->|]; cbn; [done|].
  rewrite IH. by destruct (get k m).
Qed.

Lemma keys_set_NoDup k v m : NoDup (keys m) → NoDup (keys (set k v m)).
Proof.
  intros Hm. rewrite keys_set. unfold has.
  destruct (get k m) eqn:Hk; [done|].
  apply NoDup_app. split_and!; [done| |apply NoDup_singleton].
  intros k' Hk' ->%list_elem_of_singleton. by apply get_None_keys in Hk.
Qed.

Lemma keys_delete_NoDup k m : NoDup (keys m) → NoDup (keys (delete k m)).
Proof.
  unfold keys, delete. induction m as [|[k' v'] m IH]; [done|].
  rewrite fmap_cons. intros [Hk Hm]%NoDup_cons. rewrite filter_cons.
  destruct (decide ((k', v').1 ≠ k)); [|by apply IH].
  rewrite fmap_cons. apply NoDup_cons. split; [|by apply IH].
  intros ([k0 v0] & Heq & [_ Hin]%list_elem_of_filter)%list_elem_of_fmap.
  cbn in Heq. subst k0. apply Hk. apply list_elem_of_fmap. by exists (k', v0).
Qed.

Lemma delete_absent k m : get k m = None → delete k m = m.
Proof.
  intros Hk%get_None_keys. unfold delete. apply filter_all.
  intros [k' v'] Hin Heq. cbn in Heq. subst k'. apply Hk. unfold keys.
  apply list_elem_of_fmap. by exists (k, v').
Qed.

Lemma delete_set k v m : get k m = None → delete k (set k v m) = m.
Proof.
  unfold delete. induction m as [|[k' v'] m IH]; cbn [get set].
  - intros _. rewrite filter_cons, decide_False; [done|].
    cbn. by intros H.
  - destruct (decide (k' = k)) as [->|Hne]; [done|].
    intros Hk. rewrite filter_cons, decide_True by done.
    by rewrite IH.
Qed.

End JsMap.
End JsMap.

(** * The game scene: tank manager and replication loops *)
Module Game.

(** Tank objects live in a store and are referred to by address: the tank
    manager holds the same object in two maps, and the replication loop
    mutates an object after it has been registered. *)
Definition addr : Type := nat.

(** [TankManager extends Map<string, Tank>]: [entries] is the map itself,
    [networkTanks] its private second map. *)
Record TankManager := mkTankManager {
  entries : list (string * addr);
  networkTanks : list (string * addr)
}.

(** Effects of the scene: those of a tank object, the [add] and [remove]
    events of the manager, [tank.destroy()], [tank.addToScene()],
    [entity.update(delta)] (physics) and a send on a network channel. *)
Inductive Effect :=
  | OfTank (tank : addr) (e : Tank.Effect)
  | EmitAdd (tank : addr)
  | EmitRemove (tanks : list addr)
  | Destroy (tank : addr)
  | AddToScene (tank : addr)
  | EntityUpdate (tank : addr) (delta : Z)
  | ChannelSend (channel : string) (data : Tank.Snapshot).

(** The part of the scene the replication code works on. [pending] is
    the local [Map] named [tanks] in [create()]. *)
Record t := mk {
  heap : list Tank.t;
  tanks : TankManager;
  player : option addr;
  pending : list (string * Tank.Snapshot)
}.

Definition new : t :=
  {| heap := []; tanks := mkTankManager [] []; player := None;
     pending := [] |}.

Definition with_heap (h : list Tank.t) (g : t) : t :=
  {| heap := h; tanks := tanks g; player := player g; pending := pending g |}.
Definition with_tanks (m : TankManager) (g : t) : t :=
  {| heap := heap g; tanks := m; player := player g; pending := pending g |}.
Definition with_player (a : option addr) (g : t) : t :=
  {| heap := heap g; tanks := tanks g; player := a; pending := pending g |}.
Definition with_pending (l : list (string * Tank.Snapshot)) (g : t) : t :=
  {| heap := heap g; tanks := tanks g; player := player g; pending := l |}.
Definition with_entries (l : list (string * addr)) (g : t) : t :=
  with_tanks (mkTankManager l (networkTanks (tanks g))) g.
Definition with_networkTanks (l : list (string * addr)) (g : t) : t :=
  with_tanks (mkTankManager (entries (tanks g)) l) g.

Abbreviation M := (Prog t Effect).

(** The object at an address, and [new]. *)
Definition object (a : addr) (g : t) : option Tank.t := heap g !! a.

Definition alloc (o : Tank.t) : M addr :=
  λ g, (length (heap g), with_heap (heap g ++ [o]) g, []).

(** Runs a method of a tank object in place. *)
Definition on_object (a : addr) (f : Tank.t → Tank.t * list Tank.Effect)
    : M unit :=
  g ← this;
  match object a g with
  | Some o =>
      let '(o', out) := f o in
      modify (λ g, with_heap (<[a := o']> (heap g)) g);;
      forEach out (λ e, tell (OfTank a e))
  | None => skip
  end.

(** *** [TankManager] *)

Definition get (uuid : string) (g : t) : option addr :=
  JsMap.get uuid (entries (tanks g)).

Definition getNetwork (uuid : string) (g : t) : option addr :=
  JsMap.get uuid (networkTanks (tanks g)).

Definition TankManager_set (uuid : string) (tank : addr) : M unit :=
  g ← this;
  if JsMap.has uuid (entries (tanks g)) then skip
  else
    match object tank g with
    | Some o =>
        if decide (Tank.kind o = Tank.KTankNetwork) then
          modify (λ g, with_networkTanks
            (JsMap.set (Tank.uuid o) tank (networkTanks (tanks g))) g)
        else skip
    | None => skip
    end;;
    tell (EmitAdd tank);;
    modify (λ g, with_entries (JsMap.set uuid tank (entries (tanks g))) g).

Definition TankManager_add (tank : addr) : M unit :=
  g ← this;
  match object tank g with
  | Some o => TankManager_set (Tank.uuid o) tank
  | None => skip
  end.

Definition TankManager_delete (uuid : string) : M bool :=
  modify (λ g, with_networkTanks
    (JsMap.delete uuid (networkTanks (tanks g))) g);;
  g ← this;
  match get uuid g with
  | Some tank => tell (Destroy tank);; tell (EmitRemove [tank])
  | None => skip
  end;;
  modify (λ g, with_entries (JsMap.delete uuid (entries (tanks g))) g);;
  mret (JsMap.has uuid (entries (tanks g))).

Definition TankManager_remove (tank : addr) : M bool :=
  g ← this;
  match object tank g with
  | Some o => TankManager_delete (Tank.uuid o)
  | None => mret false
  end.

(** *** [Game] *)

Definition player_object (g : t) : option Tank.t :=
  player g ≫= λ a, object a g.

(** [respawn()]. [uuid] is what [shortUuid.uuid()] returns in the
    constructor of the new [TankPlayer]; [metadata] is
    [this.config.network.getMetadata()]. The closing
    [playerController.setTank(this.player)] makes the new player the
    controller's tank, see [controller_update]. *)
Definition respawn (uuid : string) (metadata : option ServerNetwork.Metadata.t)
    : M unit :=
  g ← this;
  match player g with
  | Some old => TankManager_remove old;; skip
  | None => skip
  end;;
  a ← alloc (Tank.new Tank.KTankPlayer uuid);
  modify (with_player (Some a));;
  on_object a (Tank.import
    {| Tank.p_pseudo := ServerNetwork.Metadata.name <$> metadata;
       Tank.p_type := ServerNetwork.Metadata.tank <$> metadata;
       Tank.p_turretAngle := None; Tank.p_canonAngle := None;
       Tank.p_steering := None; Tank.p_engineForce := None;
       Tank.p_breakingForce := None; Tank.p_headlights := None;
       Tank.p_health := None |});;
  tell (AddToScene a);;
  TankManager_add a.

(** The listener of [network.channel('update')] in [create()]. *)
Definition on_update (data : Tank.Snapshot) : M unit :=
  g ← this;
  match player_object g with
  | None => skip
  | Some p =>
      if decide (Tank.snap_uuid data = Tank.uuid p) then skip
      else modify (λ g, with_pending
             (JsMap.set (Tank.snap_uuid data) data (pending g)) g)
  end.

(** One entry of [tanks.forEach((data, uuid) => ...)] in the 100 ms loop. *)
Definition apply_snapshot (now : Z) (entry : string * Tank.Snapshot)
    : M unit :=
  let '(uuid, data) := entry in
  g ← this;
  match getNetwork uuid g with
  | Some tank => on_object tank (Tank.networkUpdate data now)
  | None =>
      tank ← alloc (Tank.new Tank.KTankNetwork (Tank.snap_uuid data));
      TankManager_add tank;;
      tell (AddToScene tank);;
      on_object tank (Tank.networkUpdate data now)
  end.

(** The body of the 100 ms loop of [create()]; [now] is the clock at that
    tick. *)
Definition tick (now : Z) : M unit :=
  g ← this;
  match player_object g with
  | Some p => tell (ChannelSend "update" (Tank.export p))
  | None => skip
  end;;
  forEach (pending g) (apply_snapshot now);;
  modify (with_pending []).

(** The staleness test of [update]:
    [entity instanceof TankNetwork &&
     entity.getLastUpdate() + (5000 + delta) < Date.now()]. *)
Definition stale (now delta : Z) (entity : Tank.t) : bool :=
  bool_decide (Tank.kind entity = Tank.KTankNetwork)
  && bool_decide (Tank.lastUpdate entity + (5000 + delta) < now).

(** One entry of [this.tanks.forEach(entity => ...)] in [update]. An entry
    deleted before its turn is not visited. *)
Definition visit (now delta : Z) (entry : string * addr) : M unit :=
  let '(key, a) := entry in
  g ← this;
  if decide (get key g = Some a) then
    match object a g with
    | Some entity =>
        tell (EntityUpdate a delta);;
        if stale now delta entity then TankManager_remove a;; skip else skip
    | None => skip
    end
  else skip.

(** [this.playerController.update()]. The controller's tank is the one
    [respawn] hands it with [setTank(this.player)] right after assigning
    [this.player], the only place where either is assigned. *)
Definition controller_update (keys : PlayerController.Controls) : M unit :=
  g ← this;
  match player g with
  | Some a => on_object a (PlayerController.update keys)
  | None => skip
  end.

(** [update(_time, delta)]; [now] is the clock during the step and [keys]
    what the controller reads. The sun and the statistics are left out. *)
Definition update (now delta : Z) (keys : PlayerController.Controls)
    : M unit :=
  controller_update keys;;
  g ← this;
  forEach (entries (tanks g)) (visit now delta).

(** The listener of [events.on('tank:hit', ...)] in [create()]:
    [this.tanks.get(to)?.hit(damage)]. *)
Definition on_tank_hit (damage : Z) (to : string) : M unit :=
  g ← this;
  match get to g with
  | Some tank => on_object tank (Tank.hit damage)
  | None => skip
  end.

(** The delay [asyncLoop] passes to [setTimeout] after a run of the
    callback that started at clock [start] and ended at clock [finish]:
    [Math.max(minInterval - (end - start), 0)]. *)
Definition asyncLoop_interval (minInterval start finish : Z) : Z :=
  Z.max (minInterval - (finish - start)) 0.

(** What happens to the scene once created. *)
Inductive Event :=
  | Respawn (uuid : string) (metadata : option ServerNetwork.Metadata.t)
  | Receive (data : Tank.Snapshot)
  | Tick (now : Z)
  | Step (now delta : Z) (keys : PlayerController.Controls).

Definition handle (e : Event) : M unit :=
  match e with
  | Respawn uuid metadata => respawn uuid metadata
  | Receive data => on_update data
  | Tick now => tick now
  | Step now delta keys => update now delta keys
  end.

Definition run (events : list Event) : M unit := forEach events handle.

(** The manager and the buffer are consistent: the keys of the two maps are
    pairwise distinct, a tank is registered under its own uuid, the second
    map holds exactly the proxies of the first, and a buffered snapshot is
    filed under its uuid. *)
Record wf (g : t) : Prop := mk_wf {
  wf_keys : NoDup (JsMap.keys (entries (tanks g)));
  wf_uuid : ∀ u a, get u g = Some a →
    ∃ o, object a g = Some o ∧ Tank.uuid o = u;
  wf_network : ∀ u a, getNetwork u g = Some a →
    get u g = Some a
    ∧ ∃ o, object a g = Some o ∧ Tank.kind o = Tank.KTankNetwork;
  wf_proxies : ∀ u a o, get u g = Some a → object a g = Some o →
    Tank.kind o = Tank.KTankNetwork → getNetwork u g = Some a;
  wf_pending_keys : NoDup (JsMap.keys (pending g));
  wf_pending : ∀ u d, JsMap.get u (pending g) = Some d →
    Tank.snap_uuid d = u
}.

(** The object a snapshot filed under [u] is applied to: the proxy
    registered under [u], or a new [TankNetwork] when there is none. *)
Definition proxy_base (u : string) (g : t) : Tank.t :=
  match getNetwork u g ≫= λ a, object a g with
  | Some o => o
  | None => Tank.new Tank.KTankNetwork u
  end.

(** No tank simulated locally (the player's tank, a plain [Tank]) is
    registered under [u]. *)
Definition no_local (u : string) (g : t) : Prop :=
  ∀ a o, get u g = Some a → object a g = Some o →
    Tank.kind o = Tank.KTankNetwork.

(** A small scene used to exercise the statements: the local player
    ["me"], and the proxy of ["them"] made by the tick at time 0 from one
    snapshot. *)
Definition snapshot_of_them : Tank.Snapshot :=
  {| Tank.snap_uuid := "them";
     Tank.snap_state :=
       Tank.with_health 80 (Tank.properties (Tank.new Tank.KTank "them")) |}.
Definition scene_with_proxy : t :=
  state_of (run [Respawn "me" None; Receive snapshot_of_them; Tick 0] new).

Definition scene_with_snapshot : t :=
  state_of (run [Respawn "me" None; Receive snapshot_of_them] new).

(** The uuids whose entry [update] deletes: those of the stale proxies. *)
Definition stale_at (now delta : Z) (h : list Tank.t) (a : addr) : bool :=
  match h !! a with Some o => stale now delta o | None => false end.

Definition evicted (now delta : Z) (h : list Tank.t)
    (l : list (string * addr)) : list string :=
  (filter (λ p, stale_at now delta h p.2 = true) l).*1.


(** The sends on network channels in a trace. *)
Definition channel_sends (out : list Effect)
    : list (string * Tank.Snapshot) :=
  omap (λ e, match e with ChannelSend c d => Some (c, d) | _ => None end) out.

(** *** Equations of the manager *)

Lemma TankManager_delete_eq uuid g :
  TankManager_delete uuid g
  = (JsMap.has uuid (entries (tanks g)),
     with_entries (JsMap.delete uuid (entries (tanks g)))
       (with_networkTanks (JsMap.delete uuid (networkTanks (tanks g))) g),
     match get uuid g with
     | Some tank => [Destroy tank; EmitRemove [tank]]
     | None => []
     end).
Proof.
  unfold TankManager_delete. run_binds. cbn.
  unfold get. cbn. by destruct (JsMap.get uuid (entries (tanks g))).
Qed.

Lemma on_object_eq a f g o :
  object a g = Some o →
  on_object a f g
  = ((), with_heap (<[a := (f o).1]> (heap g)) g, OfTank a <$> (f o).2).
Proof.
  intros Ho. unfold on_object. run_binds. cbn. rewrite Ho.
  destruct (f o) as [o' out]. cbn. by rewrite forEach_tell.
Qed.

Lemma visit_state now delta key a g o :
  get key g = Some a → object a g = Some o → Tank.uuid o = key →
  state_of (visit now delta (key, a) g)
  = if stale now delta o then
      with_entries (JsMap.delete key (entries (tanks g)))
        (with_networkTanks (JsMap.delete key (networkTanks (tanks g))) g)
    else g.
Proof.
  intros Hget Ho Hu. unfold visit, TankManager_remove. run_binds. cbn.
  rewrite decide_True by done. rewrite Ho. cbn.
  destruct (stale now delta o); [|done].
  cbn -[TankManager_delete]. rewrite Ho. cbn -[TankManager_delete].
  rewrite TankManager_delete_eq, Hu. done.
Qed.

Lemma update_loop now delta rest g :
  NoDup rest.*1 →
  (∀ k a, (k, a) ∈ rest →
     get k g = Some a ∧ ∃ o, object a g = Some o ∧ Tank.uuid o = k) →
  let g' := state_of (forEach rest (visit now delta) g) in
  heap g' = heap g ∧ pending g' = pending g ∧ player g' = player g
  ∧ ∀ u,
      get u g'
      = (if decide (u ∈ evicted now delta (heap g) rest) then None
         else get u g)
      ∧ getNetwork u g'
        = (if decide (u ∈ evicted now delta (heap g) rest) then None
           else getNetwork u g).
Proof.
  revert g. induction rest as [|[k a] rest IH]; intros g Hnd Hin.
  - cbn. split_and!; done.
  - rewrite fmap_cons in Hnd. apply NoDup_cons in Hnd as [Hk Hnd].
    destruct (Hin k a) as (Hget & o & Ho & Hu); [left|].
    cbn zeta. rewrite state_forEach_cons.
    rewrite (visit_state now delta k a g o Hget Ho Hu).
    set (g1 := if stale now delta o then _ else g).
    assert (Hheap : heap g1 = heap g) by (subst g1; by destruct (stale _ _ _)).
    assert (Hrest : ∀ k' a', (k', a') ∈ rest →
      get k' g1 = Some a'
      ∧ ∃ o', object a' g1 = Some o' ∧ Tank.uuid o' = k').
    { intros k' a' Hin'. destruct (Hin k' a') as (Hg' & Ho'); [by right|].
      split; [|by unfold object; rewrite Hheap].
      subst g1. destruct (stale now delta o); [|done].
      unfold get. cbn. rewrite JsMap.get_delete_ne; [done|].
      intros ->. apply Hk. apply list_elem_of_fmap. by exists (k', a'). }
    destruct (IH g1 Hnd Hrest) as (H1 & H2 & H3 & H4).
    rewrite H1, H2, H3, Hheap.
    split_and!; try (subst g1; by destruct (stale _ _ _)).
    intros u. destruct (H4 u) as [-> ->]. rewrite Hheap.
    assert (Hsa : stale_at now delta (heap g) a = stale now delta o).
    { unfold stale_at. change (heap g !! a) with (object a g). by rewrite Ho. }
    unfold evicted. rewrite filter_cons. cbn [snd]. rewrite Hsa. subst g1.
    destruct (stale now delta o) eqn:Hs.
    + rewrite (decide_True (P := true = true)) by done.
      rewrite fmap_cons. cbn [fst].
      fold (evicted now delta (heap g) rest).
      destruct (decide (u ∈ evicted now delta (heap g) rest)) as [He|He].
      * rewrite !decide_True by (right; exact He). by split.
      * destruct (decide (u = k)) as [->|Hne].
        -- rewrite !decide_True by left. unfold get, getNetwork. cbn.
           by rewrite !JsMap.get_delete_eq.
        -- rewrite !decide_False
             by (rewrite not_elem_of_cons; by split).
           unfold get, getNetwork. cbn.
           by rewrite !JsMap.get_delete_ne.
    + rewrite (decide_False (P := false = true)) by done. done.
Qed.

(** *** The consistency of the manager is preserved *)

Lemma wf_with_heap g h :
  wf g →
  (∀ a o, object a g = Some o →
     ∃ o', h !! a = Some o' ∧ Tank.uuid o' = Tank.uuid o
           ∧ Tank.kind o' = Tank.kind o) →
  wf (with_heap h g).
Proof.
  intros [Hk Hu Hn Hp Hpk Hpu] Hh. split; try done.
  - intros u a Hg. destruct (Hu u a Hg) as (o & Ho & Huo).
    destruct (Hh a o Ho) as (o' & Ho' & Hu' & _). exists o'.
    split; [done|congruence].
  - intros u a Hg. destruct (Hn u a Hg) as (Hget & o & Ho & Hko).
    split; [done|].
    destruct (Hh a o Ho) as (o' & Ho' & _ & Hk'). exists o'.
    split; [done|congruence].
  - intros u a o' Hg Ho' Hk'. destruct (Hu u a Hg) as (o & Ho & Huo).
    destruct (Hh a o Ho) as (o'' & Ho'' & _ & Hk'').
    apply (Hp u a o Hg Ho). unfold object in Ho'. cbn in Ho'. congruence.
Qed.

Lemma wf_alloc g o : wf g → wf (state_of (alloc o g)).
Proof.
  intros Hg. apply wf_with_heap; [done|]. intros a o' Ho'. exists o'.
  split; [|done]. by apply lookup_app_l_Some.
Qed.

Lemma wf_on_object g a f :
  wf g →
  (∀ o, Tank.uuid (f o).1 = Tank.uuid o ∧ Tank.kind (f o).1 = Tank.kind o) →
  wf (state_of (on_object a f g)).
Proof.
  intros Hg Hf. destruct (object a g) as [o|] eqn:Ho.
  - rewrite (on_object_eq a f g o Ho). apply wf_with_heap; [done|].
    intros a' o' Ho'. destruct (decide (a' = a)) as [->|Hne].
    + exists (f o).1. destruct (Hf o) as [? ?].
      assert (o' = o) as -> by congruence.
      split; [|done]. apply list_lookup_insert_eq.
      by apply lookup_lt_Some in Ho.
    + exists o'. split; [|done]. by rewrite list_lookup_insert_ne.
  - unfold on_object. run_binds. cbn. by rewrite Ho.
Qed.

Lemma wf_delete g uuid : wf g → wf (state_of (TankManager_delete uuid g)).
Proof.
  intros [Hk Hu Hn Hp Hpk Hpu]. rewrite TankManager_delete_eq.
  split; try done.
  - by apply JsMap.keys_delete_NoDup.
  - intros u a. unfold get. cbn. destruct (decide (uuid = u)) as [->|Hne].
    + by rewrite JsMap.get_delete_eq.
    + rewrite JsMap.get_delete_ne by done. apply Hu.
  - intros u a. unfold get, getNetwork. cbn.
    destruct (decide (uuid = u)) as [->|Hne].
    + by rewrite JsMap.get_delete_eq.
    + rewrite !JsMap.get_delete_ne by done. apply Hn.
  - intros u a o. unfold get, getNetwork. cbn.
    destruct (decide (uuid = u)) as [->|Hne].
    + by rewrite JsMap.get_delete_eq.
    + rewrite !JsMap.get_delete_ne by done. apply Hp.
Qed.

Lemma wf_remove g a : wf g → wf (state_of (TankManager_remove a g)).
Proof.
  intros Hg. unfold TankManager_remove. rewrite state_bind. cbn.
  destruct (object a g); [by apply wf_delete|done].
Qed.

Lemma TankManager_add_state a g o :
  object a g = Some o →
  state_of (TankManager_add a g)
  = if JsMap.has (Tank.uuid o) (entries (tanks g)) then g
    else with_entries (JsMap.set (Tank.uuid o) a (entries (tanks g)))
           (if decide (Tank.kind o = Tank.KTankNetwork)
            then with_networkTanks
                   (JsMap.set (Tank.uuid o) a (networkTanks (tanks g))) g
            else g).
Proof.
  intros Ho. unfold TankManager_add, TankManager_set. run_binds. cbn.
  rewrite Ho. cbn.
  destruct (JsMap.has (Tank.uuid o) (entries (tanks g))); [done|].
  rewrite Ho. by destruct (decide (Tank.kind o = Tank.KTankNetwork)).
Qed.

Lemma wf_add g a : wf g → wf (state_of (TankManager_add a g)).
Proof.
  intros Hg. destruct (object a g) as [o|] eqn:Ho;
    [|by unfold TankManager_add; run_binds; cbn; rewrite Ho].
  rewrite (TankManager_add_state a g o Ho).
  destruct (JsMap.has (Tank.uuid o) (entries (tanks g))) eqn:Hhas; [done|].
  assert (Hnone : get (Tank.uuid o) g = None).
  { unfold JsMap.has in Hhas. unfold get.
    by destruct (JsMap.get (Tank.uuid o) (entries (tanks g))). }
  destruct Hg as [Hk Hu Hn Hp Hpk Hpu].
  destruct (decide (Tank.kind o = Tank.KTankNetwork)) as [Hkind|Hkind];
    (split; [by apply JsMap.keys_set_NoDup| | | |done|done]);
    unfold get, getNetwork, object in *; cbn.
  - intros u a'. destruct (decide (Tank.uuid o = u)) as [<-|Hne].
    + rewrite JsMap.get_set_eq. intros [= <-]. eauto.
    + rewrite JsMap.get_set_ne by done. apply Hu.
  - intros u a'. destruct (decide (Tank.uuid o = u)) as [<-|Hne].
    + rewrite !JsMap.get_set_eq. intros [= <-]. eauto.
    + rewrite !JsMap.get_set_ne by done. apply Hn.
  - intros u a' o'. destruct (decide (Tank.uuid o = u)) as [<-|Hne].
    + by rewrite !JsMap.get_set_eq.
    + rewrite !JsMap.get_set_ne by done. apply Hp.
  - intros u a'. destruct (decide (Tank.uuid o = u)) as [<-|Hne].
    + rewrite JsMap.get_set_eq. intros [= <-]. eauto.
    + rewrite JsMap.get_set_ne by done. apply Hu.
  - intros u a' Hnet. destruct (Hn u a' Hnet) as [Hget Hobj].
    split; [|done]. rewrite JsMap.get_set_ne; [done|]. congruence.
  - intros u a' o'. destruct (decide (Tank.uuid o = u)) as [<-|Hne].
    + rewrite JsMap.get_set_eq. intros [= <-] Ho'. congruence.
    + rewrite JsMap.get_set_ne by done. apply Hp.
Qed.

(** *** One buffered snapshot *)

Lemma apply_snapshot_known now u d g a o :
  getNetwork u g = Some a → object a g = Some o →
  state_of (apply_snapshot now (u, d) g)
  = with_heap (<[a := (Tank.networkUpdate d now o).1]> (heap g)) g.
Proof.
  intros Hn Ho. unfold apply_snapshot. rewrite state_bind. cbn -[on_object].
  rewrite Hn. by rewrite (on_object_eq a _ g o Ho).
Qed.

Lemma apply_snapshot_unknown now u d g :
  getNetwork u g = None →
  let fresh := Tank.new Tank.KTankNetwork (Tank.snap_uuid d) in
  let a := length (heap g) in
  let g1 := state_of (TankManager_add a (with_heap (heap g ++ [fresh]) g)) in
  state_of (apply_snapshot now (u, d) g)
  = with_heap (<[a := (Tank.networkUpdate d now fresh).1]> (heap g1)) g1
  ∧ heap g1 = heap g ++ [fresh].
Proof.
  intros Hn fresh a g1.
  assert (Hobj : object a (with_heap (heap g ++ [fresh]) g) = Some fresh).
  { unfold object. cbn. by rewrite lookup_app_r, Nat.sub_diag. }
  assert (Hheap : heap g1 = heap g ++ [fresh]).
  { subst g1. rewrite (TankManager_add_state a _ fresh Hobj).
    destruct (JsMap.has _ _); [done|]. by destruct (decide _). }
  split; [|done].
  unfold apply_snapshot. rewrite state_bind. cbn -[on_object TankManager_add].
  rewrite Hn. rewrite !state_bind. cbn -[on_object TankManager_add].
  fold fresh a g1.
  assert (Hobj1 : object a g1 = Some fresh).
  { unfold object. rewrite Hheap. by rewrite lookup_app_r, Nat.sub_diag. }
  by rewrite (on_object_eq a _ g1 fresh Hobj1).
Qed.

Lemma wf_apply_snapshot now entry g :
  wf g → wf (state_of (apply_snapshot now entry g)).
Proof.
  intros Hg. destruct entry as [u d].
  unfold apply_snapshot. rewrite state_bind. cbn -[on_object TankManager_add].
  destruct (getNetwork u g) as [a|].
  - apply wf_on_object; [done|]. intros o.
    destruct (Tank.networkUpdate_identity d now o) as (? & ? & _). done.
  - rewrite !state_bind. cbn -[on_object TankManager_add].
    apply wf_on_object.
    + apply wf_add. by apply (wf_alloc g).
    + intros o.
      destruct (Tank.networkUpdate_identity d now o) as (? & ? & _). done.
Qed.

(** A snapshot filed under [u] leaves what is registered under another
    uuid as it was. *)
Lemma apply_snapshot_other now u d g u' :
  wf g → Tank.snap_uuid d = u → u' ≠ u →
  let g' := state_of (apply_snapshot now (u, d) g) in
  get u' g' = get u' g ∧ getNetwork u' g' = getNetwork u' g
  ∧ ∀ a, get u' g = Some a → object a g' = object a g.
Proof.
  intros Hg Hd Hne g'. subst g'.
  destruct (getNetwork u g) as [a|] eqn:Hn.
  - destruct (wf_network g Hg u a Hn) as (Hget & o & Ho & Hk).
    rewrite (apply_snapshot_known now u d g a o Hn Ho).
    split_and!; [done..|]. intros a' Hget'. unfold object. cbn.
    apply list_lookup_insert_ne. intros <-.
    destruct (wf_uuid g Hg u a Hget) as (o1 & Ho1 & Hu1).
    destruct (wf_uuid g Hg u' a Hget') as (o2 & Ho2 & Hu2).
    congruence.
  - destruct (apply_snapshot_unknown now u d g Hn) as [-> Hheap].
    set (fresh := Tank.new Tank.KTankNetwork (Tank.snap_uuid d)) in *.
    set (a := length (heap g)) in *.
    assert (Hobj : object a (with_heap (heap g ++ [fresh]) g) = Some fresh).
    { unfold object. cbn. by rewrite lookup_app_r, Nat.sub_diag. }
    rewrite (TankManager_add_state a _ fresh Hobj) in *.
    change (Tank.uuid fresh) with (Tank.snap_uuid d) in *. rewrite Hd in *.
    assert (Hold : ∀ a', get u' g = Some a' →
      <[a := (Tank.networkUpdate d now fresh).1]> (heap g ++ [fresh]) !! a'
      = heap g !! a').
    { intros a' Hget'. destruct (wf_uuid g Hg u' a' Hget') as (o' & Ho' & _).
      apply lookup_lt_Some in Ho' as Hlt.
      rewrite list_lookup_insert_ne by (subst a; lia).
      by apply lookup_app_l. }
    cbn [entries tanks with_heap] in *.
    destruct (JsMap.has u (entries (tanks g))).
    + split_and!; [done..|]. intros a' Hget'. unfold object. cbn.
      by apply Hold.
    + rewrite (decide_True (P := Tank.kind fresh = Tank.KTankNetwork))
        by done.
      unfold get, getNetwork, object. cbn.
      rewrite !JsMap.get_set_ne by done.
      split_and!; [done..|]. intros a' Hget'. by apply Hold.
Qed.

(** A snapshot filed under [u], when no local tank has that uuid: the
    proxy registered under [u] afterwards is the old one, or a new one,
    with the snapshot applied. *)
Lemma apply_snapshot_self now u d g :
  wf g → Tank.snap_uuid d = u → no_local u g →
  let g' := state_of (apply_snapshot now (u, d) g) in
  ∃ a, get u g' = Some a ∧ getNetwork u g' = Some a
       ∧ object a g' = Some (Tank.networkUpdate d now (proxy_base u g)).1.
Proof.
  intros Hg Hd Hlocal g'. subst g'. unfold proxy_base.
  destruct (getNetwork u g) as [a|] eqn:Hn.
  - destruct (wf_network g Hg u a Hn) as (Hget & o & Ho & Hk).
    rewrite (apply_snapshot_known now u d g a o Hn Ho). cbn. rewrite Ho.
    exists a. split_and!; [done..|]. unfold object. cbn.
    apply list_lookup_insert_eq. by apply lookup_lt_Some in Ho.
  - destruct (apply_snapshot_unknown now u d g Hn) as [-> Hheap].
    set (fresh := Tank.new Tank.KTankNetwork (Tank.snap_uuid d)) in *.
    set (a := length (heap g)) in *.
    assert (Hobj : object a (with_heap (heap g ++ [fresh]) g) = Some fresh).
    { unfold object. cbn. by rewrite lookup_app_r, Nat.sub_diag. }
    rewrite (TankManager_add_state a _ fresh Hobj) in *.
    change (Tank.uuid fresh) with (Tank.snap_uuid d) in *. rewrite Hd in *.
    assert (Hnone : get u g = None).
    { destruct (get u g) as [a'|] eqn:Hget; [|done].
      destruct (wf_uuid g Hg u a' Hget) as (o' & Ho' & _).
      pose proof (wf_proxies g Hg u a' o' Hget Ho' (Hlocal a' o' Hget Ho')).
      congruence. }
    cbn [entries tanks with_heap] in *.
    unfold JsMap.has. unfold get in Hnone. rewrite Hnone.
    rewrite (decide_True (P := Tank.kind fresh = Tank.KTankNetwork))
      by done.
    exists a. unfold get, getNetwork, object. cbn.
    rewrite !JsMap.get_set_eq. split_and!; [done..|].
    subst fresh. rewrite Hd. apply list_lookup_insert_eq.
    rewrite length_app. cbn. lia.
Qed.

(** *** The 100 ms loop *)

Lemma wf_forEach {A} (f : A → M unit) (l : list A) g :
  (∀ x g, wf g → wf (state_of (f x g))) →
  wf g → wf (state_of (forEach l f g)).
Proof.
  intros Hf. revert g. induction l as [|x l IH]; intros g Hg; [done|].
  rewrite state_forEach_cons. by apply IH, Hf.
Qed.

Lemma proxy_base_other now u d g u' :
  wf g → Tank.snap_uuid d = u → u' ≠ u →
  proxy_base u' (state_of (apply_snapshot now (u, d) g)) = proxy_base u' g
  ∧ (no_local u' g → no_local u' (state_of (apply_snapshot now (u, d) g))).
Proof.
  intros Hg Hd Hne.
  destruct (apply_snapshot_other now u d g u' Hg Hd Hne) as (H1 & H2 & H3).
  split.
  - unfold proxy_base. rewrite H2.
    destruct (getNetwork u' g) as [a|] eqn:Hn; [|done].
    destruct (wf_network g Hg u' a Hn) as (Hget & _).
    cbn [mbind option_bind]. by rewrite (H3 a Hget).
  - intros Hlocal a o. rewrite H1. intros Hget. rewrite (H3 a Hget).
    by apply Hlocal.
Qed.

Lemma tick_loop now (P : list (string * Tank.Snapshot)) g :
  wf g → NoDup (JsMap.keys P) →
  (∀ u d, (u, d) ∈ P → Tank.snap_uuid d = u) →
  let g' := state_of (forEach P (apply_snapshot now) g) in
  (∀ u, u ∉ JsMap.keys P →
     get u g' = get u g ∧ getNetwork u g' = getNetwork u g
     ∧ ∀ a, get u g = Some a → object a g' = object a g)
  ∧ (∀ u d, (u, d) ∈ P → no_local u g →
       ∃ a, get u g' = Some a ∧ getNetwork u g' = Some a
            ∧ object a g'
              = Some (Tank.networkUpdate d now (proxy_base u g)).1).
Proof.
  revert g. induction P as [|[u1 d1] P IH]; intros g Hg Hnd Hkey.
  - cbn. split; [done|]. by intros u d ?%elem_of_nil.
  - unfold JsMap.keys in Hnd. rewrite fmap_cons in Hnd.
    apply NoDup_cons in Hnd as [Hu1 Hnd]. cbn [fst] in Hu1.
    assert (Hd1 : Tank.snap_uuid d1 = u1) by (apply Hkey; left).
    cbn zeta. rewrite state_forEach_cons.
    set (g1 := state_of (apply_snapshot now (u1, d1) g)).
    assert (Hg1 : wf g1) by by apply wf_apply_snapshot.
    destruct (IH g1 Hg1 Hnd) as [IHa IHb].
    { intros u d Hin. apply Hkey. by right. }
    assert (Hother : ∀ u, u ∉ JsMap.keys ((u1, d1) :: P) →
      get u (state_of (forEach P (apply_snapshot now) g1)) = get u g
      ∧ getNetwork u (state_of (forEach P (apply_snapshot now) g1))
        = getNetwork u g
      ∧ ∀ a, get u g = Some a →
          object a (state_of (forEach P (apply_snapshot now) g1))
          = object a g).
    { intros u Hu. unfold JsMap.keys in Hu. rewrite fmap_cons in Hu.
      apply not_elem_of_cons in Hu as [Hne Hu]. cbn in Hne.
      destruct (IHa u Hu) as (H1 & H2 & H3).
      destruct (apply_snapshot_other now u1 d1 g u Hg Hd1 Hne)
        as (H4 & H5 & H6). fold g1 in H4, H5, H6.
      rewrite H1, H2, H4, H5. split_and!; [done..|].
      intros a Hget. rewrite H3 by congruence. by apply H6. }
    split; [exact Hother|].
    intros u d [[= -> ->]|Hin]%elem_of_cons Hlocal.
    + destruct (apply_snapshot_self now u1 d1 g Hg Hd1 Hlocal)
        as (a & Hget & Hn & Ho). fold g1 in Hget, Hn, Ho.
      destruct (IHa u1 Hu1) as (H1 & H2 & H3).
      exists a. rewrite H1, H2, (H3 a Hget). done.
    + assert (Hne : u ≠ u1).
      { intros ->. apply Hu1. apply list_elem_of_fmap. by exists (u1, d). }
      destruct (proxy_base_other now u1 d1 g u Hg Hd1 Hne) as [Hb Hl].
      fold g1 in Hb, Hl. rewrite <-Hb. apply IHb; [done|]. by apply Hl.
Qed.

Lemma tick_state now g :
  state_of (tick now g)
  = with_pending [] (state_of (forEach (pending g) (apply_snapshot now) g)).
Proof.
  unfold tick. rewrite state_bind. cbn -[forEach apply_snapshot].
  rewrite state_bind.
  assert (Hsend : state_of
    (match player_object g with
     | Some p => tell (ChannelSend "update" (Tank.export p))
     | None => skip
     end g) = g) by by destruct (player_object g).
  rewrite Hsend. by rewrite state_bind.
Qed.

Lemma wf_with_pending g l :
  wf g → NoDup (JsMap.keys l) →
  (∀ u d, JsMap.get u l = Some d → Tank.snap_uuid d = u) →
  wf (with_pending l g).
Proof. intros [Hk Hu Hn Hp Hpk Hpu] Hl1 Hl2. by split. Qed.

Lemma wf_tick now g : wf g → wf (state_of (tick now g)).
Proof.
  intros Hg. rewrite tick_state. apply wf_with_pending.
  - apply wf_forEach; [|done]. intros x g0. apply wf_apply_snapshot.
  - apply NoDup_nil_2.
  - done.
Qed.

Lemma wf_on_update data g : wf g → wf (state_of (on_update data g)).
Proof.
  intros Hg. unfold on_update. rewrite state_bind. cbn.
  destruct (player_object g) as [p|]; [|done].
  destruct (decide (Tank.snap_uuid data = Tank.uuid p)); [done|].
  apply wf_with_pending; [done| |].
  - apply JsMap.keys_set_NoDup, Hg.
  - intros u d. destruct (decide (Tank.snap_uuid data = u)) as [<-|Hne].
    + rewrite JsMap.get_set_eq. by intros [= <-].
    + rewrite JsMap.get_set_ne by done. apply Hg.
Qed.

Lemma wf_visit now delta entry g :
  wf g → wf (state_of (visit now delta entry g)).
Proof.
  intros Hg. destruct entry as [key a]. unfold visit.
  rewrite state_bind. cbn -[TankManager_remove].
  destruct (decide (get key g = Some a)); [|done].
  destruct (object a g) as [entity|]; [|done].
  rewrite state_bind. cbn -[TankManager_remove].
  destruct (stale now delta entity); [|done].
  rewrite state_bind. by apply wf_remove.
Qed.

Lemma wf_controller_update keys g :
  wf g → wf (state_of (controller_update keys g)).
Proof.
  intros Hg. unfold controller_update. rewrite state_bind. cbn -[on_object].
  destruct (player g); [|done]. apply wf_on_object; [done|].
  intros o. by destruct (PlayerController.update_identity keys o).
Qed.

(** The controller changes one object only, the player's, and neither
    its identity nor its health or timestamps. *)
Lemma controller_update_state keys g :
  let g1 := state_of (controller_update keys g) in
  tanks g1 = tanks g ∧ pending g1 = pending g ∧ player g1 = player g
  ∧ ∀ a o, object a g = Some o →
      ∃ o', object a g1 = Some o' ∧ PlayerController.same_identity o o'
            ∧ (player g ≠ Some a → o' = o).
Proof.
  unfold controller_update. rewrite state_bind. cbn -[on_object].
  destruct (player g) as [p|] eqn:Hp; cycle 1.
  { split_and!; [done..|]. intros a o Ho. exists o.
    split_and!; [done| |done]. apply PlayerController.same_identity_refl. }
  destruct (object p g) as [op|] eqn:Hop; cycle 1.
  { assert (Hskip : state_of (on_object p (PlayerController.update keys) g)
                    = g).
    { unfold on_object. run_binds. cbn. by rewrite Hop. }
    rewrite Hskip. split_and!; [done..|]. intros a o Ho. exists o.
    split_and!; [done| |done]. apply PlayerController.same_identity_refl. }
  rewrite (on_object_eq p _ g op Hop). cbn [state_of fst snd].
  split_and!; [done..|]. intros a o Ho. unfold object. cbn.
  destruct (decide (a = p)) as [->|Hne].
  - exists (PlayerController.update keys op).1.
    rewrite list_lookup_insert_eq by (by apply lookup_lt_Some in Hop).
    assert (o = op) as -> by congruence.
    split_and!; [done| |congruence].
    apply PlayerController.update_identity.
  - exists o. rewrite list_lookup_insert_ne by done.
    split_and!; [done| |done]. apply PlayerController.same_identity_refl.
Qed.

Lemma wf_update now delta keys g :
  wf g → wf (state_of (update now delta keys g)).
Proof.
  intros Hg. unfold update. rewrite !state_bind.
  cbn -[forEach visit controller_update].
  apply wf_forEach; [|by apply wf_controller_update].
  intros x g0. apply wf_visit.
Qed.

Lemma wf_respawn uuid metadata g :
  wf g → wf (state_of (respawn uuid metadata g)).
Proof.
  intros Hg. unfold respawn.
  rewrite state_bind. cbn -[TankManager_remove TankManager_add on_object alloc].
  rewrite state_bind.
  set (g1 := state_of (match player g with
                       | Some old => TankManager_remove old;; skip
                       | None => skip
                       end g)).
  assert (Hg1 : wf g1).
  { subst g1. destruct (player g); [|done].
    rewrite state_bind. by apply wf_remove. }
  rewrite state_bind.
  set (g2 := state_of (alloc (Tank.new Tank.KTankPlayer uuid) g1)).
  assert (Hg2 : wf g2) by by apply wf_alloc.
  rewrite !state_bind. cbn -[TankManager_add on_object alloc g2].
  apply wf_add. apply wf_on_object.
  - destruct Hg2 as [Hk Hu Hn Hp Hpk Hpu]. by split.
  - intros o. destruct (Tank.import_identity
      {| Tank.p_pseudo := ServerNetwork.Metadata.name <$> metadata;
         Tank.p_type := ServerNetwork.Metadata.tank <$> metadata;
         Tank.p_turretAngle := None; Tank.p_canonAngle := None;
         Tank.p_steering := None; Tank.p_engineForce := None;
         Tank.p_breakingForce := None; Tank.p_headlights := None;
         Tank.p_health := None |} o) as (? & ? & _). done.
Qed.

Lemma wf_handle e g : wf g → wf (state_of (handle e g)).
Proof.
  destruct e; cbn [handle];
    auto using wf_respawn, wf_on_update, wf_tick, wf_update.
Qed.

Lemma wf_run events g : wf g → wf (state_of (run events g)).
Proof. apply wf_forEach. intros e g0. apply wf_handle. Qed.

Lemma wf_new : wf new.
Proof. split; try done; apply NoDup_nil_2. Qed.

(** *** Staleness eviction *)

Lemma evicted_iff now delta h (l : list (string * addr)) u a :
  NoDup (JsMap.keys l) → JsMap.get u l = Some a →
  u ∈ evicted now delta h l ↔ stale_at now delta h a = true.
Proof.
  intros Hnd Hget. unfold evicted. rewrite list_elem_of_fmap. split.
  - intros ([u' a'] & -> & [Hs Hin]%list_elem_of_filter).
    cbn in *. apply (JsMap.elem_get _ _ _ Hnd) in Hin. congruence.
  - intros Hs. exists (u, a). split; [done|].
    apply list_elem_of_filter. split; [done|]. by apply JsMap.get_Some_elem.
Qed.

Lemma stale_iff now delta entity :
  stale now delta entity = true
  ↔ Tank.kind entity = Tank.KTankNetwork
    ∧ now - Tank.lastUpdate entity > 5000 + delta.
Proof.
  unfold stale. rewrite andb_true_iff, !bool_decide_eq_true.
  split; intros [? ?]; (split; [done|lia]).
Qed.

Lemma stale_same now delta o o' :
  PlayerController.same_identity o o' → stale now delta o' = stale now delta o.
Proof. intros [_ Hk _ Hl _]. unfold stale. by rewrite Hk, Hl. Qed.

(** The iteration of [update] over a consistent manager. *)
Lemma visit_all now delta g u a o :
  wf g → get u g = Some a → object a g = Some o →
  let g' := state_of (forEach (entries (tanks g)) (visit now delta) g) in
  get u g' = (if stale now delta o then None else Some a)
  ∧ getNetwork u g'
    = (if stale now delta o then None else getNetwork u g)
  ∧ heap g' = heap g ∧ player g' = player g ∧ pending g' = pending g.
Proof.
  intros Hg Hget Ho.
  destruct (update_loop now delta (entries (tanks g)) g)
    as (Hh & Hpe & Hpl & Hu).
  { apply Hg. }
  { intros k a' Hin.
    assert (Hk : get k g = Some a') by (apply JsMap.elem_get; [apply Hg|done]).
    split; [done|]. by apply (wf_uuid g Hg). }
  destruct (Hu u) as [Hu1 Hu2]. cbn zeta. rewrite Hu1, Hu2.
  pose proof (evicted_iff now delta (heap g) (entries (tanks g)) u a
                (wf_keys g Hg) Hget) as Hev.
  assert (Hsa : stale_at now delta (heap g) a = stale now delta o).
  { unfold stale_at. change (heap g !! a) with (object a g). by rewrite Ho. }
  rewrite Hsa in Hev.
  destruct (decide (u ∈ evicted now delta (heap g) (entries (tanks g))))
    as [Hin|Hin].
  - apply Hev in Hin. by rewrite Hin.
  - destruct (stale now delta o); [|done]. destruct Hin. by apply Hev.
Qed.

(** C4. In a step of [update] at clock [now] with step duration [delta],
    the tank registered under [u] is taken out of the manager exactly when
    it is a proxy ([TankNetwork]) and
    [now - lastUpdate > 5000 + delta]; a proxy that is not stale, and any
    tank that is not a proxy, stays registered at its address. Its object
    is untouched unless it is the tank the controller drives, which keeps
    its uuid, class, health and timestamps. *)
Theorem staleness_eviction (g : t) (now delta : Z)
    (keys : PlayerController.Controls) (u : string) (a : addr)
    (entity : Tank.t) :
  wf g → get u g = Some a → object a g = Some entity →
  let g' := state_of (update now delta keys g) in
  (get u g' = None
   ↔ Tank.kind entity = Tank.KTankNetwork
     ∧ now - Tank.lastUpdate entity > 5000 + delta)
  ∧ (Tank.kind entity = Tank.KTankNetwork →
     (getNetwork u g' = None ↔ now - Tank.lastUpdate entity > 5000 + delta))
  ∧ (get u g' = None
     ∨ (get u g' = Some a
        ∧ (player g ≠ Some a → object a g' = Some entity)
        ∧ ∃ entity', object a g' = Some entity'
                     ∧ PlayerController.same_identity entity entity')).
Proof.
  intros Hg Hget Ho g'. subst g'.
  unfold update. rewrite !state_bind. cbn -[forEach visit controller_update].
  pose proof (wf_controller_update keys g Hg) as Hg1.
  destruct (controller_update_state keys g) as (Ht & _ & _ & Hobj).
  set (g1 := state_of (controller_update keys g)) in *.
  destruct (Hobj a entity Ho) as (entity' & Ho' & Hsame & Hother).
  assert (Hget1 : get u g1 = Some a) by (unfold get; by rewrite Ht).
  destruct (visit_all now delta g1 u a entity' Hg1 Hget1 Ho')
    as (H1 & H2 & H3 & _).
  rewrite H1, H2. rewrite (stale_same now delta entity entity' Hsame).
  pose proof (stale_iff now delta entity) as Hst.
  destruct (stale now delta entity).
  - destruct Hst as [Hst _]. destruct (Hst eq_refl) as [Hk Hlt].
    split_and!; [done| |by left]. by intros _.
  - assert (Hfresh : ¬ (Tank.kind entity = Tank.KTankNetwork
                        ∧ now - Tank.lastUpdate entity > 5000 + delta)).
    { intros H. by apply Hst in H. }
    split_and!.
    + split; [done|]. by intros H.
    + intros Hkind.
      assert (Hnet : getNetwork u g1 = Some a).
      { apply (wf_proxies g1 Hg1 u a entity' Hget1 Ho').
        destruct Hsame. congruence. }
      rewrite Hnet. split; [done|]. intros Hlt. destruct Hfresh. by split.
    + right. split_and!; [done| |].
      * intros Hp. unfold object. rewrite H3. rewrite <-(Hother Hp). exact Ho'.
      * exists entity'. split; [|done]. unfold object. by rewrite H3.
Qed.

Lemma staleness_eviction_witness :
  (wf scene_with_proxy ∧ get "them" scene_with_proxy = Some 1%nat
   ∧ Tank.lastUpdate <$> object 1%nat scene_with_proxy = Some 0)
  ∧ get "them"
      (state_of (update 5001 0 PlayerController.idle scene_with_proxy)) = None
  ∧ get "them"
      (state_of (update 4999 0 PlayerController.idle scene_with_proxy))
    = Some 1%nat.
Proof.
  assert (Hwf : wf scene_with_proxy) by apply wf_run, wf_new.
  assert (Hget : get "them" scene_with_proxy = Some 1%nat) by done.
  destruct (object 1%nat scene_with_proxy) as [proxy|] eqn:Hobj; [|done].
  assert (Hkind : Tank.kind proxy = Tank.KTankNetwork).
  { vm_compute in Hobj. by injection Hobj as <-. }
  assert (Hlast : Tank.lastUpdate proxy = 0).
  { vm_compute in Hobj. by injection Hobj as <-. }
  split; [by rewrite <-Hlast|].
  pose proof (staleness_eviction scene_with_proxy 5001 0 PlayerController.idle
                "them" 1%nat proxy Hwf Hget Hobj) as (Hevict & _ & _).
  pose proof (staleness_eviction scene_with_proxy 4999 0 PlayerController.idle
                "them" 1%nat proxy Hwf Hget Hobj)
    as (Hkeep & _ & [Hnone|[Hsome _]]).
  - split; [apply Hevict; split; [done|lia]|].
    apply Hkeep in Hnone as [_ Hnone]. lia.
  - split; [apply Hevict; split; [done|lia]|done].
Defined.

(** *** Inbound replication *)

Lemma on_update_eq data g p :
  player_object g = Some p →
  on_update data g
  = ((),
     if decide (Tank.snap_uuid data = Tank.uuid p) then g
     else with_pending
            (JsMap.set (Tank.snap_uuid data) data (pending g)) g,
     []).
Proof.
  intros Hp. unfold on_update. run_binds. cbn. rewrite Hp.
  by destruct (decide (Tank.snap_uuid data = Tank.uuid p)).
Qed.

(** C5. With the local player [p] in place: an [update] snapshot carrying
    the uuid of [p] is discarded; any other is filed in the buffer under
    its uuid, the other entries untouched, and a later snapshot with the
    same uuid replaces it. A processing tick empties the buffer, and for
    every buffered uuid [u] under which no local tank is registered it
    leaves a proxy registered under [u], in both maps of the manager: the
    one that was there, or a new [TankNetwork] when there was none, with
    the buffered snapshot applied by [networkUpdate]. *)
Theorem replication_inbound (g : t) (p : Tank.t) (now : Z) :
  wf g → player_object g = Some p →
  (∀ data, Tank.snap_uuid data = Tank.uuid p →
     on_update data g = ((), g, []))
  ∧ (∀ data, Tank.snap_uuid data ≠ Tank.uuid p →
       let g1 := state_of (on_update data g) in
       pending g1 = JsMap.set (Tank.snap_uuid data) data (pending g)
       ∧ JsMap.get (Tank.snap_uuid data) (pending g1) = Some data
       ∧ (∀ u, u ≠ Tank.snap_uuid data →
            JsMap.get u (pending g1) = JsMap.get u (pending g))
       ∧ heap g1 = heap g ∧ tanks g1 = tanks g ∧ player g1 = player g)
  ∧ (∀ d1 d2, Tank.snap_uuid d1 = Tank.snap_uuid d2 →
       Tank.snap_uuid d2 ≠ Tank.uuid p →
       JsMap.get (Tank.snap_uuid d2)
         (pending (state_of (run [Receive d1; Receive d2] g)))
       = Some d2)
  ∧ (let g' := state_of (tick now g) in
     pending g' = []
     ∧ ∀ u d, JsMap.get u (pending g) = Some d → no_local u g →
         ∃ a, getNetwork u g' = Some a ∧ get u g' = Some a
              ∧ object a g'
                = Some (Tank.networkUpdate d now (proxy_base u g)).1).
Proof.
  intros Hg Hp. split_and!.
  - intros data Hd. rewrite (on_update_eq data g p Hp).
    by rewrite decide_True.
  - intros data Hd g1. subst g1. rewrite (on_update_eq data g p Hp).
    rewrite decide_False by done. cbn.
    split_and!; try done.
    + apply JsMap.get_set_eq.
    + intros u Hu. by apply JsMap.get_set_ne.
  - intros d1 d2 Heq Hd2. unfold run.
    rewrite !state_forEach_cons. cbn [forEach handle state_of fst snd].
    rewrite (on_update_eq d1 g p Hp).
    rewrite decide_False by congruence. cbn [fst snd].
    rewrite (on_update_eq d2 _ p) by done.
    rewrite decide_False by done. cbn. apply JsMap.get_set_eq.
  - intros g'. subst g'. rewrite tick_state. split; [done|].
    intros u d Hget Hlocal.
    destruct (tick_loop now (pending g) g Hg (wf_pending_keys g Hg))
      as [_ Hloop].
    { intros u' d' Hin. apply (wf_pending g Hg).
      apply JsMap.elem_get; [apply Hg|done]. }
    destruct (Hloop u d (JsMap.get_Some_elem _ _ _ Hget) Hlocal)
      as (a & H1 & H2 & H3).
    exists a. done.
Qed.

Lemma replication_inbound_witness :
  (wf scene_with_snapshot
   ∧ player_object scene_with_snapshot
     = Some (Tank.new Tank.KTankPlayer "me"))
  ∧ pending (state_of (tick 0 scene_with_snapshot)) = []
  ∧ ∃ a, getNetwork "them" (state_of (tick 0 scene_with_snapshot)) = Some a
         ∧ get "them" (state_of (tick 0 scene_with_snapshot)) = Some a
         ∧ Tank.get_health <$> object a (state_of (tick 0 scene_with_snapshot))
           = Some 80.
Proof.
  assert (Hwf : wf scene_with_snapshot) by apply wf_run, wf_new.
  assert (Hp : player_object scene_with_snapshot
               = Some (Tank.new Tank.KTankPlayer "me")) by done.
  split; [done|].
  destruct (replication_inbound scene_with_snapshot _ 0 Hwf Hp)
    as (_ & _ & _ & Hempty & Htick).
  split; [exact Hempty|].
  destruct (Htick "them" snapshot_of_them) as (a & H1 & H2 & H3); [done| |].
  { intros a o Hget. by vm_compute in Hget. }
  exists a. split_and!; [done..|]. by rewrite H3.
Defined.

(** *** Further properties of the manager *)

Lemma TankManager_add_eq a g o :
  object a g = Some o →
  TankManager_add a g
  = ((), state_of (TankManager_add a g),
     if JsMap.has (Tank.uuid o) (entries (tanks g)) then []
     else [EmitAdd a]).
Proof.
  intros Ho. unfold TankManager_add, TankManager_set. run_binds. cbn.
  rewrite Ho. cbn.
  destruct (JsMap.has (Tank.uuid o) (entries (tanks g))); [done|].
  rewrite Ho. by destruct (decide (Tank.kind o = Tank.KTankNetwork)).
Qed.

(** X10. [add(tank)] registers a tank under its uuid only if that uuid is
    free. If it is taken, the manager is unchanged, no [add] event is
    emitted and the tank already there stays. If it is free, the tank is
    registered under it, [getNetwork] finds it exactly when it is a
    [TankNetwork], one [add] event is emitted and the other uuids are
    untouched. *)
Theorem add_first_wins (g : t) (a : addr) (o : Tank.t) :
  wf g → object a g = Some o →
  let r := TankManager_add a g in
  (∀ b, get (Tank.uuid o) g = Some b →
     state_of r = g ∧ effects_of r = [])
  ∧ (get (Tank.uuid o) g = None →
       get (Tank.uuid o) (state_of r) = Some a
       ∧ getNetwork (Tank.uuid o) (state_of r)
         = (if decide (Tank.kind o = Tank.KTankNetwork) then Some a
            else None)
       ∧ effects_of r = [EmitAdd a]
       ∧ ∀ u, u ≠ Tank.uuid o →
           get u (state_of r) = get u g
           ∧ getNetwork u (state_of r) = getNetwork u g).
Proof.
  intros Hg Ho r. subst r. rewrite (TankManager_add_eq a g o Ho).
  cbn [state_of effects_of fst snd].
  rewrite (TankManager_add_state a g o Ho). unfold JsMap.has, get.
  split.
  - intros b Hb. by rewrite Hb.
  - intros Hnone. rewrite Hnone.
    assert (Hnet : getNetwork (Tank.uuid o) g = None).
    { destruct (getNetwork (Tank.uuid o) g) as [b|] eqn:Hb; [|done].
      destruct (wf_network g Hg _ _ Hb) as [Hget _].
      unfold get in Hget. congruence. }
    unfold getNetwork in *.
    destruct (decide (Tank.kind o = Tank.KTankNetwork)); cbn.
    + rewrite !JsMap.get_set_eq. split_and!; [done..|].
      intros u Hu. by rewrite !JsMap.get_set_ne.
    + rewrite !JsMap.get_set_eq. split_and!; [done..|].
      intros u Hu. by rewrite !JsMap.get_set_ne.
Qed.

Lemma add_first_wins_witness :
  (wf scene_with_proxy
   ∧ object 1%nat scene_with_proxy
     = Some (Tank.networkUpdate snapshot_of_them 0
               (Tank.new Tank.KTankNetwork "them")).1)
  ∧ TankManager_add 1%nat scene_with_proxy = ((), scene_with_proxy, []).
Proof.
  assert (Hwf : wf scene_with_proxy) by apply wf_run, wf_new.
  assert (Ho : object 1%nat scene_with_proxy
    = Some (Tank.networkUpdate snapshot_of_them 0
              (Tank.new Tank.KTankNetwork "them")).1) by done.
  split; [done|].
  destruct (add_first_wins scene_with_proxy 1%nat _ Hwf Ho) as [Htaken _].
  destruct (Htaken 1%nat eq_refl) as [Hs He].
  destruct (TankManager_add 1%nat scene_with_proxy) as [[[] g'] out].
  cbn in Hs, He. by subst.
Defined.

(** X11. [delete(uuid)] returns whether a tank was registered under the
    uuid; afterwards neither map has the uuid, the other uuids and the
    objects are untouched. A registered tank is destroyed and announced in
    one [remove] event; for a uuid that is not registered nothing is
    emitted and the entries are unchanged. *)
Theorem delete_unregisters (g : t) (uuid : string) :
  let r := TankManager_delete uuid g in
  r.1.1 = bool_decide (is_Some (get uuid g))
  ∧ get uuid (state_of r) = None ∧ getNetwork uuid (state_of r) = None
  ∧ (∀ u, u ≠ uuid →
       get u (state_of r) = get u g
       ∧ getNetwork u (state_of r) = getNetwork u g)
  ∧ heap (state_of r) = heap g
  ∧ effects_of r
    = match get uuid g with
      | Some tank => [Destroy tank; EmitRemove [tank]]
      | None => []
      end
  ∧ (get uuid g = None →
       entries (tanks (state_of r)) = entries (tanks g)).
Proof.
  intros r. subst r. rewrite TankManager_delete_eq.
  cbn [state_of effects_of fst snd]. unfold get, getNetwork, JsMap.has. cbn.
  split_and!.
  - by destruct (JsMap.get uuid (entries (tanks g))).
  - apply JsMap.get_delete_eq.
  - apply JsMap.get_delete_eq.
  - intros u Hu. by rewrite !JsMap.get_delete_ne.
  - done.
  - done.
  - apply JsMap.delete_absent.
Qed.

(** X12. Registering a tank under a free uuid and removing it again
    restores both maps of the manager. *)
Theorem add_then_remove (g : t) (a : addr) (o : Tank.t) :
  wf g → object a g = Some o → get (Tank.uuid o) g = None →
  tanks (state_of (TankManager_remove a (state_of (TankManager_add a g))))
  = tanks g.
Proof.
  intros Hg Ho Hnone.
  assert (Hnet : getNetwork (Tank.uuid o) g = None).
  { destruct (getNetwork (Tank.uuid o) g) as [b|] eqn:Hb; [|done].
    destruct (wf_network g Hg _ _ Hb) as [Hget _]. congruence. }
  rewrite (TankManager_add_state a g o Ho).
  unfold JsMap.has. unfold get in Hnone. rewrite Hnone.
  set (g1 := with_entries _ _).
  assert (Ho1 : object a g1 = Some o).
  { subst g1. unfold object. cbn. by destruct (decide _). }
  unfold TankManager_remove. rewrite state_bind. cbn -[TankManager_delete].
  rewrite Ho1, TankManager_delete_eq. cbn. subst g1.
  unfold getNetwork in Hnet.
  pose proof (JsMap.delete_set (Tank.uuid o) a _ Hnone) as He.
  pose proof (JsMap.delete_set (Tank.uuid o) a _ Hnet) as Hn.
  pose proof (JsMap.delete_absent (Tank.uuid o) _ Hnet) as Hn'.
  unfold JsMap.delete in He, Hn, Hn'.
  destruct (decide (Tank.kind o = Tank.KTankNetwork)); cbn.
  - rewrite He, Hn. by destruct (tanks g).
  - rewrite He, Hn'. by destruct (tanks g).
Qed.

Lemma add_then_remove_witness :
  (wf (state_of (alloc (Tank.new Tank.KTank "dummy") scene_with_proxy))
   ∧ object 2%nat
       (state_of (alloc (Tank.new Tank.KTank "dummy") scene_with_proxy))
     = Some (Tank.new Tank.KTank "dummy")
   ∧ get "dummy"
       (state_of (alloc (Tank.new Tank.KTank "dummy") scene_with_proxy))
     = None)
  ∧ tanks (state_of (TankManager_remove 2%nat (state_of (TankManager_add 2%nat
      (state_of (alloc (Tank.new Tank.KTank "dummy") scene_with_proxy))))))
    = tanks scene_with_proxy.
Proof.
  assert (Hwf : wf (state_of (alloc (Tank.new Tank.KTank "dummy")
                                scene_with_proxy)))
    by apply wf_alloc, wf_run, wf_new.
  split; [done|].
  exact (add_then_remove _ 2%nat (Tank.new Tank.KTank "dummy") Hwf
           eq_refl eq_refl).
Defined.

(** X13. In every scene reached from the empty one by respawns, received
    snapshots, ticks and simulation steps: a tank is registered under its
    own uuid; [getNetwork(u)] returns a tank exactly when [get(u)] returns
    that tank and it is a [TankNetwork]; no uuid is registered twice; and
    every buffered snapshot is filed under the uuid it carries. *)
Theorem manager_consistent (events : list Event) :
  let g := state_of (run events new) in
  NoDup (JsMap.keys (entries (tanks g)))
  ∧ (∀ u a, get u g = Some a →
       ∃ o, object a g = Some o ∧ Tank.uuid o = u)
  ∧ (∀ u a, getNetwork u g = Some a ↔
       get u g = Some a
       ∧ ∃ o, object a g = Some o ∧ Tank.kind o = Tank.KTankNetwork)
  ∧ (∀ u d, JsMap.get u (pending g) = Some d → Tank.snap_uuid d = u).
Proof.
  intros g. assert (Hg : wf g) by apply wf_run, wf_new.
  split_and!.
  - apply Hg.
  - apply Hg.
  - intros u a. split; [apply Hg|].
    intros (Hget & o & Ho & Hk). by apply (wf_proxies g Hg u a o).
  - apply Hg.
Qed.

(** *** Further properties of the loops *)





Lemma update_get now delta keys g u a o :
  wf g → get u g = Some a → object a g = Some o →
  get u (state_of (update now delta keys g))
  = if stale now delta o then None else Some a.
Proof.
  intros Hg Hget Ho.
  unfold update. rewrite !state_bind. cbn -[forEach visit controller_update].
  pose proof (wf_controller_update keys g Hg) as Hg1.
  destruct (controller_update_state keys g) as (Ht & _ & _ & Hobj).
  set (g1 := state_of (controller_update keys g)) in *.
  destruct (Hobj a o Ho) as (o' & Ho' & Hsame & _).
  assert (Hget1 : get u g1 = Some a) by (unfold get; by rewrite Ht).
  destruct (visit_all now delta g1 u a o' Hg1 Hget1 Ho') as (H1 & _).
  rewrite H1. by rewrite (stale_same now delta o o' Hsame).
Qed.

(** X15. A snapshot resets the staleness clock of its proxy: when a
    processing tick at clock [now] applies a buffered snapshot for [u]
    (no local tank being registered under [u]), the next simulation step,
    at clock [now'] with step duration [delta], unregisters [u] exactly
    when [now' - now > 5000 + delta], whatever the age of the proxy was
    before the tick and whatever the controller reads. *)
Theorem snapshot_resets_staleness (g : t) (now now' delta : Z)
    (keys : PlayerController.Controls) (u : string) (d : Tank.Snapshot) :
  wf g → JsMap.get u (pending g) = Some d → no_local u g →
  get u (state_of (run [Tick now; Step now' delta keys] g)) = None
  ↔ now' - now > 5000 + delta.
Proof.
  intros Hg Hget Hlocal. unfold run.
  rewrite !state_forEach_cons. cbn [forEach handle].
  set (g1 := state_of (tick now g)).
  assert (Hg1 : wf g1) by by apply wf_tick.
  assert (Hproxy : ∃ a, get u g1 = Some a ∧ getNetwork u g1 = Some a
    ∧ object a g1 = Some (Tank.networkUpdate d now (proxy_base u g)).1).
  { subst g1. rewrite tick_state.
    destruct (tick_loop now (pending g) g Hg (wf_pending_keys g Hg))
      as [_ Hloop].
    { intros u' d' Hin. apply (wf_pending g Hg).
      apply JsMap.elem_get; [apply Hg|done]. }
    destruct (Hloop u d (JsMap.get_Some_elem _ _ _ Hget) Hlocal)
      as (a & H1 & H2 & H3).
    by exists a. }
  destruct Hproxy as (a & H1 & H2 & H3).
  destruct (wf_network g1 Hg1 u a H2) as (_ & o & Ho & Hk).
  rewrite H3 in Ho. injection Ho as Ho.
  destruct (Tank.networkUpdate_identity d now (proxy_base u g))
    as (_ & _ & Hlast).
  change (state_of (skip (state_of (update now' delta keys g1))))
    with (state_of (update now' delta keys g1)).
  rewrite (update_get now' delta keys g1 u a _ Hg1 H1 H3).
  pose proof (stale_iff now' delta
    (Tank.networkUpdate d now (proxy_base u g)).1) as Hst.
  rewrite Hlast in Hst. rewrite <-Ho in Hk.
  destruct (stale now' delta _).
  - split; [intros _; by apply Hst|done].
  - split; [done|]. intros Hlt.
    assert (false = true) as [=]. by apply Hst.
Qed.

Lemma snapshot_resets_staleness_witness :
  (wf scene_with_snapshot
   ∧ JsMap.get "them" (pending scene_with_snapshot) = Some snapshot_of_them
   ∧ no_local "them" scene_with_snapshot)
  ∧ (get "them"
       (state_of (run [Tick 7000; Step 12001 0 PlayerController.idle]
                    scene_with_snapshot)) = None
     ↔ 12001 - 7000 > 5000 + 0).
Proof.
  assert (Hwf : wf scene_with_snapshot) by apply wf_run, wf_new.
  assert (Hl : no_local "them" scene_with_snapshot).
  { intros a o Hget. by vm_compute in Hget. }
  split; [done|].
  exact (snapshot_resets_staleness scene_with_snapshot 7000 12001 0
           PlayerController.idle "them" snapshot_of_them Hwf eq_refl Hl).
Defined.

Lemma channel_sends_app o1 o2 :
  channel_sends (o1 ++ o2) = channel_sends o1 ++ channel_sends o2.
Proof. apply omap_app. Qed.

Lemma channel_sends_on_object a f g :
  channel_sends (effects_of (on_object a f g)) = [].
Proof.
  destruct (object a g) as [o|] eqn:Ho.
  - rewrite (on_object_eq a f g o Ho). cbn.
    by induction (f o).2.
  - unfold on_object. run_binds. cbn. by rewrite Ho.
Qed.

Lemma channel_sends_add a g :
  channel_sends (effects_of (TankManager_add a g)) = [].
Proof.
  destruct (object a g) as [o|] eqn:Ho.
  - rewrite (TankManager_add_eq a g o Ho). cbn.
    by destruct (JsMap.has _ _).
  - unfold TankManager_add. run_binds. cbn. by rewrite Ho.
Qed.

Lemma channel_sends_apply_snapshot now entry g :
  channel_sends (effects_of (apply_snapshot now entry g)) = [].
Proof.
  destruct entry as [u d]. unfold apply_snapshot.
  rewrite effects_bind. cbn -[on_object TankManager_add channel_sends].
  destruct (getNetwork u g) as [a|].
  - apply channel_sends_on_object.
  - rewrite !effects_bind. cbn -[on_object TankManager_add channel_sends].
    rewrite channel_sends_app, channel_sends_add.
    change (channel_sends (AddToScene ?a :: ?l)) with (channel_sends l).
    apply channel_sends_on_object.
Qed.

Lemma channel_sends_forEach {A} (f : A → M unit) (l : list A) g :
  (∀ x g, channel_sends (effects_of (f x g)) = []) →
  channel_sends (effects_of (forEach l f g)) = [].
Proof.
  intros Hf. revert g. induction l as [|x l IH]; intros g; [done|].
  by rewrite effects_forEach_cons, channel_sends_app, Hf, IH.
Qed.

(** X16. With the player's tank in place, a processing tick sends exactly
    one message: the export of the player's tank, as it is before the
    buffered snapshots are applied, on the channel [update]. Applying the
    buffered snapshots sends nothing. *)
Theorem tick_sends_player_export (g : t) (p : Tank.t) (now : Z) :
  player_object g = Some p →
  channel_sends (effects_of (tick now g)) = [("update", Tank.export p)].
Proof.
  intros Hp. unfold tick. rewrite effects_bind. cbn -[forEach apply_snapshot].
  rewrite effects_bind, channel_sends_app. rewrite Hp.
  rewrite effects_bind, channel_sends_app.
  rewrite channel_sends_forEach by apply channel_sends_apply_snapshot.
  done.
Qed.

Lemma tick_sends_player_export_witness :
  player_object scene_with_snapshot = Some (Tank.new Tank.KTankPlayer "me")
  ∧ channel_sends (effects_of (tick 0 scene_with_snapshot))
    = [("update", Tank.export (Tank.new Tank.KTankPlayer "me"))].
Proof.
  split; [done|].
  exact (tick_sends_player_export scene_with_snapshot _ 0 eq_refl).
Defined.

(** X17. The [tank:hit] handler changes one object only. For a uuid that is
    not registered it does nothing. Otherwise the tank registered under the
    uuid gets its health lowered by the damage and clamped to 0..100, the
    manager is unchanged, the tanks registered under other uuids keep their
    objects, and the effects are those of [hit] on the target. *)
Theorem hit_only_its_target (g : t) (damage : Z) (to : string) :
  wf g →
  (get to g = None → on_tank_hit damage to g = ((), g, []))
  ∧ (∀ a o, get to g = Some a → object a g = Some o →
       let r := on_tank_hit damage to g in
       tanks (state_of r) = tanks g
       ∧ Tank.get_health <$> object a (state_of r)
         = Some (Z.min (Z.max (Tank.get_health o - damage) 0) 100)
       ∧ (∀ u b, u ≠ to → get u g = Some b →
            object b (state_of r) = object b g)
       ∧ effects_of r = OfTank a <$> (Tank.hit damage o).2).
Proof.
  intros Hg. split.
  - intros Hnone. unfold on_tank_hit. run_binds. cbn. by rewrite Hnone.
  - intros a o Hget Ho r. subst r.
    assert (Heq : on_tank_hit damage to g = on_object a (Tank.hit damage) g).
    { unfold on_tank_hit. rewrite bind_eq. cbn -[on_object]. rewrite Hget.
      by destruct (on_object a (Tank.hit damage) g) as [[[] ?] ?]. }
    rewrite Heq, (on_object_eq a _ g o Ho).
    cbn [state_of effects_of fst snd]. split_and!; [done| | |done].
    + unfold object. cbn.
      rewrite list_lookup_insert_eq by (by apply lookup_lt_Some in Ho).
      cbn. f_equal. unfold Tank.hit.
      by destruct (Tank.set_health_result o (Tank.get_health o - damage)).
    + intros u b Hne Hb. unfold object. cbn.
      apply list_lookup_insert_ne. intros <-.
      destruct (wf_uuid g Hg to a Hget) as (o1 & Ho1 & Hu1).
      destruct (wf_uuid g Hg u a Hb) as (o2 & Ho2 & Hu2).
      congruence.
Qed.

Lemma hit_only_its_target_witness :
  wf scene_with_proxy
  ∧ on_tank_hit 30 "nobody" scene_with_proxy = ((), scene_with_proxy, [])
  ∧ Tank.get_health
      <$> object 1%nat (state_of (on_tank_hit 30 "them" scene_with_proxy))
    = Some 50.
Proof.
  assert (Hwf : wf scene_with_proxy) by apply wf_run, wf_new.
  split; [done|].
  destruct (hit_only_its_target scene_with_proxy 30 "them" Hwf) as [_ Hhit].
  destruct (hit_only_its_target scene_with_proxy 30 "nobody" Hwf)
    as [Hmiss _].
  split; [by apply Hmiss|].
  destruct (object 1%nat scene_with_proxy) as [proxy|] eqn:Hobj; [|done].
  destruct (Hhit 1%nat proxy eq_refl Hobj) as (_ & -> & _).
  vm_compute in Hobj. by injection Hobj as <-.
Defined.

(** X18. [respawn()] with a uuid that is not registered: the new tank is
    a new object, a [TankPlayer] with the new uuid and full health; it
    becomes the player and is registered under its uuid, not as a proxy.
    The objects that existed keep their addresses and contents, and the
    uuid of the former player's tank is no longer registered. *)
Theorem respawn_replaces_player (g : t) (uuid : string)
    (metadata : option ServerNetwork.Metadata.t) :
  wf g → get uuid g = None →
  let g' := state_of (respawn uuid metadata g) in
  let a := length (heap g) in
  player g' = Some a
  ∧ (∃ o, object a g' = Some o ∧ Tank.uuid o = uuid
          ∧ Tank.kind o = Tank.KTankPlayer ∧ Tank.get_health o = 100)
  ∧ get uuid g' = Some a ∧ getNetwork uuid g' = None
  ∧ (∀ b o, object b g = Some o → object b g' = Some o)
  ∧ (∀ old o, player g = Some old → object old g = Some o →
       Tank.uuid o ≠ uuid → get (Tank.uuid o) g' = None).
Proof.
  intros Hg Hfresh g' a. subst g'. unfold respawn.
  rewrite state_bind. cbn -[TankManager_remove TankManager_add on_object alloc].
  rewrite state_bind.
  set (g1 := state_of (match player g with
                       | Some old => TankManager_remove old;; skip
                       | None => skip
                       end g)).
  assert (H1 : wf g1 ∧ heap g1 = heap g ∧ get uuid g1 = None
    ∧ getNetwork uuid g1 = None
    ∧ ∀ old o, player g = Some old → object old g = Some o →
        get (Tank.uuid o) g1 = None).
  { assert (Hnet : getNetwork uuid g = None).
    { destruct (getNetwork uuid g) as [b|] eqn:Hb; [|done].
      destruct (wf_network g Hg _ _ Hb) as [Hget _]. congruence. }
    subst g1. destruct (player g) as [old|]; [|by split_and!].
    rewrite state_bind.
    change (state_of (skip ?x)) with x.
    pose proof (wf_remove g old Hg) as Hwf. revert Hwf.
    unfold TankManager_remove. rewrite state_bind. cbn -[TankManager_delete].
    destruct (object old g) as [o|] eqn:Hobj; cycle 1.
    { intros Hwf. split_and!; [done..|]. intros ? ? [= <-] ?. congruence. }
    rewrite TankManager_delete_eq. cbn [state_of fst snd]. intros Hwf.
    split_and!; [done|done| | |].
    - unfold get. cbn. destruct (decide (Tank.uuid o = uuid)) as [->|Hne].
      + apply JsMap.get_delete_eq.
      + by rewrite JsMap.get_delete_ne.
    - unfold getNetwork. cbn.
      destruct (decide (Tank.uuid o = uuid)) as [->|Hne].
      + apply JsMap.get_delete_eq.
      + by rewrite JsMap.get_delete_ne.
    - intros ? o' [= <-] Ho'. rewrite Hobj in Ho'. injection Ho' as <-.
      unfold get. cbn. apply JsMap.get_delete_eq. }
  destruct H1 as (Hg1 & Hh1 & Hf1 & Hn1 & Hold1).
  rewrite state_bind.
  set (fresh := Tank.new Tank.KTankPlayer uuid).
  set (g2 := state_of (alloc fresh g1)).
  rewrite !state_bind. cbn -[TankManager_add on_object alloc g2].
  change ((alloc fresh g1).1.1) with (length (heap g1)).
  rewrite Hh1. fold a.
  set (g3 := with_player (Some a) g2).
  assert (Hh3 : heap g3 = heap g ++ [fresh]) by (cbn; by rewrite Hh1).
  assert (Ho3 : object a g3 = Some fresh).
  { unfold object. rewrite Hh3. subst a. by rewrite lookup_app_r, Nat.sub_diag. }
  rewrite (on_object_eq a _ g3 fresh Ho3). cbn [state_of fst snd].
  set (o := (Tank.import _ fresh).1).
  assert (Hid : Tank.uuid o = uuid ∧ Tank.kind o = Tank.KTankPlayer
                ∧ Tank.get_health o = 100).
  { subst o. destruct metadata as [md|]; cbn; [|done].
    by repeat destruct (Tank.Properties.write _ _ _ _) as [? ?]. }
  destruct Hid as (Hu & Hk & Hhealth).
  set (g4 := with_heap _ g3).
  assert (Hh4 : heap g4 = heap g ++ [o]).
  { subst g4. cbn [heap with_heap]. rewrite Hh3. subst a.
    by rewrite insert_app_r_alt, Nat.sub_diag. }
  assert (Ho4 : object a g4 = Some o).
  { unfold object. rewrite Hh4. subst a. by rewrite lookup_app_r, Nat.sub_diag. }
  rewrite (TankManager_add_state a g4 o Ho4), Hu.
  change (entries (tanks g4)) with (entries (tanks g1)).
  unfold JsMap.has. unfold get in Hf1. rewrite Hf1.
  rewrite (decide_False (P := Tank.kind o = Tank.KTankNetwork))
    by (by rewrite Hk).
  unfold get, getNetwork, object. cbn [with_entries with_tanks heap tanks
    entries networkTanks player].
  rewrite Hh4, JsMap.get_set_eq. split_and!.
  - done.
  - exists o. split_and!; [|done..]. subst a. by rewrite lookup_app_r, Nat.sub_diag.
  - done.
  - exact Hn1.
  - intros b o' Ho'. by apply lookup_app_l_Some.
  - intros old o' Hp Ho' Hne. rewrite JsMap.get_set_ne by done.
    by apply (Hold1 old o').
Qed.

Lemma respawn_replaces_player_witness :
  (wf scene_with_proxy ∧ get "again" scene_with_proxy = None)
  ∧ player (state_of (respawn "again" None scene_with_proxy)) = Some 2%nat
  ∧ get "again" (state_of (respawn "again" None scene_with_proxy))
    = Some 2%nat
  ∧ get "me" (state_of (respawn "again" None scene_with_proxy)) = None.
Proof.
  assert (Hwf : wf scene_with_proxy) by apply wf_run, wf_new.
  split; [done|].
  destruct (respawn_replaces_player scene_with_proxy "again" None Hwf eq_refl)
    as (Hp & _ & Hget & _ & _ & Hold).
  split_and!; [exact Hp|exact Hget|].
  exact (Hold 0%nat (Tank.new Tank.KTankPlayer "me") eq_refl eq_refl
           ltac:(done)).
Defined.

(** X19. The delay [asyncLoop] waits before the next run is never
    negative, and a run together with the delay after it lasts
    [minInterval], or as long as the run itself when that took longer. *)
Theorem asyncLoop_period (minInterval start finish : Z) :
  0 ≤ asyncLoop_interval minInterval start finish
  ∧ (finish - start) + asyncLoop_interval minInterval start finish
    = Z.max minInterval (finish - start).
Proof. unfold asyncLoop_interval. lia. Qed.

End Game.

(** * JavaScript strings

    A string is its sequence of UTF-16 code units; [length], [slice] and
    [trim] work on code units. *)
Module JsString.

Definition t : Type := list N.

(** The code units [trim] strips: WhiteSpace and LineTerminator of
    ECMAScript (TAB, LF, VT, FF, CR, SP, NBSP, U+1680, U+2000 to U+200A,
    U+2028, U+2029, U+202F, U+205F, U+3000 and U+FEFF). *)
Definition isWhiteSpace (u : N) : bool :=
  ((9 <=? u) && (u <=? 13) || (u =? 32) || (u =? 160) || (u =? 5760)
   || (8192 <=? u) && (u <=? 8202) || (u =? 8232) || (u =? 8233)
   || (u =? 8239) || (u =? 8287) || (u =? 12288) || (u =? 65279))%N.

Fixpoint trimStart (s : t) : t :=
  match s with
  | u :: s' => if isWhiteSpace u then trimStart s' else s
  | [] => []
  end.

Definition trimEnd (s : t) : t := reverse (trimStart (reverse s)).

(** [String.prototype.trim]. *)
Definition trim (s : t) : t := trimEnd (trimStart s).

(** [s.slice(0, n)]. *)
Definition slice_0 (n : nat) (s : t) : t := take n s.

(** The string of a literal written with ASCII characters only. *)
Definition of_ascii (s : string) : t :=
  (λ c, N.of_nat (Ascii.nat_of_ascii c)) <$> String.list_ascii_of_string s.

Lemma length_trimStart s : (length (trimStart s) ≤ length s)%nat.
Proof.
  induction s as [|u s IH]; cbn; [lia|].
  destruct (isWhiteSpace u); cbn; lia.
Qed.

Lemma trimStart_blank s :
  Forall (λ u, isWhiteSpace u = true) s → trimStart s = [].
Proof. induction 1 as [|u s Hu _ IH]; [done|]. cbn. by rewrite Hu. Qed.

Lemma trimStart_head s u s' :
  trimStart s = u :: s' → isWhiteSpace u = false.
Proof.
  induction s as [|v s IH]; cbn; [done|].
  destruct (isWhiteSpace v) eqn:Hv; [done|]. by intros [= <- _].
Qed.

Lemma trimStart_suffix s : trimStart s `suffix_of` s.
Proof.
  induction s as [|u s IH]; cbn; [done|].
  destruct (isWhiteSpace u); [by apply suffix_cons_r|done].
Qed.

End JsString.

(** * The chat input: [ChatUi] *)
Module ChatUi.

(** A chat line of the local list; [date] is [date.getTime()]. *)
Record Message := mkMessage {
  from : ServerNetwork.PeerData.t;
  message : JsString.t;
  date : Z
}.

(** The payload sent on channel [chat]: the text and the ISO date, kept
    here as the same instant. *)
Record ChatData := mkChatData { chat_message : JsString.t; chat_date : Z }.

Inductive Effect :=
  | PreventDefault
  | ChannelSend (channel : string) (data : ChatData).

(** The component: the [messages] state, the ref [lastMessageTime] and
    the value of the input element. *)
Record t := mk {
  messages : list Message;
  lastMessageTime : Z;
  input : JsString.t
}.

Definition with_messages (l : list Message) (s : t) : t :=
  {| messages := l; lastMessageTime := lastMessageTime s; input := input s |}.
Definition with_lastMessageTime (z : Z) (s : t) : t :=
  {| messages := messages s; lastMessageTime := z; input := input s |}.
Definition with_input (v : JsString.t) (s : t) : t :=
  {| messages := messages s; lastMessageTime := lastMessageTime s;
     input := v |}.

Abbreviation M := (Prog t Effect).

(** [Array.prototype.sort((a, b) => b.date.getTime() - a.date.getTime())]:
    newest first, and stable. *)
Fixpoint insert_desc (x : Message) (l : list Message) : list Message :=
  match l with
  | [] => [x]
  | y :: l' =>
      if bool_decide (date x < date y) then y :: insert_desc x l'
      else x :: y :: l'
  end.

Definition sort_desc (l : list Message) : list Message :=
  foldr insert_desc [] l.

(** [Array.prototype.slice(-n)]: the last [n] elements. *)
Definition slice_last (n : nat) {A} (l : list A) : list A :=
  drop (length l - n) l.

(** [addMessage]: the state update
    [messages => [...messages, message].sort(...).slice(-50)]. *)
Definition addMessage (m : Message) : M unit :=
  modify (λ s, with_messages
    (slice_last 50 (sort_desc (messages s ++ [m]))) s).

(** [send(message)]. [peerData] is what [network?.getPeerData()] returns,
    [today] the instant of [new Date()] and [now'] what [Date.now()]
    returns in the last statement. *)
Definition send (peerData : option ServerNetwork.PeerData.t)
    (today now' : Z) (text : JsString.t) : M unit :=
  match peerData with
  | Some pd =>
      let text := JsString.slice_0 100 (JsString.trim text) in
      tell (ChannelSend "chat" (mkChatData text today));;
      addMessage (mkMessage pd text today);;
      modify (with_lastMessageTime now')
  | None => skip
  end.

(** [handleSubmit(event)]; [now] is what [Date.now()] returns in the
    guard. *)
Definition handleSubmit (now : Z)
    (peerData : option ServerNetwork.PeerData.t) (today now' : Z) : M unit :=
  tell PreventDefault;;
  s ← this;
  if bool_decide (now - lastMessageTime s < 600) then skip
  else
    if decide (input s = []) then skip
    else send peerData today now' (input s);; modify (with_input []).

(** The user types [text] in the input. *)
Definition type_text (text : JsString.t) : M unit :=
  modify (with_input text).

(** A component and a local peer used to exercise the statements. *)
Definition typing_hello : t := mk [] 0 (JsString.of_ascii "  hello ").
Definition me : ServerNetwork.PeerData.t :=
  ServerNetwork.PeerData.mk (Some "me")
    (ServerNetwork.Metadata.mk "Me" "heig").

(** The order [addMessage] sorts by: [x] comes before [y] when it is not
    older. *)
Definition not_older (x y : Message) : Prop := date y ≤ date x.

#[global] Instance not_older_dec : RelDecision not_older.
Proof. intros x y. unfold not_older. apply _. Defined.

(** The envelopes a trace puts on the [chat] channel. *)
Definition transmitted (out : list Effect) : list ChatData :=
  omap (λ e, match e with ChannelSend _ d => Some d | _ => None end) out.

Lemma insert_desc_Permutation x l : insert_desc x l ≡ₚ x :: l.
Proof.
  induction l as [|y l IH]; [done|]. cbn.
  destruct (bool_decide (date x < date y)); [|done].
  rewrite IH. apply Permutation_swap.
Qed.

Lemma sort_desc_Permutation l : sort_desc l ≡ₚ l.
Proof.
  induction l as [|x l IH]; [done|]. cbn.
  by rewrite insert_desc_Permutation, IH.
Qed.

Lemma slice_last_all {A} (n : nat) (l : list A) :
  (length l ≤ n)%nat → slice_last n l = l.
Proof.
  intros Hl. unfold slice_last.
  by replace (length l - n)%nat with 0%nat by lia.
Qed.

Lemma addMessage_keeps m s :
  (length (messages s) < 50)%nat →
  m ∈ messages (state_of (addMessage m s)).
Proof.
  intros Hl. cbn. rewrite slice_last_all.
  - rewrite sort_desc_Permutation, elem_of_app. right. left.
  - rewrite sort_desc_Permutation, length_app. cbn. lia.
Qed.

Lemma insert_desc_sorted x l :
  StronglySorted not_older l → StronglySorted not_older (insert_desc x l).
Proof.
  induction 1 as [|y l Hl IH Hy]; cbn.
  - by repeat constructor.
  - destruct (bool_decide (date x < date y)) eqn:Hlt.
    + apply bool_decide_eq_true in Hlt. constructor; [done|].
      rewrite insert_desc_Permutation. constructor; [|done].
      unfold not_older. lia.
    + apply bool_decide_eq_false in Hlt.
      constructor; [by constructor|]. constructor; [unfold not_older; lia|].
      eapply Forall_impl; [exact Hy|]. unfold not_older. intros z. cbn. lia.
Qed.

Lemma sort_desc_sorted l : StronglySorted not_older (sort_desc l).
Proof.
  induction l as [|x l IH]; cbn; [constructor|]. by apply insert_desc_sorted.
Qed.

Lemma drop_sorted n (l : list Message) :
  StronglySorted not_older l → StronglySorted not_older (drop n l).
Proof.
  intros Hl. revert n. induction Hl as [|y l Hl IH Hy]; intros [|n]; cbn;
    try constructor; done.
Qed.

Lemma insert_desc_front x l :
  Forall (not_older x) l → insert_desc x l = x :: l.
Proof.
  destruct 1 as [|y l Hy _]; [done|]. cbn.
  rewrite bool_decide_false; [done|]. unfold not_older in Hy. lia.
Qed.

Lemma sort_desc_newest m l :
  StronglySorted not_older l → Forall (λ y, date y < date m) l →
  sort_desc (l ++ [m]) = m :: l.
Proof.
  unfold sort_desc. rewrite foldr_app. cbn.
  induction 1 as [|y l Hl IH Hy]; [done|].
  intros [Hm Hall]%Forall_cons. cbn. rewrite IH by done. cbn.
  rewrite bool_decide_true by done. by rewrite insert_desc_front.
Qed.

Lemma addMessage_full m s :
  length (messages s) = 50%nat →
  StronglySorted not_older (messages s) →
  Forall (λ y, date y < date m) (messages s) →
  addMessage m s = ((), s, []).
Proof.
  intros Hlen Hsorted Hnew. unfold addMessage, modify.
  rewrite sort_desc_newest by done. unfold slice_last. cbn [length].
  rewrite Hlen. cbn. by destruct s.
Qed.

(** A submission that goes through: the guard passes, the input is not
    empty and there is a connection. *)
Lemma handleSubmit_sent s pd now today now' :
  600 ≤ now - lastMessageTime s → input s ≠ [] →
  let text := JsString.slice_0 100 (JsString.trim (input s)) in
  handleSubmit now (Some pd) today now' s
  = ((),
     with_input [] (with_lastMessageTime now'
       (state_of (addMessage (mkMessage pd text today) s))),
     [PreventDefault; ChannelSend "chat" (mkChatData text today)]).
Proof.
  intros Hguard Hinput. unfold handleSubmit, send. run_binds. cbn.
  rewrite bool_decide_false by lia. by rewrite decide_False.
Qed.

(** Fifty lines, dated 49 down to 0, and the same component with a text
    typed in. *)
Definition full_history : t :=
  mk ((λ i, mkMessage me (JsString.of_ascii "line") (49 - Z.of_nat i))
        <$> seq 0 50) 0 [].

Definition full_history_typing : t :=
  state_of (type_text (JsString.of_ascii "hello") full_history).

(** C8. The first of two submissions is transmitted, but it is not always
    appended to the local list: with 50 lines held, sorted newest first and
    all older than the new line, a submission that passes the guard is
    transmitted once on [chat] and the list stays as it was, without the
    new line ([slice(-50)] of the newest-first list cuts its head). *)
Theorem submission_on_full_list (s : t) (pd : ServerNetwork.PeerData.t)
    (now today now' : Z) :
  600 ≤ now - lastMessageTime s → input s ≠ [] →
  length (messages s) = 50%nat →
  StronglySorted not_older (messages s) →
  Forall (λ y, date y < today) (messages s) →
  let r := handleSubmit now (Some pd) today now' s in
  let text := JsString.slice_0 100 (JsString.trim (input s)) in
  transmitted (effects_of r) = [mkChatData text today]
  ∧ messages (state_of r) = messages s
  ∧ mkMessage pd text today ∉ messages (state_of r).
Proof.
  intros Hguard Hinput Hlen Hsorted Hnew r text. subst r.
  rewrite (handleSubmit_sent s pd now today now' Hguard Hinput).
  fold text. rewrite (addMessage_full (mkMessage pd text today) s) by done.
  cbn. split_and!; [done..|].
  intros Hin. rewrite Forall_forall in Hnew. apply Hnew in Hin. cbn in Hin.
  lia.
Qed.

Lemma submission_on_full_list_witness :
  (600 ≤ 1000 - lastMessageTime full_history_typing
   ∧ input full_history_typing ≠ []
   ∧ length (messages full_history_typing) = 50%nat
   ∧ StronglySorted not_older (messages full_history_typing)
   ∧ Forall (λ y, date y < 1000) (messages full_history_typing))
  ∧ transmitted
      (effects_of (handleSubmit 1000 (Some me) 1000 1001 full_history_typing))
    = [mkChatData (JsString.of_ascii "hello") 1000]
  ∧ mkMessage me (JsString.of_ascii "hello") 1000
    ∉ messages
        (state_of (handleSubmit 1000 (Some me) 1000 1001 full_history_typing)).
Proof.
  assert (H1 : 600 ≤ 1000 - lastMessageTime full_history_typing)
    by (cbn; lia).
  assert (H2 : input full_history_typing ≠ []) by done.
  assert (H3 : length (messages full_history_typing) = 50%nat)
    by reflexivity.
  assert (H4 : StronglySorted not_older (messages full_history_typing)).
  { refine (bool_decide_unpack _ _). vm_compute. exact I. }
  assert (H5 : Forall (λ y, date y < 1000) (messages full_history_typing)).
  { refine (bool_decide_unpack _ _). vm_compute. exact I. }
  split; [done|].
  destruct (submission_on_full_list full_history_typing me 1000 1000 1001
              H1 H2 H3 H4 H5) as (Ht & _ & Hn).
  split; [exact Ht|exact Hn].
Defined.

(** X24. The rate limit. A submission that passes the guard, with a
    non-empty input and a connection, is transmitted once on channel
    [chat] and handed to [addMessage]; the input is cleared and
    [lastMessageTime] becomes the clock read at the end of [send]. A second
    submission whose guard reads a clock less than 600 ms after the first
    one's (the clock not going backwards in between) is dropped: nothing is
    transmitted and the component is left exactly as it was, whatever was
    typed and whatever the network answers. *)
Theorem chat_rate_limit (s : t) (pd : ServerNetwork.PeerData.t)
    (t1 today1 t1' t2 today2 t2' : Z) (text2 : JsString.t)
    (peer2 : option ServerNetwork.PeerData.t) :
  600 ≤ t1 - lastMessageTime s → input s ≠ [] →
  t1 ≤ t1' → t2 - t1 < 600 →
  let r1 := handleSubmit t1 (Some pd) today1 t1' s in
  let text := JsString.slice_0 100 (JsString.trim (input s)) in
  let line := mkMessage pd text today1 in
  let s1 := state_of (type_text text2 (state_of r1)) in
  let r2 := handleSubmit t2 peer2 today2 t2' s1 in
  transmitted (effects_of r1) = [mkChatData text today1]
  ∧ messages (state_of r1) = messages (state_of (addMessage line s))
  ∧ ((length (messages s) < 50)%nat → line ∈ messages (state_of r1))
  ∧ lastMessageTime (state_of r1) = t1'
  ∧ input (state_of r1) = []
  ∧ transmitted (effects_of r2) = []
  ∧ state_of r2 = s1
  ∧ input s1 = text2 ∧ messages s1 = messages (state_of r1)
  ∧ lastMessageTime s1 = t1'
  ∧ transmitted (effects_of r1 ++ effects_of r2) = [mkChatData text today1].
Proof.
  intros Hguard Hinput Hclock Hwithin r1 text line s1 r2.
  assert (Hr1 : r1 = ((),
    with_input [] (with_lastMessageTime t1'
      (state_of (addMessage line s))),
    [PreventDefault; ChannelSend "chat" (mkChatData text today1)]))
    by by apply handleSubmit_sent.
  assert (Hr2 : r2 = ((), s1, [PreventDefault])).
  { subst r2 s1. rewrite Hr1. unfold handleSubmit. run_binds. cbn.
    by rewrite bool_decide_true by lia. }
  rewrite Hr2. subst s1. rewrite Hr1. split_and!; try done.
  intros Hl. by apply (addMessage_keeps line s).
Qed.

Lemma chat_rate_limit_witness :
  (600 ≤ 1000 - lastMessageTime typing_hello ∧ input typing_hello ≠ []
   ∧ 1000 ≤ 1001 ∧ 1500 - 1000 < 600)
  ∧ transmitted
      (effects_of (handleSubmit 1000 (Some me) 1000 1001 typing_hello)
       ++ effects_of
            (handleSubmit 1500 (Some me) 1500 1501
               (state_of (type_text (JsString.of_ascii "again")
                  (state_of
                     (handleSubmit 1000 (Some me) 1000 1001 typing_hello))))))
    = [mkChatData (JsString.of_ascii "hello") 1000].
Proof.
  assert (H1 : 600 ≤ 1000 - lastMessageTime typing_hello) by (cbn; lia).
  assert (H2 : input typing_hello ≠ []) by done.
  assert (H3 : 1000 ≤ 1001) by lia.
  assert (H4 : 1500 - 1000 < 600) by lia.
  split; [done|].
  destruct (chat_rate_limit typing_hello me 1000 1000 1001 1500 1500 1501
              (JsString.of_ascii "again") (Some me) H1 H2 H3 H4)
    as (_ & _ & _ & _ & _ & _ & _ & _ & _ & _ & H).
  exact H.
Defined.

(** *** The message list *)

(** X20. Whatever the list was, after [addMessage] it is sorted newest
    first, holds one line more but at most 50, and every line in it is the
    new one or was there before. *)
Theorem addMessage_newest_first (m : Message) (s : t) :
  let l := messages (state_of (addMessage m s)) in
  StronglySorted not_older l
  ∧ length l = Nat.min (length (messages s) + 1) 50
  ∧ ∀ x, x ∈ l → x = m ∨ x ∈ messages s.
Proof.
  cbn. unfold slice_last. split_and!.
  - apply drop_sorted, sort_desc_sorted.
  - rewrite length_drop, sort_desc_Permutation, length_app. cbn. lia.
  - intros x Hx. apply (subseteq_drop _ _ x) in Hx.
    rewrite sort_desc_Permutation in Hx.
    apply elem_of_app in Hx as [Hx|Hx%list_elem_of_singleton]; auto.
Qed.

(** X21. The list keeps the 50 oldest lines: once it holds 50 lines, sorted
    newest first, adding a line newer than all of them changes nothing, so
    the new line is not kept. *)
Theorem full_list_drops_newest (m : Message) (s : t) :
  length (messages s) = 50%nat →
  StronglySorted not_older (messages s) →
  Forall (λ y, date y < date m) (messages s) →
  addMessage m s = ((), s, []).
Proof.
  intros Hlen Hsorted Hnew. unfold addMessage, modify.
  rewrite sort_desc_newest by done. unfold slice_last. cbn [length].
  rewrite Hlen. cbn. by destruct s.
Qed.

Lemma full_list_drops_newest_witness :
  (length (messages full_history) = 50%nat
   ∧ StronglySorted not_older (messages full_history)
   ∧ Forall (λ y, date y < date (mkMessage me (JsString.of_ascii "new") 50))
       (messages full_history))
  ∧ addMessage (mkMessage me (JsString.of_ascii "new") 50) full_history
    = ((), full_history, []).
Proof.
  assert (H1 : length (messages full_history) = 50%nat) by reflexivity.
  assert (H2 : StronglySorted not_older (messages full_history)).
  { refine (bool_decide_unpack _ _). vm_compute. exact I. }
  assert (H3 : Forall
                 (λ y, date y < date (mkMessage me (JsString.of_ascii "new") 50))
                 (messages full_history)).
  { refine (bool_decide_unpack _ _). vm_compute. exact I. }
  split; [done|].
  exact (full_list_drops_newest (mkMessage me (JsString.of_ascii "new") 50)
           full_history H1 H2 H3).
Defined.

(** *** The text that is sent *)

Lemma trim_blank s :
  Forall (λ u, JsString.isWhiteSpace u = true) s → JsString.trim s = [].
Proof.
  intros Hs. unfold JsString.trim, JsString.trimEnd.
  by rewrite (JsString.trimStart_blank s Hs).
Qed.

Lemma trim_ends s u :
  (head (JsString.trim s) = Some u ∨ last (JsString.trim s) = Some u) →
  JsString.isWhiteSpace u = false.
Proof.
  unfold JsString.trim, JsString.trimEnd.
  set (s1 := JsString.trimStart s).
  intros [Hh|Hl].
  - destruct (JsString.trimStart_suffix (reverse s1)) as [k Hk].
    apply (f_equal reverse) in Hk.
    rewrite reverse_involutive, reverse_app in Hk.
    destruct (reverse (JsString.trimStart (reverse s1))) as [|v r] eqn:Hr;
      [done|].
    cbn in Hh. injection Hh as ->.
    destruct s1 as [|w s1'] eqn:Hs1; [by destruct (reverse k)|].
    cbn in Hk. injection Hk as <- _.
    by apply (JsString.trimStart_head s w s1').
  - rewrite last_reverse in Hl.
    destruct (JsString.trimStart (reverse s1)) as [|v r] eqn:Hr; [done|].
    cbn in Hl. injection Hl as ->.
    by apply (JsString.trimStart_head _ _ _ Hr).
Qed.

(** X22. With a connection, [send] puts exactly one envelope on the channel
    [chat]; its text has at most 100 code units, is a prefix of the
    trimmed text and the trimmed text itself when that has at most 100 code
    units, does not start with white space, does not end with white space
    unless it was cut, and is empty when the text is white space only. *)
Theorem sent_text_bounded (s : t) (pd : ServerNetwork.PeerData.t)
    (today now' : Z) (text : JsString.t) :
  ∃ body,
    effects_of (send (Some pd) today now' text s)
    = [ChannelSend "chat" (mkChatData body today)]
    ∧ (length body ≤ 100)%nat
    ∧ body `prefix_of` JsString.trim text
    ∧ ((length (JsString.trim text) ≤ 100)%nat → body = JsString.trim text)
    ∧ (∀ u, head body = Some u → JsString.isWhiteSpace u = false)
    ∧ ((length (JsString.trim text) ≤ 100)%nat →
       ∀ u, last body = Some u → JsString.isWhiteSpace u = false)
    ∧ (Forall (λ u, JsString.isWhiteSpace u = true) text → body = []).
Proof.
  exists (JsString.slice_0 100 (JsString.trim text)).
  unfold JsString.slice_0. split_and!.
  - done.
  - rewrite length_take. lia.
  - apply prefix_take.
  - intros Hl. by apply take_ge.
  - intros u Hu. apply (trim_ends text u). left.
    destruct (JsString.trim text); [done|]. exact Hu.
  - intros Hl u Hu. rewrite take_ge in Hu by done.
    apply (trim_ends text u). by right.
  - intros Hb. by rewrite trim_blank.
Qed.

(** X23. A submission that passes the rate guard but sends nothing: with an
    empty input the component is left as it was; with a non-empty input and
    no connection nothing is transmitted, the list and [lastMessageTime]
    are unchanged, and the input is empty afterwards all the same. *)
Theorem unsent_submission (s : t) (now today now' : Z)
    (peerData : option ServerNetwork.PeerData.t) :
  600 ≤ now - lastMessageTime s →
  (input s = [] →
     handleSubmit now peerData today now' s = ((), s, [PreventDefault]))
  ∧ (input s ≠ [] →
       let r := handleSubmit now None today now' s in
       effects_of r = [PreventDefault]
       ∧ input (state_of r) = []
       ∧ messages (state_of r) = messages s
       ∧ lastMessageTime (state_of r) = lastMessageTime s).
Proof.
  intros Hguard. split; intros Hinput.
  - unfold handleSubmit. run_binds. cbn.
    rewrite bool_decide_false by lia. by rewrite decide_True.
  - unfold handleSubmit, send. run_binds. cbn.
    rewrite bool_decide_false by lia. by rewrite decide_False.
Qed.

Lemma unsent_submission_witness :
  600 ≤ 1000 - lastMessageTime typing_hello
  ∧ input (state_of (handleSubmit 1000 None 1000 1001 typing_hello)) = []
  ∧ effects_of (handleSubmit 1000 None 1000 1001 typing_hello)
    = [PreventDefault].
Proof.
  assert (H : 600 ≤ 1000 - lastMessageTime typing_hello) by (cbn; lia).
  split; [done|].
  destruct (unsent_submission typing_hello 1000 1000 1001 None H) as [_ Hs].
  destruct (Hs ltac:(done)) as (He & Hi & _). by split.
Defined.

End ChatUi.
